(** * sonic_vault: LSB steganography over PCM sample bytes

    A shallow embedding of [inject.py], [extract.py] and [generate_tone.py].

    Conventions of the embedding:
    - Python [int] is [Z]; a [bytes]/[bytearray] buffer is a [list Z];
    - a text ([str]) is the list of its Unicode code points, so [ord] and
      [chr] are conversions between a character and its code point;
    - the digit strings built by [format(.., '08b')] and [str(.. & 1)] are
      lists of [ascii] characters;
    - Python [float] is IEEE 754 binary64, as [spec_float] with a 53-bit
      mantissa; [math.sin] is a parameter of the generator;
    - exceptions are values of [exn]; code that mutates a buffer or a file
      runs in a state-and-exception monad [M];
    - the writer of the [wave] module is embedded from CPython 3.11
      ([Lib/wave.py], class [Wave_write]), on a little-endian host; the
      inputs of the encoder and the decoder are what the reader of the
      module and [f.read()] have returned; the file system accepts every
      [open] and [write];
    - terminal output (banners, progress bars) is not modelled. *)

From Stdlib Require Import ZArith Ascii String DecimalString Lia SpecFloat.
From stdpp Require Import base tactics option list numbers.

Local Open Scope Z_scope.

(** ** Exceptions and the state-and-exception monad *)

Inductive exn : Type :=
  | ValueError_MessageTooLarge (message_bits capacity : Z)
      (* inject.py, raise ValueError("Message too large! ...") *)
  | IndexError                 (* subscript out of range *)
  | ValueError                 (* int() of a non-digit, chr()/bytearray value out of range *)
  | OverflowError              (* int(inf), int too large for a float *)
  | ZeroDivisionError
  | WaveError                  (* wave.Error *)
  | StructError.               (* struct.error *)

Inductive result (A : Type) : Type :=
  | Ok (a : A)
  | Raise (e : exn).
Arguments Ok {A} a.
Arguments Raise {A} e.

(** A computation over a store [S]: it returns a value or raises, and in
    both cases leaves a store behind (Python does not roll back). *)
Definition M (S A : Type) : Type := S -> result A * S.

Definition ret {S A} (a : A) : M S A := fun s => (Ok a, s).
Definition raise {S A} (e : exn) : M S A := fun s => (Raise e, s).
Definition bind {S A B} (m : M S A) (k : A -> M S B) : M S B :=
  fun s => match m s with
           | (Ok a, s') => k a s'
           | (Raise e, s') => (Raise e, s')
           end.
Definition get {S} : M S S := fun s => (Ok s, s).
Definition put {S} (s : S) : M S unit := fun _ => (Ok tt, s).
Definition lift {S A} (r : result A) : M S A := fun s => (r, s).

(** Sequencing for code that has no store. *)
Definition bind_result {A B} (r : result A) (k : A -> result B) : result B :=
  match r with
  | Ok a => k a
  | Raise e => Raise e
  end.

Declare Scope py_scope.
Delimit Scope py_scope with py.
Notation "x <- m ;; k" := (bind m (fun x => k))
  (at level 100, m at next level, right associativity) : py_scope.
Notation "m ;;; k" := (bind m (fun _ => k))
  (at level 100, right associativity) : py_scope.
Notation "x <~ r ;; k" := (bind_result r (fun x => k))
  (at level 100, r at next level, right associativity) : py_scope.
Local Open Scope py_scope.

(** ** Python primitives used by the three scripts *)

Definition len {A} (l : list A) : Z := Z.of_nat (length l).

(** [l[k]], with Python's negative indices. *)
Definition getitem {A} (l : list A) (k : Z) : result A :=
  let pos := if 0 <=? k then k else len l + k in
  if (0 <=? pos) && (pos <? len l) then
    match l !! Z.to_nat pos with
    | Some x => Ok x
    | None => Raise IndexError
    end
  else Raise IndexError.

(** [range(start, stop, step)] for a positive step. *)
Definition range (start stop step : Z) : list Z :=
  (fun k => start + step * Z.of_nat k) <$>
    seq 0 (Z.to_nat ((stop - start + step - 1) / step)).

(** [enumerate(l)]. *)
Definition enumerate {A} (l : list A) : list (Z * A) :=
  imap (fun i x => (Z.of_nat i, x)) l.

Definition ascii0 : ascii := "0"%char.
Definition ascii1 : ascii := "1"%char.

(** Binary digits of a positive number, most significant first. *)
Fixpoint bin_digits (p : positive) : list ascii :=
  match p with
  | xH => [ascii1]
  | xO p' => bin_digits p' ++ [ascii0]
  | xI p' => bin_digits p' ++ [ascii1]
  end.

Definition zfill (width : nat) (s : list ascii) : list ascii :=
  replicate (width - length s) ascii0 ++ s.

(** [format(n, '08b')]: base 2, sign-aware zero padding to a MINIMUM width
    of 8; a number of more than 8 bits keeps all its digits. *)
Definition format_08b (n : Z) : list ascii :=
  match n with
  | Z0 => zfill 8 [ascii0]
  | Zpos p => zfill 8 (bin_digits p)
  | Zneg p => "-"%char :: zfill 7 (bin_digits p)
  end.

(** [int(c)] for a one-character string. *)
Definition int_of_char (c : ascii) : result Z :=
  let n := Z.of_nat (nat_of_ascii c) in
  if (48 <=? n) && (n <=? 57) then Ok (n - 48) else Raise ValueError.

(** [int(s, 2)] on the strings made of the digits 0 and 1, where it is the
    number they spell, and on the empty string, where it raises.  Python
    also takes a sign, surrounding blanks, a [0b] prefix and underscores
    between digits; such strings, which are answered by [ValueError] here,
    are never built by [extract_payload] and are outside what is proved of
    [binary_to_text]. *)
Definition int_base2 (s : list ascii) : result Z :=
  match s with
  | [] => Raise ValueError
  | _ =>
    foldl (fun acc c =>
             match acc with
             | Ok v =>
               if Ascii.eqb c ascii0 then Ok (2 * v)
               else if Ascii.eqb c ascii1 then Ok (2 * v + 1)
               else Raise ValueError
             | Raise e => Raise e
             end) (Ok 0) s
  end.

(** [str(n)] for an integer. *)
Definition str_of_int (n : Z) : list ascii :=
  list_ascii_of_string (NilZero.string_of_int (Z.to_int n)).

(** [chr(n)]. *)
Definition chr (n : Z) : result Z :=
  if (0 <=? n) && (n <=? 1114111) then Ok n else Raise ValueError.

(** [ord(c)]. *)
Definition ord (c : Z) : Z := c.

(** [s.endswith(d)]. *)
Definition endswith (s d : list Z) : bool := bool_decide (d `suffix_of` s).

(** [s[a:b]] for [0 <= a <= b]. *)
Definition slice {A} (s : list A) (a b : Z) : list A :=
  take (Z.to_nat (b - a)) (drop (Z.to_nat a) s).

(** [s[:-n]] for [n > 0]. *)
Definition drop_last (n : nat) (s : list Z) : list Z := take (length s - n) s.

(** [bin(n).count('1')] for [n >= 0]. *)
Fixpoint pos_popcount (p : positive) : Z :=
  match p with
  | xH => 1
  | xO p' => pos_popcount p'
  | xI p' => 1 + pos_popcount p'
  end.
Definition popcount (n : Z) : Z :=
  match n with
  | Z0 => 0
  | Zpos p | Zneg p => pos_popcount p
  end.

(** ** The [wave] module: its writer *)

Module Wave.

(** [struct.pack] of one unsigned little-endian field of [n] bytes. *)
Definition le_bytes (n : nat) (x : Z) : list Z :=
  (fun k => (x / 256 ^ Z.of_nat k) mod 256) <$> seq 0 n.

(** [struct.pack('<L', x)]: [struct.error] outside [0, 2**32). *)
Definition pack_L (x : Z) : result (list Z) :=
  if (0 <=? x) && (x <? 4294967296) then Ok (le_bytes 4 x) else Raise StructError.

(** [struct.pack('<H', x)]: [struct.error] outside [0, 2**16). *)
Definition pack_H (x : Z) : result (list Z) :=
  if (0 <=? x) && (x <? 65536) then Ok (le_bytes 2 x) else Raise StructError.

Definition RIFF : list Z := [82; 73; 70; 70].
Definition WAVE : list Z := [87; 65; 86; 69].
Definition fmt_ : list Z := [102; 109; 116; 32].
Definition data_tag : list Z := [100; 97; 116; 97].
Definition WAVE_FORMAT_PCM : Z := 1.

(** [struct.pack('<L4s4sLHHLLHH4s', form_length, b'WAVE', b'fmt ', 16,
    WAVE_FORMAT_PCM, nchannels, framerate, byterate, blockalign, bits,
    b'data')] *)
Definition pack_header (form_length nchannels framerate byterate blockalign
    bits : Z) : result (list Z) :=
  f1 <~ pack_L form_length ;;
  f2 <~ pack_L 16 ;;
  f3 <~ pack_H WAVE_FORMAT_PCM ;;
  f4 <~ pack_H nchannels ;;
  f5 <~ pack_L framerate ;;
  f6 <~ pack_L byterate ;;
  f7 <~ pack_H blockalign ;;
  f8 <~ pack_H bits ;;
  Ok (f1 ++ WAVE ++ fmt_ ++ f2 ++ f3 ++ f4 ++ f5 ++ f6 ++ f7 ++ f8 ++ data_tag).

(** A [Wave_write] object and the file it writes to: the fields set by
    [initfp], the bytes of the file and the position in it.
    [_nframeswritten] is left out: only [tell] and [getnframes] read it. *)
Record wave_write : Type := WaveWrite {
  nchannels : Z;
  sampwidth : Z;
  framerate : Z;
  nframes : Z;
  datawritten : Z;
  datalength : Z;
  headerwritten : bool;
  form_length_pos : Z;
  data_length_pos : Z;
  pos : Z;
  file : list Z
}.

Definition set_nchannels (v : Z) (w : wave_write) : wave_write :=
  WaveWrite v (sampwidth w) (framerate w) (nframes w) (datawritten w)
    (datalength w) (headerwritten w) (form_length_pos w) (data_length_pos w)
    (pos w) (file w).
Definition set_sampwidth (v : Z) (w : wave_write) : wave_write :=
  WaveWrite (nchannels w) v (framerate w) (nframes w) (datawritten w)
    (datalength w) (headerwritten w) (form_length_pos w) (data_length_pos w)
    (pos w) (file w).
Definition set_framerate (v : Z) (w : wave_write) : wave_write :=
  WaveWrite (nchannels w) (sampwidth w) v (nframes w) (datawritten w)
    (datalength w) (headerwritten w) (form_length_pos w) (data_length_pos w)
    (pos w) (file w).
Definition set_nframes (v : Z) (w : wave_write) : wave_write :=
  WaveWrite (nchannels w) (sampwidth w) (framerate w) v (datawritten w)
    (datalength w) (headerwritten w) (form_length_pos w) (data_length_pos w)
    (pos w) (file w).
Definition set_datawritten (v : Z) (w : wave_write) : wave_write :=
  WaveWrite (nchannels w) (sampwidth w) (framerate w) (nframes w) v
    (datalength w) (headerwritten w) (form_length_pos w) (data_length_pos w)
    (pos w) (file w).
Definition set_datalength (v : Z) (w : wave_write) : wave_write :=
  WaveWrite (nchannels w) (sampwidth w) (framerate w) (nframes w)
    (datawritten w) v (headerwritten w) (form_length_pos w)
    (data_length_pos w) (pos w) (file w).
Definition set_headerwritten (v : bool) (w : wave_write) : wave_write :=
  WaveWrite (nchannels w) (sampwidth w) (framerate w) (nframes w)
    (datawritten w) (datalength w) v (form_length_pos w) (data_length_pos w)
    (pos w) (file w).
Definition set_form_length_pos (v : Z) (w : wave_write) : wave_write :=
  WaveWrite (nchannels w) (sampwidth w) (framerate w) (nframes w)
    (datawritten w) (datalength w) (headerwritten w) v (data_length_pos w)
    (pos w) (file w).
Definition set_data_length_pos (v : Z) (w : wave_write) : wave_write :=
  WaveWrite (nchannels w) (sampwidth w) (framerate w) (nframes w)
    (datawritten w) (datalength w) (headerwritten w) (form_length_pos w) v
    (pos w) (file w).
Definition set_pos (v : Z) (w : wave_write) : wave_write :=
  WaveWrite (nchannels w) (sampwidth w) (framerate w) (nframes w)
    (datawritten w) (datalength w) (headerwritten w) (form_length_pos w)
    (data_length_pos w) v (file w).
Definition set_file (v : list Z) (w : wave_write) : wave_write :=
  WaveWrite (nchannels w) (sampwidth w) (framerate w) (nframes w)
    (datawritten w) (datalength w) (headerwritten w) (form_length_pos w)
    (data_length_pos w) (pos w) v.

(** [wave.open(path, 'wb')]: a new, empty file, and [initfp]. *)
Definition wave_open : wave_write :=
  WaveWrite 0 0 0 0 0 0 false 0 0 0 [].

(** [self._file.write(bs)]: the bytes go over what the file holds from the
    position on, and the position moves behind them. *)
Definition file_write (bs : list Z) : M wave_write unit :=
  w <- get ;;
  let p := Z.to_nat (pos w) in
  put (set_pos (pos w + len bs)
         (set_file (take p (file w) ++ bs ++ drop (p + length bs) (file w)) w)).

(** [self._file.tell()] and [self._file.seek(p, 0)] *)
Definition file_tell : M wave_write Z := w <- get ;; ret (pos w).
Definition file_seek (p : Z) : M wave_write unit := w <- get ;; put (set_pos p w).

Definition setnchannels (n : Z) : M wave_write unit :=
  w <- get ;;
  if negb (datawritten w =? 0) then raise WaveError
  else if n <? 1 then raise WaveError
  else put (set_nchannels n w).

Definition setsampwidth (n : Z) : M wave_write unit :=
  w <- get ;;
  if negb (datawritten w =? 0) then raise WaveError
  else if (n <? 1) || (4 <? n) then raise WaveError
  else put (set_sampwidth n w).

(** [framerate] is an [int] here, so [int(round(framerate))] is itself. *)
Definition setframerate (r : Z) : M wave_write unit :=
  w <- get ;;
  if negb (datawritten w =? 0) then raise WaveError
  else if r <=? 0 then raise WaveError
  else put (set_framerate r w).

(** [_write_header(initlength)]; its [assert not self._headerwritten] holds
    at its one call site. *)
Definition write_header (initlength : Z) : M wave_write unit :=
  file_write RIFF ;;;
  w <- get ;;
  (if nframes w =? 0 then
     if nchannels w * sampwidth w =? 0 then raise ZeroDivisionError
     else put (set_nframes (initlength / (nchannels w * sampwidth w)) w)
   else ret tt) ;;;
  w <- get ;;
  put (set_datalength (nframes w * nchannels w * sampwidth w) w) ;;;
  p <- file_tell ;;
  w <- get ;;
  put (set_form_length_pos p w) ;;;
  w <- get ;;
  packed <- lift (pack_header (36 + datalength w) (nchannels w) (framerate w)
                    (nchannels w * framerate w * sampwidth w)
                    (nchannels w * sampwidth w) (sampwidth w * 8)) ;;
  file_write packed ;;;
  p <- file_tell ;;
  w <- get ;;
  put (set_data_length_pos p w) ;;;
  w <- get ;;
  packed <- lift (pack_L (datalength w)) ;;
  file_write packed ;;;
  w <- get ;;
  put (set_headerwritten true w).

Definition ensure_header_written (datasize : Z) : M wave_write unit :=
  w <- get ;;
  if headerwritten w then ret tt
  else if nchannels w =? 0 then raise WaveError
  else if sampwidth w =? 0 then raise WaveError
  else if framerate w =? 0 then raise WaveError
  else write_header datasize.

(** [_patchheader]; its [assert self._headerwritten] holds at both call
    sites, which follow [_ensure_header_written]. *)
Definition patchheader : M wave_write unit :=
  w <- get ;;
  if datawritten w =? datalength w then ret tt
  else
    curpos <- file_tell ;;
    file_seek (form_length_pos w) ;;;
    packed <- lift (pack_L (36 + datawritten w)) ;;
    file_write packed ;;;
    file_seek (data_length_pos w) ;;;
    packed <- lift (pack_L (datawritten w)) ;;
    file_write packed ;;;
    file_seek curpos ;;;
    w <- get ;;
    put (set_datalength (datawritten w) w).

(** [writeframesraw(data)] for a [bytes] object, with no conversion and on
    a little-endian host (no byte swap). *)
Definition writeframesraw (data : list Z) : M wave_write unit :=
  ensure_header_written (len data) ;;;
  file_write data ;;;
  w <- get ;;
  put (set_datawritten (datawritten w + len data) w).

Definition writeframes (data : list Z) : M wave_write unit :=
  writeframesraw data ;;;
  w <- get ;;
  if datalength w =? datawritten w then ret tt else patchheader.

(** [close()], up to the flush. *)
Definition close : M wave_write unit :=
  ensure_header_written 0 ;;;
  w <- get ;;
  if datalength w =? datawritten w then ret tt else patchheader.

(** [with wave.open(path, 'wb') as f: body]: [__exit__] closes the writer
    whether the body returned or raised, and what [close] raises replaces
    what the body raised. *)
Definition with_open {A} (body : M wave_write A) : result A * wave_write :=
  let (r, w) := body wave_open in
  match close w with
  | (Ok _, w') => (r, w')
  | (Raise e, w') => (Raise e, w')
  end.

(** The sample data of a file: what follows the 44 bytes of the header. *)
Definition data (w : wave_write) : list Z := drop 44 (file w).

End Wave.

(** ** inject.py *)

Module Inject.

(** [DELIMITER = '#####'] *)
Definition DELIMITER : list Z := [35; 35; 35; 35; 35].

(** [text_to_binary]: the loop [binary += format(ord(char), '08b')]. *)
Definition text_to_binary (text : list Z) : list ascii :=
  foldl (fun binary char => binary ++ format_08b (ord char)) [] text.

(** What [wave.open(cover_file, 'rb')] reports of the cover:
    [getnchannels()], [getsampwidth()] and [getframerate()]. *)
Record wav_params : Type := WavParams {
  n_channels : Z;
  sample_width : Z;
  frame_rate : Z
}.

(** The store of [inject_payload]: the [bytearray] read from the cover
    file, and the sample data of the output file once it has been opened
    for writing (not yet). *)
Record world : Type := World {
  frames : list Z;
  output_file : option (list Z)
}.

(** [frames[i]] as an expression. *)
Definition frames_get (i : Z) : M world Z :=
  w <- get ;; lift (getitem (frames w) i).

(** [frames[i] = v]: a [bytearray] accepts only values in [range(256)]. *)
Definition frames_set (i v : Z) : M world unit :=
  w <- get ;;
  _ <- lift (getitem (frames w) i) ;;
  if (0 <=? v) && (v <? 256) then
    let pos := if 0 <=? i then i else len (frames w) + i in
    put (World (<[Z.to_nat pos := v]> (frames w)) (output_file w))
  else raise ValueError.

(** The body of the injection loop:
    [frames[i] = (frames[i] & 0xFE) | int(bit)]. *)
Definition inject_bit (i : Z) (bit : ascii) : M world unit :=
  b <- frames_get i ;;
  d <- lift (int_of_char bit) ;;
  frames_set i (Z.lor (Z.land b 254) d).

(** [for i, bit in enumerate(binary_message): ...] *)
Fixpoint inject_loop (todo : list (Z * ascii)) : M world unit :=
  match todo with
  | [] => ret tt
  | (i, bit) :: rest => inject_bit i bit ;;; inject_loop rest
  end.

(** The fields of the statistics dictionary that are counts, with the two
    operands of the distortion.  The two percentages are floats and are left
    out: [usage_percent] is [message_bits / capacity * 100], and the
    distortion is [bits_changed / total_bits * 100], or 0 when [total_bits]
    is 0.  So are the three paths and [file_size], which
    [os.path.getsize] reads back from the file system. *)
Record stats : Type := Stats {
  message_length : Z;
  bits_injected : Z;
  audio_capacity : Z;
  bits_changed : Z;
  total_bits : Z
}.

(** [inject_payload], from the secret text and what the reader gave for
    the cover, its parameters and its bytes: the store starts as
    [World cover None]. *)
Definition inject_payload (p : wav_params) (secret_message : list Z)
  : M world stats :=
  let secret_with_delimiter := secret_message ++ DELIMITER in
  let binary_message := text_to_binary secret_with_delimiter in
  let message_bits := len binary_message in
  w <- get ;;
  let capacity := len (frames w) in
  if message_bits >? capacity then
    raise (ValueError_MessageTooLarge message_bits capacity)
  else if capacity =? 0 then
    (* usage_percent = (message_bits / capacity) * 100 *)
    raise ZeroDivisionError
  else
    let original_bytes := take (Z.to_nat message_bits) (frames w) in
    inject_loop (enumerate binary_message) ;;;
    w' <- get ;;
    let modified_bytes := take (Z.to_nat message_bits) (frames w') in
    let bits_changed :=
      foldr Z.add 0
        (zip_with (fun a b => popcount (Z.lxor a b)) original_bytes modified_bytes) in
    let total_bits := len original_bytes * 8 in
    (* with wave.open(output_file, 'wb') as wav_out: ... *)
    let (written, out) :=
      Wave.with_open
        (Wave.setnchannels (n_channels p) ;;;
         Wave.setsampwidth (sample_width p) ;;;
         Wave.setframerate (frame_rate p) ;;;
         Wave.writeframes (frames w')) in
    put (World (frames w') (Some (Wave.data out))) ;;;
    lift written ;;;
    ret (Stats (len secret_message) message_bits capacity bits_changed total_bits).

(** Running the encoder on a cover: its parameters and its bytes. *)
Definition encode (p : wav_params) (cover : list Z) (secret : list Z)
  : result stats * world :=
  inject_payload p secret (World cover None).

End Inject.

(** ** extract.py *)

Module Extract.

(** [DELIMITER = '#####'] *)
Definition DELIMITER : list Z := [35; 35; 35; 35; 35].

(** [MAX_SEARCH_BYTES = 10000000] *)
Definition MAX_SEARCH_BYTES : Z := 10000000.

(** The decoder only reads its buffer.  Its store is the list of the
    subscripts at which [frames] has been read so far, oldest first; the
    Python code has no such variable, it is kept to state which bytes a run
    examines. *)
Definition frames_get (frames : list Z) (k : Z) : M (list Z) Z :=
  fun reads =>
    match getitem frames k with
    | Ok b => (Ok b, reads ++ [k])
    | Raise e => (Raise e, reads)
    end.

(** The inner loop
    [for j in range(chunk_size): if i + j < len(frames): byte_chunk += str(frames[i + j] & 1)]. *)
Fixpoint read_chunk (frames : list Z) (i : Z) (js : list Z) (byte_chunk : list ascii)
  : M (list Z) (list ascii) :=
  match js with
  | [] => ret byte_chunk
  | j :: js' =>
    if i + j <? len frames then
      b <- frames_get frames (i + j) ;;
      read_chunk frames i js' (byte_chunk ++ str_of_int (Z.land b 1))
    else read_chunk frames i js' byte_chunk
  end.

(** [32 <= char_code <= 126 or char_code in [9, 10, 13]] *)
Definition printable (char_code : Z) : bool :=
  (32 <=? char_code) && (char_code <=? 126)
  || (char_code =? 9) || (char_code =? 10) || (char_code =? 13).

(** [binary_to_text]: the loop over [range(0, len(binary), 8)]. *)
Fixpoint binary_to_text_loop (binary : list ascii) (idxs : list Z) (text : list Z)
  : result (list Z) :=
  match idxs with
  | [] => Ok text
  | i :: rest =>
    let byte := slice binary i (i + 8) in
    if len byte =? 8 then
      char_code <~ int_base2 byte ;;
      if printable char_code then
        c <~ chr char_code ;;
        binary_to_text_loop binary rest (text ++ [c])
      else binary_to_text_loop binary rest text
    else binary_to_text_loop binary rest text
  end.

Definition binary_to_text (binary : list ascii) : result (list Z) :=
  binary_to_text_loop binary (range 0 (len binary) 8) [].

(** The variables the outer loop updates. *)
Record locals : Type := Locals {
  extracted_text : list Z;
  delimiter_found : bool
}.

Inductive flow : Type := Next | Break.

(** One iteration of the outer loop, for the group that starts at [i]. *)
Definition scan_group (frames : list Z) (chunk_size : Z) (i : Z) (st : locals)
  : M (list Z) (flow * locals) :=
  byte_chunk <- read_chunk frames i (range 0 chunk_size 1) [] ;;
  if len byte_chunk =? 8 then
    char_code <- lift (int_base2 byte_chunk) ;;
    if printable char_code then
      c <- lift (chr char_code) ;;
      let extracted_text := extracted_text st ++ [c] in
      if endswith extracted_text DELIMITER then
        ret (Break, Locals (drop_last (length DELIMITER) extracted_text) true)
      else ret (Next, Locals extracted_text (delimiter_found st))
    else ret (Next, st)
  else ret (Next, st).

(** [for i in range(0, max_search, chunk_size): ...], left by [break]. *)
Fixpoint scan_loop (frames : list Z) (chunk_size : Z) (idxs : list Z) (st : locals)
  : M (list Z) locals :=
  match idxs with
  | [] => ret st
  | i :: rest =>
    r <- scan_group frames chunk_size i st ;;
    match r with
    | (Break, st') => ret st'
    | (Next, st') => scan_loop frames chunk_size rest st'
    end
  end.

(** The fields of the result dictionary that do not name files. *)
Record stats : Type := Stats {
  message_length : Z;
  stats_delimiter_found : bool;
  message : list Z
}.

(** [extract_payload], from the bytes already read from the stego file. *)
Definition extract_payload (frames : list Z) : M (list Z) stats :=
  let total_bytes := len frames in
  let chunk_size := 8 in
  let max_search := Z.min total_bytes MAX_SEARCH_BYTES in
  st <- scan_loop frames chunk_size (range 0 max_search chunk_size) (Locals [] false) ;;
  ret (Stats (len (extracted_text st)) (delimiter_found st) (extracted_text st)).

(** Running the decoder on a buffer: the result and the subscripts read. *)
Definition decode (stego : list Z) : result stats * list Z :=
  extract_payload stego [].

End Extract.

(** ** generate_tone.py *)

Module GenerateTone.

(** *** Python floats *)

Definition prec : Z := 53.
Definition emax : Z := 1024.

(** [float(n)] for an integer, as in [n * x] with [x] a float. *)
Definition float_of_int (n : Z) : result spec_float :=
  match binary_normalize prec emax n 0 false with
  | S754_infinity _ => Raise OverflowError
  | f => Ok f
  end.

(** [int(x)]: truncation towards zero. *)
Definition int_of_float (x : spec_float) : result Z :=
  match x with
  | S754_zero _ => Ok 0
  | S754_infinity _ => Raise OverflowError
  | S754_nan => Raise ValueError
  | S754_finite s m e =>
    Ok (cond_Zopp s (if 0 <=? e then Z.pos m * 2 ^ e else Z.pos m / 2 ^ (- e)))
  end.

Definition float_mul (x y : spec_float) : spec_float := SFmul prec emax x y.

(** [x / y] for floats. *)
Definition float_div (x y : spec_float) : result spec_float :=
  match y with
  | S754_zero _ => Raise ZeroDivisionError
  | _ => Ok (SFdiv prec emax x y)
  end.

(** [math.pi = 0x1.921fb54442d18p+1] *)
Definition math_pi : spec_float := S754_finite false 7074237752028440 (-51).

(** [struct.pack('<h', value)] *)
Definition pack_h (value : Z) : result (list Z) :=
  if (-32768 <=? value) && (value <=? 32767) then
    let u := value mod 65536 in Ok [u mod 256; u / 256]
  else Raise StructError.

(** *** generate_wav *)

Record stats : Type := Stats {
  samples : Z;
  file_size : Z;
  stego_capacity_bits : Z;
  stego_capacity_chars : Z
}.

Section Generator.

(** [math.sin] on the finite floats and NaN. *)
Variable libm_sin : spec_float -> spec_float.

(** [math.sin(x)]: an infinite argument is a domain error. *)
Definition math_sin (x : spec_float) : result spec_float :=
  match x with
  | S754_infinity _ => Raise ValueError
  | _ => Ok (libm_sin x)
  end.

(** [int(amplitude * math.sin(2 * math.pi * frequency * i / sample_rate))] *)
Definition sample_value (amplitude : Z) (frequency : spec_float)
    (i sample_rate : Z) : result Z :=
  two <~ float_of_int 2 ;;
  let t1 := float_mul two math_pi in
  let t2 := float_mul t1 frequency in
  fi <~ float_of_int i ;;
  let t3 := float_mul t2 fi in
  fr <~ float_of_int sample_rate ;;
  t4 <~ float_div t3 fr ;;
  s <~ math_sin t4 ;;
  fa <~ float_of_int amplitude ;;
  int_of_float (float_mul fa s).

(** [for i in range(samples_written, chunk_end): ... frames += struct.pack('<h', value)] *)
Fixpoint chunk_frames (amplitude : Z) (frequency : spec_float) (sample_rate : Z)
    (idxs : list Z) (frames : list Z) : result (list Z) :=
  match idxs with
  | [] => Ok frames
  | i :: rest =>
    value <~ sample_value amplitude frequency i sample_rate ;;
    packed <~ pack_h value ;;
    chunk_frames amplitude frequency sample_rate rest (frames ++ packed)
  end.

(** [while samples_written < num_samples: ...]; the answer is [false]
    when the fuel runs out before the loop ends. *)
Fixpoint write_chunks (fuel : nat) (amplitude : Z) (frequency : spec_float)
    (sample_rate num_samples chunk_size samples_written : Z)
  : M Wave.wave_write bool :=
  if samples_written <? num_samples then
    match fuel with
    | O => ret false
    | S fuel' =>
      let chunk_end := Z.min (samples_written + chunk_size) num_samples in
      frames <- lift (chunk_frames amplitude frequency sample_rate
                        (range samples_written chunk_end 1) []) ;;
      Wave.writeframes frames ;;;
      write_chunks fuel' amplitude frequency sample_rate num_samples
                   chunk_size chunk_end
    end
  else ret true.

(** [num_samples = int(sample_rate * duration)] *)
Definition num_samples_of (sample_rate : Z) (duration : spec_float) : result Z :=
  fr <~ float_of_int sample_rate ;;
  int_of_float (float_mul fr duration).

(** [generate_wav]; the store is the writer and its file, opened once
    [num_samples] is known and closed when the [with] block is left; when
    [int(...)] raises, no file has been opened and the store is the writer
    as [wave.open] would give it.  The answer is [None] only if the loop
    ran out of fuel, which [Z.to_nat num_samples] iterations exclude. *)
Definition generate_wav (duration frequency : spec_float)
    (sample_rate amplitude : Z) : result (option stats) * Wave.wave_write :=
  match num_samples_of sample_rate duration with
  | Raise e => (Raise e, Wave.wave_open)
  | Ok num_samples =>
    let chunk_size := 1000 in
    match
      Wave.with_open
        (Wave.setnchannels 1 ;;;
         Wave.setsampwidth 2 ;;;
         Wave.setframerate sample_rate ;;;
         write_chunks (Z.to_nat num_samples) amplitude frequency
           sample_rate num_samples chunk_size 0)
    with
    | (Raise e, w) => (Raise e, w)
    | (Ok finished, w) =>
      if finished : bool then
        let file_size := num_samples * 2 + 44 in
        let capacity_bits := num_samples * 2 in
        let capacity_chars := capacity_bits / 8 in
        (Ok (Some (Stats num_samples file_size capacity_bits capacity_chars)), w)
      else (Ok None, w)
    end
  end.

End Generator.

End GenerateTone.

(** * Definitions used to state the properties *)

(** The character [str(b & 1)] appends. *)
Definition lsb_char (b : Z) : ascii :=
  if Z.land b 1 =? 0 then ascii0 else ascii1.

(** [s[k : k + len(d)] == d] *)
Definition occurs_at (d s : list Z) (k : nat) : Prop :=
  take (length d) (drop k s) = d.

(** [s.find(d)]: the index of the first occurrence, if there is one. *)
Fixpoint find_sub (d s : list Z) : option nat :=
  if bool_decide (take (length d) s = d) then Some 0%nat
  else match s with
       | [] => None
       | _ :: s' => S <$> find_sub d s'
       end.


Module WaveSpec.
Import Wave.

(** The format chunk and the tag of the data chunk: the 32 bytes between
    the two length fields of the header. *)
Definition fmt_chunk (c s r : Z) : list Z :=
  WAVE ++ fmt_ ++ le_bytes 4 16 ++ le_bytes 2 WAVE_FORMAT_PCM ++
  le_bytes 2 c ++ le_bytes 4 r ++ le_bytes 4 (c * r * s) ++
  le_bytes 2 (c * s) ++ le_bytes 2 (s * 8) ++ data_tag.

(** A header with the length fields [a] and [b]. *)
Definition header_with (c s r a b : Z) : list Z :=
  RIFF ++ le_bytes 4 a ++ fmt_chunk c s r ++ le_bytes 4 b.

(** The 44 bytes of the header of a file of [n] bytes of sample data. *)
Definition riff_header (c s r n : Z) : list Z :=
  header_with c s r (36 + n) n.

(** The parameters the three setters take. *)
Definition params_ok (c s r : Z) : bool :=
  (1 <=? c) && (1 <=? s) && (s <=? 4) && (1 <=? r).

(** The header fields fit: 16 bits for the channel count and the block
    size, 32 bits for the rates and the lengths. *)
Definition header_ok (c s r n : Z) : bool :=
  (c <? 65536) && (r <? 4294967296) && (c * r * s <? 4294967296) &&
  (c * s <? 65536) && (36 + n <? 4294967296).

(** The writer once the three parameters are set. *)
Definition params (c s r : Z) : wave_write :=
  WaveWrite c s r 0 0 0 false 0 0 0 [].

(** The writer once the header and the data [d] are in the file. *)
Definition written (c s r nf : Z) (d : list Z) : wave_write :=
  WaveWrite c s r nf (len d) (len d) true 4 40 (44 + len d)
    (riff_header c s r (len d) ++ d).

(** The three parameters of a writer are [c], [s] and [r]. *)
Definition params_set (c s r : Z) (w : wave_write) : Prop :=
  nchannels w = c /\ sampwidth w = s /\ framerate w = r.

(** A writer between two calls that returned: nothing written yet, or the
    header and the data [d], with length fields that fit. *)
Definition clean (c s r : Z) (d : list Z) (w : wave_write) : Prop :=
  (d = [] /\ w = params c s r) \/
  (exists nf, w = written c s r nf d /\ 36 + len d < 4294967296).

End WaveSpec.

Module InjectSpec.

(** The value of a digit character, and the byte the loop body stores. *)
Definition bit_of (c : ascii) : Z := if Ascii.eqb c ascii1 then 1 else 0.
Definition is_bit (c : ascii) : Prop := c = ascii0 \/ c = ascii1.
Definition set_lsb (b : Z) (c : ascii) : Z := Z.lor (Z.land b 254) (bit_of c).

(** What the injection loop makes of a buffer: the first [length bits]
    bytes get their least significant bit replaced, the rest is kept. *)
Definition embed (bits : list ascii) (cover : list Z) : list Z :=
  zip_with (fun c b => set_lsb b c) bits cover ++ drop (length bits) cover.

(** The writer of the output file accepts the parameters of the cover and
    [n] bytes of sample data: the setters take the parameters and the
    header fields fit. *)
Definition writable (p : Inject.wav_params) (n : Z) : bool :=
  WaveSpec.params_ok (Inject.n_channels p) (Inject.sample_width p)
    (Inject.frame_rate p) &&
  WaveSpec.header_ok (Inject.n_channels p) (Inject.sample_width p)
    (Inject.frame_rate p) n.

End InjectSpec.

Module ExtractSpec.
Import Extract.

(** The number a group of bytes spells with its least significant bits,
    the first byte giving the most significant bit. *)
Definition group_value (g : list Z) : Z :=
  foldl (fun acc b => 2 * acc + Z.land b 1) 0 g.

(** The value of the group that starts at [i], when all of its 8 bytes
    exist. *)
Definition chunk_value (frames : list Z) (i : Z) : option Z :=
  let g := take 8 (drop (Z.to_nat i) frames) in
  if Nat.eqb (length g) 8 then Some (group_value g) else None.

(** What one iteration does to the loop variables, given the group value. *)
Definition scan_step (v : option Z) (st : locals) : flow * locals :=
  match v with
  | Some c =>
    if printable c then
      let text := extracted_text st ++ [c] in
      if endswith text DELIMITER then
        (Break, Locals (drop_last (length DELIMITER) text) true)
      else (Next, Locals text (delimiter_found st))
    else (Next, st)
  | None => (Next, st)
  end.

(** The outer loop on the list of group values: the variables it ends
    with, and how many groups it went through. *)
Fixpoint scan_values (vs : list (option Z)) (st : locals) : locals * nat :=
  match vs with
  | [] => (st, 0%nat)
  | v :: vs' =>
    match scan_step v st with
    | (Break, st') => (st', 1%nat)
    | (Next, st') => let (r, n) := scan_values vs' st' in (r, S n)
    end
  end.

(** The delimiter check on the accumulated text, one kept character at a
    time. *)
Fixpoint scan_text (cs : list Z) (st : locals) : locals :=
  match cs with
  | [] => st
  | c :: cs' =>
    let text := extracted_text st ++ [c] in
    if endswith text DELIMITER then
      Locals (drop_last (length DELIMITER) text) true
    else scan_text cs' (Locals text (delimiter_found st))
  end.

(** The buffer cut into groups of 8 consecutive bytes; a last group of
    fewer than 8 bytes is left out. *)
Fixpoint groups8 (l : list Z) : list (list Z) :=
  match l with
  | b0 :: b1 :: b2 :: b3 :: b4 :: b5 :: b6 :: b7 :: rest =>
    [b0; b1; b2; b3; b4; b5; b6; b7] :: groups8 rest
  | _ => []
  end.

(** The text a scan without early exit would accumulate: the values of the
    complete groups of the first [min(len(frames), MAX_SEARCH_BYTES)] bytes,
    those outside the alphabet left out.  It is what [binary_to_text] returns
    on the least significant bits of these bytes
    ([reconstructed_text_binary]). *)
Definition reconstructed_text (frames : list Z) : list Z :=
  let max_search := Z.min (len frames) MAX_SEARCH_BYTES in
  filter (fun c => printable c = true)
         (group_value <$> groups8 (take (Z.to_nat max_search) frames)).

(** The text before the first occurrence of the delimiter, and whether
    there is one. *)
Definition split_at_delimiter (text : list Z) : list Z * bool :=
  match find_sub DELIMITER text with
  | Some n => (take n text, true)
  | None => (text, false)
  end.

(** The payload alphabet: [32..126], tab, line feed, carriage return. *)
Definition in_alphabet (c : Z) : Prop :=
  32 <= c <= 126 \/ c = 9 \/ c = 10 \/ c = 13.

End ExtractSpec.

(** The frames the encoder leaves in memory, for a payload that fits. *)
Definition stego_of (p : Inject.wav_params) (cover payload : list Z) : list Z :=
  Inject.frames (snd (Inject.encode p cover payload)).


(** ** Definitions used to state the further properties *)

Module ExtraSpec.
Import InjectSpec.

(** A value a [bytes] or [bytearray] object can hold. *)
Definition is_byte (b : Z) : Prop := 0 <= b < 256.

(** Among the bytes the bitstream covers, the number of those whose least
    significant bit is not the bit written there. *)
Definition lsb_mismatches (bits : list ascii) (cover : list Z) : Z :=
  foldr Z.add 0
    (zip_with (fun c b => if Z.land b 1 =? bit_of c then 0 else 1) bits cover).

(** The least significant bit of each byte of a buffer. *)
Definition lsbs (l : list Z) : list Z := (fun b => Z.land b 1) <$> l.

(** The value of each group the outer loop of [extract_payload] goes
    through, one per index of [range(0, max_search, 8)]; [None] for a group
    that is not complete. *)
Definition scanned_groups (stego : list Z) : list (option Z) :=
  (fun k => ExtractSpec.chunk_value stego (8 * Z.of_nat k))
    <$> seq 0 (Z.to_nat ((Z.min (len stego) Extract.MAX_SEARCH_BYTES + 7) / 8)).

End ExtraSpec.

Example format_08b_H : format_08b 72 = list_ascii_of_string "01001000".
Proof. reflexivity. Qed.

Example format_08b_wide : format_08b 256 = list_ascii_of_string "100000000".
Proof. reflexivity. Qed.

Example str_of_int_1 : str_of_int 1 = [ascii1] ∧ str_of_int 0 = [ascii0].
Proof. split; reflexivity. Qed.

Example range_ex : range 0 20 8 = [0; 8; 16].
Proof. reflexivity. Qed.

Example encode_HI :
  Inject.encode (Inject.WavParams 1 2 44100) (replicate 60 0) [72; 73]
  = (Ok (Inject.Stats 2 56 60 20 448),
     let out := [0;1;0;0;1;0;0;0; 0;1;0;0;1;0;0;1;
                 0;0;1;0;0;0;1;1; 0;0;1;0;0;0;1;1; 0;0;1;0;0;0;1;1;
                 0;0;1;0;0;0;1;1; 0;0;1;0;0;0;1;1; 0;0;0;0] in
     Inject.World out (Some out)).
Proof. vm_compute. reflexivity. Qed.

Example decode_HI :
  Extract.decode
    (Inject.frames
       (snd (Inject.encode (Inject.WavParams 1 2 44100) (replicate 60 0) [72; 73])))
  = (Ok (Extract.Stats 2 true [72; 73]), seqZ 0 56).
Proof. vm_compute. reflexivity. Qed.

(** The writer on a file of three 16-bit mono frames at 44100 Hz, and on
    seven bytes of 24-bit stereo at 8000 Hz, where the length fields are
    patched after the data. *)
Example wave_file_mono16 :
  Wave.with_open
    (Wave.setnchannels 1 ;;; Wave.setsampwidth 2 ;;; Wave.setframerate 44100 ;;;
     Wave.writeframes [1; 2; 3; 4; 5; 6])
  = (Ok tt,
     Wave.WaveWrite 1 2 44100 3 6 6 true 4 40 50
       [82; 73; 70; 70; 42; 0; 0; 0; 87; 65; 86; 69; 102; 109; 116; 32;
        16; 0; 0; 0; 1; 0; 1; 0; 68; 172; 0; 0; 136; 88; 1; 0; 2; 0; 16; 0;
        100; 97; 116; 97; 6; 0; 0; 0; 1; 2; 3; 4; 5; 6]).
Proof. vm_compute. reflexivity. Qed.

Example wave_file_patched :
  Wave.file (snd (Wave.with_open
    (Wave.setnchannels 2 ;;; Wave.setsampwidth 3 ;;; Wave.setframerate 8000 ;;;
     Wave.writeframes [1; 2; 3; 4; 5; 6; 7])))
  = [82; 73; 70; 70; 43; 0; 0; 0; 87; 65; 86; 69; 102; 109; 116; 32;
     16; 0; 0; 0; 1; 0; 2; 0; 64; 31; 0; 0; 128; 187; 0; 0; 6; 0; 24; 0;
     100; 97; 116; 97; 7; 0; 0; 0; 1; 2; 3; 4; 5; 6; 7].
Proof. vm_compute. reflexivity. Qed.

(** A frame rate of [2**31] does not fit the byte rate field of a 16-bit
    mono header, a sample width of 5 is refused by its setter. *)
Example wave_file_big_rate :
  let (r, w) := Wave.with_open
    (Wave.setnchannels 1 ;;; Wave.setsampwidth 2 ;;;
     Wave.setframerate 2147483648 ;;; Wave.writeframes [0; 0]) in
  (r, Wave.file w) = (Raise StructError, Wave.RIFF ++ Wave.RIFF).
Proof. vm_compute. reflexivity. Qed.

Example wave_file_bad_width :
  let (r, w) := Wave.with_open
    (Wave.setnchannels 1 ;;; Wave.setsampwidth 5 ;;;
     Wave.setframerate 8000 ;;; Wave.writeframes [1]) in
  (r, Wave.file w) = (Raise WaveError, []).
Proof. vm_compute. reflexivity. Qed.

Example decode_partial :
  Extract.decode [0;1;0;0;1;0;0;0; 0;0;0;0;0;0;0;0; 0;1;0;0;1;0;0;1; 0;1;1]
  = (Ok (Extract.Stats 2 false [72; 73]), seqZ 0 27).
Proof. vm_compute. reflexivity. Qed.

(** * Properties *)

(** ** The monad and the Python primitives *)

Lemma len_app {A} (l1 l2 : list A) : len (l1 ++ l2) = len l1 + len l2.
Proof. unfold len. rewrite length_app. lia. Qed.

Lemma len_nonneg {A} (l : list A) : 0 <= len l.
Proof. unfold len. lia. Qed.

Lemma getitem_lookup {A} (l : list A) (k : Z) (x : A) :
  0 <= k -> l !! Z.to_nat k = Some x -> getitem l k = Ok x.
Proof.
  intros Hk Hx. unfold getitem.
  assert (Z.to_nat k < length l)%nat by (eapply lookup_lt_Some; eauto).
  assert (E1 : (0 <=? k) = true) by (apply Z.leb_le; lia).
  assert (E2 : (k <? len l) = true) by (apply Z.ltb_lt; unfold len; lia).
  cbv zeta. rewrite !E1, E2. simpl. now rewrite Hx.
Qed.

Lemma getitem_app_r {A} (pre l : list A) (j : Z) (x : A) :
  0 <= j -> l !! Z.to_nat j = Some x -> getitem (pre ++ l) (len pre + j) = Ok x.
Proof.
  intros Hj Hx. apply getitem_lookup; [unfold len; lia|].
  rewrite lookup_app_r by (unfold len; lia).
  replace (Z.to_nat (len pre + j) - length pre)%nat with (Z.to_nat j)
    by (unfold len; lia).
  exact Hx.
Qed.

Lemma ceil8_bounds (x : Z) : 8 * ((x + 7) / 8) <= x + 7 < 8 * ((x + 7) / 8) + 8.
Proof.
  pose proof (Z.div_mod (x + 7) 8). pose proof (Z.mod_pos_bound (x + 7) 8). lia.
Qed.

Lemma land_1_cases (b : Z) : Z.land b 1 = 0 \/ Z.land b 1 = 1.
Proof.
  assert (E : Z.land b 1 = b mod 2)
    by (change 1 with (Z.ones 1); now rewrite Z.land_ones by lia).
  rewrite E. pose proof (Z.mod_pos_bound b 2). lia.
Qed.

Lemma lsb_char_cases (b : Z) :
  lsb_char b = ascii0 /\ Z.land b 1 = 0 \/ lsb_char b = ascii1 /\ Z.land b 1 = 1.
Proof.
  unfold lsb_char. destruct (land_1_cases b) as [E | E]; rewrite E; auto.
Qed.

Lemma str_of_int_lsb (b : Z) : str_of_int (Z.land b 1) = [lsb_char b].
Proof.
  unfold lsb_char. destruct (land_1_cases b) as [-> | ->]; reflexivity.
Qed.

(** ** Occurrences of one text in another *)

Lemma find_sub_Some d s : forall n,
  find_sub d s = Some n <->
  occurs_at d s n /\ forall k, (k < n)%nat -> ~ occurs_at d s k.
Proof.
  induction s as [|x s IH]; intros n; cbn [find_sub]; case_bool_decide as H0.
  - split.
    + intros [= <-]. split; [exact H0 | intros k Hk; lia].
    + intros [_ Hn]. destruct n as [|n]; [reflexivity|].
      exfalso. apply (Hn 0%nat); [lia | exact H0].
  - split; [discriminate|]. intros [Hn _]. exfalso. apply H0.
    unfold occurs_at in Hn. now rewrite drop_nil in Hn.
  - split.
    + intros [= <-]. split; [exact H0 | intros k Hk; lia].
    + intros [_ Hn]. destruct n as [|n]; [reflexivity|].
      exfalso. apply (Hn 0%nat); [lia | exact H0].
  - destruct n as [|n].
    + split.
      * destruct (find_sub d s); discriminate.
      * intros [Hn _]. exfalso. apply H0. exact Hn.
    + specialize (IH n). split.
      * intros Hf. destruct (find_sub d s) as [m|] eqn:E; [|discriminate].
        cbn in Hf. injection Hf as ->.
        destruct IH as [[Hn Hlt] _]; [reflexivity|].
        split; [exact Hn|]. intros [|k] Hk; [exact H0|].
        apply Hlt. lia.
      * intros [Hn Hlt]. destruct IH as [_ ->]; [reflexivity|].
        split; [exact Hn|]. intros k Hk. apply (Hlt (S k)). lia.
Qed.

Lemma find_sub_None d s :
  find_sub d s = None <-> forall k, ~ occurs_at d s k.
Proof.
  induction s as [|x s IH]; cbn [find_sub]; case_bool_decide as H0.
  - split; [discriminate|]. intros H. exfalso. apply (H 0%nat). exact H0.
  - split; [|intros; reflexivity]. intros _ k Hk. apply H0.
    unfold occurs_at in Hk. now rewrite drop_nil in Hk.
  - split; [discriminate|]. intros H. exfalso. apply (H 0%nat). exact H0.
  - split.
    + intros Hf [|k]; [exact H0|].
      destruct (find_sub d s); [discriminate|].
      apply (proj1 IH eq_refl k).
    + intros H. destruct IH as [_ ->]; [reflexivity|].
      intros k. apply (H (S k)).
Qed.

Lemma occurs_at_length d s k :
  occurs_at d s k -> (d = [] \/ k + length d <= length s)%nat.
Proof.
  unfold occurs_at. intros H. apply (f_equal length) in H.
  rewrite length_take, length_drop in H. destruct d; [now left|right].
  cbn [length] in *. lia.
Qed.

(** An occurrence that lies inside [s] is an occurrence in [s ++ r]. *)
Lemma occurs_at_app d s r k :
  (k + length d <= length s)%nat ->
  occurs_at d (s ++ r) k <-> occurs_at d s k.
Proof.
  intros H. unfold occurs_at.
  rewrite drop_app_le by lia. rewrite take_app_le; [reflexivity|].
  rewrite length_drop. lia.
Qed.

Lemma find_sub_app d s r n :
  d <> [] -> find_sub d s = Some n -> find_sub d (s ++ r) = Some n.
Proof.
  intros Hd H. apply find_sub_Some in H as [Hn Hlt]. apply find_sub_Some.
  destruct (occurs_at_length _ _ _ Hn) as [? | Hl]; [congruence|].
  split.
  - apply occurs_at_app; [lia | exact Hn].
  - intros k Hk Hocc. apply (Hlt k Hk).
    apply occurs_at_app in Hocc; [exact Hocc | lia].
Qed.

Lemma suffix_occurs_at d t :
  d `suffix_of` t -> occurs_at d t (length t - length d).
Proof.
  intros [k ->]. unfold occurs_at. rewrite length_app.
  replace (length k + length d - length d)%nat with (length k) by lia.
  rewrite drop_app_length. now rewrite take_ge.
Qed.

Lemma occurs_at_suffix d t k :
  occurs_at d t k -> (k + length d = length t)%nat -> d `suffix_of` t.
Proof.
  unfold occurs_at. intros H Hl. rewrite take_ge in H.
  - rewrite <- H. apply suffix_drop.
  - rewrite length_drop. lia.
Qed.

(** ** The writer of the [wave] module *)

Module WaveFacts.
Import Wave WaveSpec.

Ltac wave_fields :=
  cbn [nchannels sampwidth framerate nframes datawritten datalength
       headerwritten form_length_pos data_length_pos pos file
       set_nchannels set_sampwidth set_framerate set_nframes set_datawritten
       set_datalength set_headerwritten set_form_length_pos
       set_data_length_pos set_pos set_file].

Ltac wave_run_io :=
  cbv beta iota zeta delta
    [bind get put file_write pos file set_pos set_file nchannels sampwidth
     framerate nframes datawritten datalength headerwritten form_length_pos
     data_length_pos].

Ltac wave_run :=
  cbv beta iota zeta delta
    [bind get put ret lift raise file_tell file_seek
     setnchannels setsampwidth setframerate write_header
     ensure_header_written patchheader writeframesraw writeframes close
     nchannels sampwidth framerate nframes datawritten datalength
     headerwritten form_length_pos data_length_pos pos file
     set_nchannels set_sampwidth set_framerate set_nframes set_datawritten
     set_datalength set_headerwritten set_form_length_pos
     set_data_length_pos set_pos set_file params written wave_open].

(** Decide the comparisons of the goal that the hypotheses settle. *)
Ltac settle :=
  repeat match goal with
  | |- context [?a <? ?b] =>
    first [ replace (a <? b) with true by (symmetry; apply Z.ltb_lt; lia)
          | replace (a <? b) with false by (symmetry; apply Z.ltb_ge; lia) ]
  | |- context [?a <=? ?b] =>
    first [ replace (a <=? b) with true by (symmetry; apply Z.leb_le; lia)
          | replace (a <=? b) with false by (symmetry; apply Z.leb_gt; lia) ]
  | |- context [?a =? ?b] =>
    first [ replace (a =? b) with true by (symmetry; apply Z.eqb_eq; lia)
          | replace (a =? b) with false by (symmetry; apply Z.eqb_neq; lia) ]
  end;
  cbn [andb orb negb bind_result].

Lemma le_bytes_length n x : length (le_bytes n x) = n.
Proof. unfold le_bytes. now rewrite length_fmap, length_seq. Qed.

Ltac len_solve :=
  unfold len;
  repeat first [ rewrite length_app | rewrite le_bytes_length ];
  change (length RIFF) with 4%nat; change (length WAVE) with 4%nat;
  change (length fmt_) with 4%nat; change (length data_tag) with 4%nat;
  cbn [length]; lia.

Lemma params_ok_inv c s r :
  params_ok c s r = true -> 1 <= c /\ 1 <= s <= 4 /\ 1 <= r.
Proof.
  unfold params_ok. rewrite !andb_true_iff, !Z.leb_le. lia.
Qed.

Lemma header_ok_inv c s r n :
  header_ok c s r n = true ->
  c < 65536 /\ r < 4294967296 /\ c * r * s < 4294967296 /\ c * s < 65536 /\
  36 + n < 4294967296.
Proof.
  unfold header_ok. rewrite !andb_true_iff, !Z.ltb_lt. lia.
Qed.

Lemma header_ok_false c s r n :
  header_ok c s r n = false ->
  65536 <= c \/ 4294967296 <= r \/ 4294967296 <= c * r * s \/ 65536 <= c * s \/
  4294967296 <= 36 + n.
Proof.
  unfold header_ok. rewrite !andb_false_iff, !Z.ltb_ge. lia.
Qed.

Lemma mul_pos_bounds c s : 1 <= c -> 1 <= s -> 1 <= c * s.
Proof. nia. Qed.

(** The header packs exactly when its fields fit. *)
Lemma pack_header_spec c s r n :
  params_ok c s r = true -> 0 <= n ->
  pack_header (36 + n) c r (c * r * s) (c * s) (s * 8)
  = if header_ok c s r n
    then Ok (le_bytes 4 (36 + n) ++ fmt_chunk c s r)
    else Raise StructError.
Proof.
  intros Hp Hn. apply params_ok_inv in Hp as (Hc & Hs & Hr).
  pose proof (mul_pos_bounds c s Hc ltac:(lia)) as Hcs.
  assert (Hcrs : 1 <= c * r * s) by nia.
  unfold pack_header, pack_L, pack_H, WAVE_FORMAT_PCM.
  destruct (header_ok c s r n) eqn:Hh.
  - apply header_ok_inv in Hh. settle. reflexivity.
  - apply header_ok_false in Hh.
    destruct (Z_lt_le_dec (36 + n) 4294967296); [|settle; reflexivity].
    destruct (Z_lt_le_dec c 65536); [|settle; reflexivity].
    destruct (Z_lt_le_dec r 4294967296); [|settle; reflexivity].
    destruct (Z_lt_le_dec (c * r * s) 4294967296); [|settle; reflexivity].
    destruct (Z_lt_le_dec (c * s) 65536); [|settle; reflexivity].
    lia.
Qed.

Lemma fmt_chunk_length c s r : len (fmt_chunk c s r) = 32.
Proof. unfold fmt_chunk. len_solve. Qed.

Lemma header_with_length c s r a b : len (header_with c s r a b) = 44.
Proof. unfold header_with, fmt_chunk. len_solve. Qed.

(** Writing at the end of the file appends. *)
Lemma file_write_end bs c s r nf dw dl hw flp dlp p f :
  p = len f ->
  file_write bs (WaveWrite c s r nf dw dl hw flp dlp p f)
  = (Ok tt, WaveWrite c s r nf dw dl hw flp dlp (p + len bs) (f ++ bs)).
Proof.
  intros ->. wave_run_io.
  replace (Z.to_nat (len f)) with (length f) by (unfold len; lia).
  rewrite take_ge, drop_ge by lia. now rewrite app_nil_r.
Qed.

(** Writing inside the file replaces as many bytes as are written. *)
Lemma file_write_over bs pre old post c s r nf dw dl hw flp dlp p :
  p = len pre -> length old = length bs ->
  file_write bs (WaveWrite c s r nf dw dl hw flp dlp p (pre ++ old ++ post))
  = (Ok tt, WaveWrite c s r nf dw dl hw flp dlp (p + len bs)
              (pre ++ bs ++ post)).
Proof.
  intros -> Hl. wave_run_io.
  replace (Z.to_nat (len pre)) with (length pre) by (unfold len; lia).
  rewrite take_app_length.
  rewrite <- Hl, <- drop_drop, drop_app_length, drop_app_length.
  reflexivity.
Qed.

Lemma write_form_length a' c s r a b d nf dw dl hw flp dlp :
  file_write (le_bytes 4 a')
    (WaveWrite c s r nf dw dl hw flp dlp 4 (header_with c s r a b ++ d))
  = (Ok tt, WaveWrite c s r nf dw dl hw flp dlp 8
              (header_with c s r a' b ++ d)).
Proof.
  unfold header_with. rewrite <- !app_assoc.
  rewrite (file_write_over (le_bytes 4 a') RIFF (le_bytes 4 a));
    [reflexivity | reflexivity | now rewrite !le_bytes_length].
Qed.

Lemma write_data_length b' c s r a b d nf dw dl hw flp dlp :
  file_write (le_bytes 4 b')
    (WaveWrite c s r nf dw dl hw flp dlp 40 (header_with c s r a b ++ d))
  = (Ok tt, WaveWrite c s r nf dw dl hw flp dlp 44
              (header_with c s r a b' ++ d)).
Proof.
  unfold header_with.
  replace ((RIFF ++ le_bytes 4 a ++ fmt_chunk c s r ++ le_bytes 4 b) ++ d)
    with ((RIFF ++ le_bytes 4 a ++ fmt_chunk c s r) ++ le_bytes 4 b ++ d)
    by now rewrite <- !app_assoc.
  rewrite (file_write_over (le_bytes 4 b') _ (le_bytes 4 b)).
  - rewrite <- ?app_assoc. reflexivity.
  - unfold fmt_chunk. len_solve.
  - now rewrite !le_bytes_length.
Qed.

(** [_write_header] on a writer whose parameters are set. *)
Lemma write_header_fresh c s r n :
  params_ok c s r = true -> 0 <= n ->
  write_header n (params c s r)
  = let dl := n / (c * s) * c * s in
    if header_ok c s r dl
    then (Ok tt, WaveWrite c s r (n / (c * s)) 0 dl true 4 40 44
                   (header_with c s r (36 + dl) dl))
    else (Raise StructError,
          WaveWrite c s r (n / (c * s)) 0 dl false 4 0 4 RIFF).
Proof.
  intros Hp Hn. pose proof (params_ok_inv _ _ _ Hp) as (Hc & Hs & Hr).
  pose proof (mul_pos_bounds c s Hc ltac:(lia)) as Hcs.
  assert (Hq : 0 <= n / (c * s)) by (apply Z.div_pos; lia).
  assert (Hdl : 0 <= n / (c * s) * c * s) by nia.
  cbv zeta. wave_run.
  rewrite (file_write_end RIFF _ _ _ _ _ _ _ _ _ 0 []) by reflexivity.
  wave_run. settle.
  rewrite pack_header_spec by assumption.
  destruct (header_ok c s r (n / (c * s) * c * s)) eqn:Hh; [|reflexivity].
  apply header_ok_inv in Hh.
  rewrite file_write_end by reflexivity.
  wave_run. unfold pack_L. settle.
  rewrite file_write_end by len_solve.
  wave_run. unfold header_with. rewrite <- !app_assoc. cbn [app].
  do 2 f_equal; len_solve.
Qed.

Lemma div_mul_le n q : 0 <= n -> 1 <= q -> 0 <= n / q * q <= n.
Proof.
  intros Hn Hq. pose proof (Z.div_mod n q ltac:(lia)).
  pose proof (Z.mod_pos_bound n q ltac:(lia)).
  pose proof (Z.div_pos n q Hn ltac:(lia)). nia.
Qed.

Lemma frames_length_bounds c s n :
  1 <= c -> 1 <= s -> 0 <= n -> 0 <= n / (c * s) * c * s <= n.
Proof.
  intros Hc Hs Hn. pose proof (mul_pos_bounds c s Hc Hs).
  pose proof (div_mul_le n (c * s) Hn ltac:(lia)). nia.
Qed.

Lemma header_ok_le c s r n m :
  m <= n -> header_ok c s r n = true -> header_ok c s r m = true.
Proof.
  intros Hm H. apply header_ok_inv in H. unfold header_ok.
  rewrite !andb_true_iff, !Z.ltb_lt. lia.
Qed.

(** [writeframes] as the first write of a writer whose parameters are set,
    when the header fields fit. *)
Lemma writeframes_fresh c s r bs :
  params_ok c s r = true -> header_ok c s r (len bs) = true ->
  writeframes bs (params c s r)
  = (Ok tt, written c s r (len bs / (c * s)) bs).
Proof.
  intros Hp Hh. pose proof (params_ok_inv _ _ _ Hp) as (Hc & Hs & Hr).
  pose proof (len_nonneg bs) as Hn.
  pose proof (frames_length_bounds c s (len bs) Hc ltac:(lia) Hn) as Hdl.
  pose proof (header_ok_inv _ _ _ _ Hh) as Hfit.
  pose proof (write_header_fresh c s r (len bs) Hp Hn) as Hw. cbv zeta in Hw.
  rewrite (header_ok_le _ _ _ _ _ (proj2 Hdl) Hh) in Hw.
  unfold writeframes, writeframesraw, ensure_header_written.
  unfold bind at 1 2 3, get at 1. unfold params at 1 2 3 4.
  cbn [headerwritten nchannels sampwidth framerate]. settle.
  rewrite Hw. wave_run.
  rewrite file_write_end by (now rewrite header_with_length).
  wave_run.
  destruct (Z.eqb_spec (len bs / (c * s) * c * s) (0 + len bs)) as [He | Hne].
  - rewrite He, !Z.add_0_l. reflexivity.
  - settle. wave_run. unfold pack_L. settle.
    rewrite write_form_length. wave_run. settle.
    rewrite write_data_length. wave_run.
    rewrite !Z.add_0_l. reflexivity.
Qed.

(** The first write raises [struct.error] when a header field does not
    fit, and leaves the parameters as they are. *)
Lemma writeframes_fresh_raises c s r bs :
  params_ok c s r = true -> header_ok c s r (len bs) = false ->
  exists w',
    writeframes bs (params c s r) = (Raise StructError, w') /\
    nchannels w' = c /\ sampwidth w' = s /\ framerate w' = r.
Proof.
  intros Hp Hh. pose proof (params_ok_inv _ _ _ Hp) as (Hc & Hs & Hr).
  pose proof (len_nonneg bs) as Hn.
  pose proof (frames_length_bounds c s (len bs) Hc ltac:(lia) Hn) as Hdl.
  pose proof (write_header_fresh c s r (len bs) Hp Hn) as Hw. cbv zeta in Hw.
  unfold writeframes, writeframesraw, ensure_header_written.
  unfold bind at 1 2 3, get at 1. unfold params at 1 2 3 4.
  cbn [headerwritten nchannels sampwidth framerate]. settle.
  rewrite Hw.
  destruct (header_ok c s r (len bs / (c * s) * c * s)) eqn:Hh'.
  - pose proof (header_ok_inv _ _ _ _ Hh') as Hfit.
    assert (Hbig : 4294967296 <= 36 + len bs).
    { apply header_ok_false in Hh. lia. }
    wave_run.
    rewrite file_write_end by (now rewrite header_with_length).
    wave_run. settle. wave_run. unfold pack_L. settle.
    eexists. split; [reflexivity|]. wave_fields. auto.
  - wave_run. eexists. split; [reflexivity|]. wave_fields. auto.
Qed.

(** A later write: the data is appended and the two length fields of the
    header are patched. *)
Lemma writeframes_more c s r nf d bs :
  36 + len (d ++ bs) < 4294967296 ->
  writeframes bs (written c s r nf d) = (Ok tt, written c s r nf (d ++ bs)).
Proof.
  intros Hfit. rewrite len_app in Hfit.
  pose proof (len_nonneg d). pose proof (len_nonneg bs).
  unfold writeframes, writeframesraw, ensure_header_written.
  unfold bind at 1 2 3, get at 1. unfold written at 1 2.
  cbn [headerwritten]. wave_run.
  rewrite file_write_end
    by (rewrite len_app; unfold riff_header; rewrite header_with_length;
        reflexivity).
  wave_run. rewrite <- app_assoc.
  destruct (Z.eqb_spec (len d) (len d + len bs)) as [He | Hne].
  - assert (Hz : len bs = 0) by lia.
    rewrite !len_app, Hz, !Z.add_0_r. reflexivity.
  - settle. wave_run. unfold pack_L. settle.
    unfold riff_header. rewrite write_form_length. wave_run. settle.
    rewrite write_data_length. wave_run.
    rewrite !len_app.
    replace (44 + (len d + len bs)) with (44 + len d + len bs) by lia.
    reflexivity.
Qed.

Lemma writeframes_more_raises c s r nf d bs :
  4294967296 <= 36 + len (d ++ bs) -> 0 < len bs ->
  exists w',
    writeframes bs (written c s r nf d) = (Raise StructError, w') /\
    nchannels w' = c /\ sampwidth w' = s /\ framerate w' = r /\
    headerwritten w' = true /\ datawritten w' <> datalength w' /\
    4294967296 <= 36 + datawritten w'.
Proof.
  intros Hbig Hbs. rewrite len_app in Hbig.
  pose proof (len_nonneg d).
  unfold writeframes, writeframesraw, ensure_header_written.
  unfold bind at 1 2 3, get at 1. unfold written at 1 2.
  cbn [headerwritten]. wave_run.
  rewrite file_write_end
    by (rewrite len_app; unfold riff_header; rewrite header_with_length;
        reflexivity).
  wave_run. settle. wave_run. unfold pack_L. settle.
  eexists. split; [reflexivity|]. wave_fields. repeat split; lia.
Qed.

(** [close] on a writer that has written its header and data. *)
Lemma close_written c s r nf d :
  close (written c s r nf d) = (Ok tt, written c s r nf d).
Proof. wave_run. settle. reflexivity. Qed.

(** [close] on a writer that has written nothing: the header of an empty
    file is written now. *)
Lemma close_params c s r :
  params_ok c s r = true ->
  close (params c s r)
  = if header_ok c s r 0
    then (Ok tt, written c s r 0 [])
    else (Raise StructError, WaveWrite c s r 0 0 0 false 4 0 4 RIFF).
Proof.
  intros Hp. pose proof (params_ok_inv _ _ _ Hp) as (Hc & Hs & Hr).
  pose proof (write_header_fresh c s r 0 Hp ltac:(lia)) as Hw.
  cbv zeta in Hw. rewrite Z.div_0_l in Hw by nia.
  change (0 * c * s) with 0 in Hw.
  unfold close, ensure_header_written.
  unfold bind at 1 2, get at 1. unfold params at 1 2 3 4.
  cbn [headerwritten nchannels sampwidth framerate]. settle.
  rewrite Hw. destruct (header_ok c s r 0); [|reflexivity].
  wave_run. settle. unfold riff_header, header_with.
  change (len []) with 0. rewrite app_nil_r. reflexivity.
Qed.

(** [close] after a write that raised in [_patchheader]: it raises there
    again. *)
Lemma close_unpatched w :
  headerwritten w = true -> datawritten w <> datalength w ->
  4294967296 <= 36 + datawritten w ->
  close w = (Raise StructError, set_pos (form_length_pos w) w).
Proof.
  intros Hh Hne Hbig. destruct w. wave_fields. cbn in Hh, Hne, Hbig. subst.
  wave_run. settle. unfold pack_L. settle. reflexivity.
Qed.

(** Whatever the writer holds, [close] with the three parameters set
    returns or raises [struct.error]. *)
Lemma close_outcome w :
  1 <= nchannels w -> 1 <= sampwidth w -> 1 <= framerate w ->
  exists w', close w = (Ok tt, w') \/ close w = (Raise StructError, w').
Proof.
  intros Hc Hs Hr. destruct w as [c s r nf dw dl hw flp dlp p f].
  cbn in Hc, Hs, Hr. pose proof (mul_pos_bounds c s Hc Hs).
  wave_run. cbv beta iota zeta delta [file_write bind get put pos file set_pos set_file
    nchannels sampwidth framerate nframes datawritten datalength
    headerwritten form_length_pos data_length_pos].
  unfold pack_header, pack_L, pack_H.
  repeat (cbn [bind_result];
          match goal with
          | |- context [if ?b then _ else _] => destruct b eqn:?
          end);
    cbn [bind_result]; eauto; exfalso;
    repeat match goal with
    | H : (_ =? _) = true |- _ => apply Z.eqb_eq in H
    end; lia.
Qed.

Lemma clean_params_set c s r d w : clean c s r d w -> params_set c s r w.
Proof. intros [[_ ->] | (nf & -> & _)]; repeat split. Qed.

Lemma data_written c s r nf d : data (written c s r nf d) = d.
Proof.
  unfold data, written. cbn [file].
  pose proof (header_with_length c s r (36 + len d) (len d)) as Hl.
  unfold riff_header.
  replace 44%nat with (length (header_with c s r (36 + len d) (len d)))
    by (apply Nat2Z.inj; exact Hl).
  apply drop_app_length.
Qed.

(** A write on a clean writer: it returns and leaves a clean writer when
    the new length fits, and raises [struct.error] when it does not. *)
Lemma writeframes_clean c s r d w bs :
  params_ok c s r = true -> header_ok c s r 0 = true -> clean c s r d w ->
  (36 + len (d ++ bs) < 4294967296 ->
   exists w', writeframes bs w = (Ok tt, w') /\ clean c s r (d ++ bs) w') /\
  (4294967296 <= 36 + len (d ++ bs) -> 0 < len bs ->
   exists w', writeframes bs w = (Raise StructError, w') /\ params_set c s r w').
Proof.
  intros Hp Hh0 Hclean. pose proof (header_ok_inv _ _ _ _ Hh0) as Hfit0.
  destruct Hclean as [[-> ->] | (nf & -> & Hd)]; cbn [app]; split.
  - intros Hfit. eexists. split.
    + apply writeframes_fresh; [assumption|].
      unfold header_ok. rewrite !andb_true_iff, !Z.ltb_lt. lia.
    + right. eexists. split; [reflexivity | assumption].
  - intros Hbig _.
    destruct (writeframes_fresh_raises c s r bs Hp) as (w' & Hw & Hps).
    { unfold header_ok. rewrite !andb_false_iff, !Z.ltb_ge. lia. }
    exists w'. split; [exact Hw | exact Hps].
  - intros Hfit. eexists. split; [now apply writeframes_more|].
    right. eexists. split; [reflexivity | assumption].
  - intros Hbig Hbs.
    destruct (writeframes_more_raises c s r nf d bs Hbig Hbs)
      as (w' & Hw & Hc & Hs & Hr & _).
    exists w'. split; [exact Hw | repeat split; assumption].
Qed.

(** [close] on a clean writer returns, and the file then holds the header
    and the data. *)
Lemma close_clean c s r d w :
  params_ok c s r = true -> header_ok c s r 0 = true -> clean c s r d w ->
  exists nf, close w = (Ok tt, written c s r nf d).
Proof.
  intros Hp Hh0 [[-> ->] | (nf & -> & Hd)].
  - exists 0. rewrite close_params by assumption. now rewrite Hh0.
  - exists nf. apply close_written.
Qed.

(** The three setters on a new writer. *)
Lemma setters_run {A} c s r (k : M wave_write A) :
  params_ok c s r = true ->
  (setnchannels c ;;; setsampwidth s ;;; setframerate r ;;; k) wave_open
  = k (params c s r).
Proof.
  intros Hp. apply params_ok_inv in Hp as (Hc & Hs & Hr).
  wave_run. settle. reflexivity.
Qed.

(** When a setter refuses its parameter, [close] refuses to write the
    header: the [with] block raises [wave.Error] and the file is empty. *)
Lemma setters_rejected {A} c s r (k : M wave_write A) :
  params_ok c s r = false ->
  exists w',
    with_open (setnchannels c ;;; setsampwidth s ;;; setframerate r ;;; k)
    = (Raise WaveError, w') /\ file w' = [].
Proof.
  intros Hp. unfold params_ok in Hp. rewrite !andb_false_iff, !Z.leb_gt in Hp.
  unfold with_open. wave_run.
  destruct (Z.ltb_spec c 1); [do 3 (settle; wave_run); eauto|].
  destruct (Z.ltb_spec s 1); cbn [orb]; [do 4 (settle; wave_run); eauto|].
  destruct (Z.ltb_spec 4 s); [do 4 (settle; wave_run); eauto|].
  destruct (Z.leb_spec r 0); [do 5 (settle; wave_run); eauto | lia].
Qed.

(** The writer of a whole file in one [writeframes]. *)
Lemma write_file_accepted c s r bs :
  params_ok c s r = true -> header_ok c s r (len bs) = true ->
  with_open (setnchannels c ;;; setsampwidth s ;;; setframerate r ;;;
             writeframes bs)
  = (Ok tt, written c s r (len bs / (c * s)) bs).
Proof.
  intros Hp Hh. unfold with_open. rewrite setters_run by assumption.
  rewrite writeframes_fresh by assumption. now rewrite close_written.
Qed.

Lemma write_file_rejected c s r bs :
  params_ok c s r && header_ok c s r (len bs) = false ->
  exists w',
    with_open (setnchannels c ;;; setsampwidth s ;;; setframerate r ;;;
               writeframes bs)
    = (Raise (if params_ok c s r then StructError else WaveError), w').
Proof.
  intros H. destruct (params_ok c s r) eqn:Hp; cbn [andb] in H.
  - unfold with_open. rewrite setters_run by assumption.
    destruct (writeframes_fresh_raises c s r bs Hp H) as (w' & -> & Hc & Hs & Hr).
    apply params_ok_inv in Hp.
    destruct (close_outcome w') as [w'' [-> | ->]]; try lia; eauto.
  - destruct (setters_rejected c s r (writeframes bs) Hp) as (w' & -> & _).
    eauto.
Qed.

End WaveFacts.

(** ** The encoder *)

Module InjectFacts.
Import Inject InjectSpec.

Lemma bit_of_cases c : bit_of c = 0 \/ bit_of c = 1.
Proof. unfold bit_of. destruct (Ascii.eqb c ascii1); auto. Qed.

Lemma int_of_char_bit c : is_bit c -> int_of_char c = Ok (bit_of c).
Proof. intros [-> | ->]; reflexivity. Qed.

Lemma set_lsb_land_1 b c : Z.land (set_lsb b c) 1 = bit_of c.
Proof.
  unfold set_lsb. rewrite Z.land_lor_distr_l, <- Z.land_assoc.
  change (Z.land 254 1) with 0. rewrite Z.land_0_r, Z.lor_0_l.
  destruct (bit_of_cases c) as [-> | ->]; reflexivity.
Qed.

Lemma set_lsb_byte b c : 0 <= set_lsb b c < 256.
Proof.
  assert (E : Z.land (set_lsb b c) 255 = set_lsb b c).
  { unfold set_lsb. rewrite Z.land_lor_distr_l, <- Z.land_assoc.
    change (Z.land 254 255) with 254.
    destruct (bit_of_cases c) as [-> | ->]; reflexivity. }
  rewrite <- E. change 255 with (Z.ones 8). rewrite Z.land_ones by lia.
  apply Z.mod_pos_bound. reflexivity.
Qed.

Lemma inject_bit_run pre b post o c :
  is_bit c ->
  inject_bit (len pre) c (World (pre ++ b :: post) o)
  = (Ok tt, World (pre ++ set_lsb b c :: post) o).
Proof.
  intros Hc. unfold inject_bit, frames_get, frames_set, bind, get, lift, put.
  cbn [frames output_file].
  assert (G : getitem (pre ++ b :: post) (len pre) = Ok b).
  { rewrite <- (Z.add_0_r (len pre)). now apply getitem_app_r. }
  rewrite G, (int_of_char_bit c Hc).
  pose proof (set_lsb_byte b c) as Hr. fold (set_lsb b c).
  replace (0 <=? set_lsb b c) with true by (symmetry; apply Z.leb_le; lia).
  replace (set_lsb b c <? 256) with true by (symmetry; apply Z.ltb_lt; lia).
  replace (0 <=? len pre) with true
    by (symmetry; apply Z.leb_le; apply len_nonneg).
  cbn [andb]. do 2 f_equal.
  unfold len. rewrite Nat2Z.id.
  replace (length pre) with (length pre + 0)%nat at 1 by lia.
  now rewrite insert_app_r.
Qed.

Lemma inject_loop_run bits : forall pre rest o,
  Forall is_bit bits ->
  (length bits <= length rest)%nat ->
  inject_loop (imap (fun i x => (Z.of_nat (length pre + i), x)) bits)
              (World (pre ++ rest) o)
  = (Ok tt, World (pre ++ embed bits rest) o).
Proof.
  induction bits as [|c bits IH]; intros pre rest o Hbits Hlen.
  - reflexivity.
  - destruct rest as [|b rest]; [simpl in Hlen; lia|].
    inversion Hbits as [|? ? Hc Hbits']; subst.
    rewrite imap_cons. cbn [inject_loop]. unfold bind at 1.
    rewrite Nat.add_0_r. fold (len pre).
    rewrite (inject_bit_run pre b rest o c Hc). cbv beta iota.
    change (embed (c :: bits) (b :: rest)) with (set_lsb b c :: embed bits rest).
    specialize (IH (pre ++ [set_lsb b c]) rest o Hbits').
    rewrite <- !app_assoc in IH. cbn [app] in IH.
    rewrite <- IH by (simpl in Hlen; lia).
    f_equal. apply imap_ext. intros i x _. cbn. f_equal.
    rewrite length_app. cbn. lia.
Qed.

Lemma foldl_append_bind {A B} (f : A -> list B) (l : list A) (acc : list B) :
  foldl (fun binary char => binary ++ f char) acc l = acc ++ (l ≫= f).
Proof.
  revert acc. induction l as [|x l IH]; intros acc; cbn.
  - now rewrite app_nil_r.
  - now rewrite IH, app_assoc.
Qed.

Lemma text_to_binary_bind text : text_to_binary text = text ≫= format_08b.
Proof. unfold text_to_binary. now rewrite foldl_append_bind. Qed.

Lemma text_to_binary_app t1 t2 :
  text_to_binary (t1 ++ t2) = text_to_binary t1 ++ text_to_binary t2.
Proof. rewrite !text_to_binary_bind. apply bind_app. Qed.

Lemma text_to_binary_cons c t :
  text_to_binary (c :: t) = format_08b c ++ text_to_binary t.
Proof. rewrite !text_to_binary_bind. reflexivity. Qed.

Lemma bin_digits_bits p : Forall is_bit (bin_digits p).
Proof.
  induction p as [p IH|p IH|]; cbn [bin_digits].
  - apply Forall_app. split; [exact IH|]. apply Forall_singleton. now right.
  - apply Forall_app. split; [exact IH|]. apply Forall_singleton. now left.
  - apply Forall_singleton. now right.
Qed.

Lemma zfill_bits n s : Forall is_bit s -> Forall is_bit (zfill n s).
Proof.
  intros H. unfold zfill. apply Forall_app. split; [|exact H].
  apply Forall_replicate. now left.
Qed.

Lemma format_08b_bits n : 0 <= n -> Forall is_bit (format_08b n).
Proof.
  destruct n as [|p|p]; intros Hn; [| |lia]; cbn [format_08b].
  - apply zfill_bits, Forall_singleton. now left.
  - apply zfill_bits, bin_digits_bits.
Qed.

Lemma text_to_binary_bits text :
  Forall (fun c => 0 <= c) text -> Forall is_bit (text_to_binary text).
Proof.
  induction 1 as [|c t Hc _ IH].
  - constructor.
  - rewrite text_to_binary_cons. apply Forall_app. split; [|exact IH].
    now apply format_08b_bits.
Qed.

(** Facts checked on each of the 256 one-byte code points. *)
Lemma forall_below_256 (P : Z -> bool) :
  forallb P (seqZ 0 256) = true -> forall c, 0 <= c < 256 -> P c = true.
Proof.
  intros H c Hc. rewrite forallb_forall in H. apply H.
  apply list_elem_of_In, elem_of_seqZ. lia.
Qed.

Lemma format_08b_length c : 0 <= c < 256 -> length (format_08b c) = 8%nat.
Proof.
  intros Hc.
  apply (forall_below_256 (fun c => Nat.eqb (length (format_08b c)) 8)) in Hc.
  - now apply Nat.eqb_eq.
  - vm_compute. reflexivity.
Qed.

Lemma text_to_binary_length text :
  Forall (fun c => 0 <= c < 256) text ->
  len (text_to_binary text) = 8 * len text.
Proof.
  induction 1 as [|c t Hc _ IH].
  - reflexivity.
  - rewrite text_to_binary_cons, len_app, IH.
    unfold len. rewrite (format_08b_length c Hc). cbn [length]. lia.
Qed.

Lemma DELIMITER_byte : Forall (fun c => 0 <= c < 256) DELIMITER.
Proof. repeat constructor; lia. Qed.

(** The bitstream of a payload of one-byte code points has
    [8 * (len payload + 5)] bits. *)
Lemma bitstream_length payload :
  Forall (fun c => 0 <= c < 256) payload ->
  len (text_to_binary (payload ++ DELIMITER)) = 8 * (len payload + 5).
Proof.
  intros H. rewrite text_to_binary_length.
  - rewrite len_app. change (len DELIMITER) with 5. lia.
  - apply Forall_app. split; [exact H | exact DELIMITER_byte].
Qed.

(** The bitstream holds at least the 40 bits of the delimiter. *)
Lemma message_bits_min secret :
  40 <= len (text_to_binary (secret ++ DELIMITER)).
Proof.
  rewrite text_to_binary_app, len_app.
  change (len (text_to_binary DELIMITER)) with 40.
  pose proof (len_nonneg (text_to_binary secret)). lia.
Qed.

(** [inject_payload] on a buffer that is too small: it raises before it
    touches the buffer, and nothing is written. *)
Lemma encode_too_large p cover secret :
  len cover < len (text_to_binary (secret ++ DELIMITER)) ->
  encode p cover secret
  = (Raise (ValueError_MessageTooLarge
              (len (text_to_binary (secret ++ DELIMITER))) (len cover)),
     World cover None).
Proof.
  intros H. unfold encode, inject_payload, bind, get, raise. cbv zeta.
  cbn [frames].
  replace (_ >? _) with true; [reflexivity|].
  symmetry. apply Z.gtb_lt. exact H.
Qed.

Lemma length_embed bits cover :
  (length bits <= length cover)%nat -> length (embed bits cover) = length cover.
Proof.
  intros H. unfold embed. rewrite length_app, length_zip_with, length_drop. lia.
Qed.

(** [inject_payload] on a buffer that is large enough: the loop leaves
    [embed] of the bitstream, which is handed to the writer of the output
    file; the call returns if the writer does, and raises what it raises. *)
Lemma encode_run p cover secret :
  Forall (fun c => 0 <= c) secret ->
  len (text_to_binary (secret ++ DELIMITER)) <= len cover ->
  let bits := text_to_binary (secret ++ DELIMITER) in
  let out := embed bits cover in
  encode p cover secret
  = (let (written, file) :=
       Wave.with_open
         (Wave.setnchannels (n_channels p) ;;;
          Wave.setsampwidth (sample_width p) ;;;
          Wave.setframerate (frame_rate p) ;;;
          Wave.writeframes out) in
     (_ <~ written ;;
      Ok (Stats (len secret) (len bits) (len cover)
            (foldr Z.add 0
               (zip_with (fun a b => popcount (Z.lxor a b))
                  (take (Z.to_nat (len bits)) cover)
                  (take (Z.to_nat (len bits)) out)))
            (len (take (Z.to_nat (len bits)) cover) * 8)),
      World out (Some (Wave.data file)))).
Proof.
  intros Hs H. cbv zeta. unfold encode, inject_payload. cbv zeta.
  set (bits := text_to_binary (secret ++ DELIMITER)) in *.
  unfold bind at 1. unfold get at 1. cbn [frames].
  replace (len bits >? len cover) with false
    by (symmetry; rewrite Z.gtb_ltb; apply Z.ltb_ge; lia).
  pose proof (message_bits_min secret) as Hmin. fold bits in Hmin.
  replace (len cover =? 0) with false by (symmetry; apply Z.eqb_neq; lia).
  unfold bind at 1.
  assert (Hbits : Forall is_bit bits).
  { apply text_to_binary_bits, Forall_app. split; [exact Hs|].
    repeat constructor; lia. }
  pose proof (inject_loop_run bits [] cover None Hbits) as Hrun.
  cbn [app length Nat.add] in Hrun. unfold enumerate. rewrite Hrun by (unfold len in H; lia).
  unfold bind at 1, get at 1. cbn [frames].
  destruct (Wave.with_open _) as [[[] | e] file];
    unfold bind, put, lift, ret; reflexivity.
Qed.

(** When the writer accepts the cover's parameters and length, the call
    returns, and the buffer it leaves and writes is [embed] of the
    bitstream. *)
Lemma encode_fits p cover secret :
  Forall (fun c => 0 <= c) secret ->
  len (text_to_binary (secret ++ DELIMITER)) <= len cover ->
  writable p (len cover) = true ->
  exists st,
    encode p cover secret
    = (Ok st, let out := embed (text_to_binary (secret ++ DELIMITER)) cover in
              World out (Some out))
    /\ message_length st = len secret
    /\ bits_injected st = len (text_to_binary (secret ++ DELIMITER))
    /\ audio_capacity st = len cover.
Proof.
  intros Hs H Hw. rewrite (encode_run p cover secret Hs H). cbv zeta.
  unfold writable in Hw. apply andb_true_iff in Hw as [Hp Hh].
  rewrite WaveFacts.write_file_accepted;
    [|exact Hp | unfold len in *; rewrite length_embed by lia; exact Hh].
  rewrite WaveFacts.data_written. cbn [bind_result].
  eexists. split; [reflexivity|]. cbn. auto.
Qed.

(** When the writer does not, the call raises after the loop: [wave.Error]
    from a setter, else [struct.error] from the header. *)
Lemma encode_rejected p cover secret :
  Forall (fun c => 0 <= c) secret ->
  len (text_to_binary (secret ++ DELIMITER)) <= len cover ->
  writable p (len cover) = false ->
  exists data,
    encode p cover secret
    = (Raise (if WaveSpec.params_ok (n_channels p) (sample_width p) (frame_rate p)
              then StructError else WaveError),
       World (embed (text_to_binary (secret ++ DELIMITER)) cover) (Some data)).
Proof.
  intros Hs H Hw. rewrite (encode_run p cover secret Hs H). cbv zeta.
  unfold writable in Hw.
  destruct (WaveFacts.write_file_rejected (n_channels p) (sample_width p)
              (frame_rate p)
              (embed (text_to_binary (secret ++ DELIMITER)) cover))
    as (w' & ->).
  { unfold len in *. rewrite length_embed by lia. exact Hw. }
  cbn [bind_result]. eauto.
Qed.

(** The buffer in memory after the loop, whatever the writer does. *)
Lemma encode_frames p cover secret :
  Forall (fun c => 0 <= c) secret ->
  len (text_to_binary (secret ++ DELIMITER)) <= len cover ->
  frames (snd (encode p cover secret))
  = embed (text_to_binary (secret ++ DELIMITER)) cover.
Proof.
  intros Hs H. rewrite (encode_run p cover secret Hs H). cbv zeta.
  now destruct (Wave.with_open _).
Qed.

Lemma embed_lookup_lt bits cover (i : nat) b c :
  cover !! i = Some b -> bits !! i = Some c ->
  embed bits cover !! i = Some (Z.lor (Z.land b 254) (bit_of c)).
Proof.
  intros Hb Hc. unfold embed.
  rewrite lookup_app_l.
  - rewrite lookup_zip_with, Hc, Hb. reflexivity.
  - rewrite length_zip_with.
    apply lookup_lt_Some in Hb. apply lookup_lt_Some in Hc. lia.
Qed.

Lemma embed_lookup_ge bits cover (i : nat) :
  (length bits <= length cover)%nat -> (length bits <= i)%nat ->
  embed bits cover !! i = cover !! i.
Proof.
  intros Hl Hi. unfold embed.
  rewrite lookup_app_r by (rewrite length_zip_with; lia).
  rewrite lookup_drop, length_zip_with. f_equal. lia.
Qed.

(** A run of [inject_payload] that returns has found room for the
    bitstream and leaves [embed] of it. *)
Lemma encode_Ok_inv p cover secret st w :
  Forall (fun c => 0 <= c) secret ->
  encode p cover secret = (Ok st, w) ->
  len (text_to_binary (secret ++ DELIMITER)) <= len cover /\
  w = (let out := embed (text_to_binary (secret ++ DELIMITER)) cover in
       World out (Some out)).
Proof.
  intros Hs He.
  destruct (Z.le_gt_cases (len (text_to_binary (secret ++ DELIMITER))) (len cover))
    as [Hle | Hgt].
  - split; [exact Hle|].
    destruct (writable p (len cover)) eqn:Hw.
    + destruct (encode_fits p cover secret Hs Hle Hw) as (st' & He' & _).
      rewrite He' in He. now injection He as _ <-.
    + destruct (encode_rejected p cover secret Hs Hle Hw) as (data & He').
      rewrite He' in He. discriminate.
  - rewrite encode_too_large in He by lia. discriminate.
Qed.

(** A run that returns had parameters and a length the writer accepts. *)
Lemma encode_Ok_writable p cover secret st w :
  Forall (fun c => 0 <= c) secret ->
  encode p cover secret = (Ok st, w) ->
  writable p (len cover) = true.
Proof.
  intros Hs He. pose proof (encode_Ok_inv p cover secret st w Hs He) as [Hle _].
  destruct (writable p (len cover)) eqn:Hw; [reflexivity|].
  destruct (encode_rejected p cover secret Hs Hle Hw) as (data & He').
  rewrite He' in He. discriminate.
Qed.

(** The capacity check, for secrets of one-byte code points. *)
Lemma capacity_check_bytes p cover secret :
  Forall (fun c => 0 <= c < 256) secret ->
  (8 * (len secret + 5) <= len cover ->
   writable p (len cover) = true ->
   exists st w, encode p cover secret = (Ok st, w)
                /\ bits_injected st = 8 * (len secret + 5)
                /\ audio_capacity st = len cover) /\
  (len cover < 8 * (len secret + 5) ->
   encode p cover secret
   = (Raise (ValueError_MessageTooLarge (8 * (len secret + 5)) (len cover)),
      World cover None)).
Proof.
  intros Hb. pose proof (bitstream_length _ Hb) as Hbits. split; intros H.
  - intros Hw. destruct (encode_fits p cover secret) as (st & He & _ & Hi & Hc).
    + eapply Forall_impl; [|exact Hb]. intros c; cbn; lia.
    + lia.
    + exact Hw.
    + exists st. eexists. split; [exact He|]. split; congruence.
  - rewrite encode_too_large by lia. now rewrite Hbits.
Qed.

(** The frame condition, for payloads of one-byte code points. *)
Lemma frame_condition_bytes p cover payload st w (i : nat) :
  Forall (fun c => 0 <= c < 256) payload ->
  encode p cover payload = (Ok st, w) ->
  8 * (len payload + 5) <= Z.of_nat i ->
  frames w !! i = cover !! i.
Proof.
  intros Hb He Hi. pose proof (bitstream_length _ Hb) as Hbits.
  apply encode_Ok_inv in He as [Hle ->].
  - cbn [frames]. unfold len in *. apply embed_lookup_ge; lia.
  - eapply Forall_impl; [|exact Hb]. intros c; cbn; lia.
Qed.

(** The embedding transform, for payloads of one-byte code points. *)
Lemma embedding_transform_bytes p cover payload st w :
  Forall (fun c => 0 <= c < 256) payload ->
  encode p cover payload = (Ok st, w) ->
  let bits := text_to_binary (payload ++ DELIMITER) in
  bits = (payload ++ DELIMITER) ≫= format_08b /\
  len bits = 8 * (len payload + 5) /\
  forall (i : nat) b c,
    cover !! i = Some b -> bits !! i = Some c ->
    frames w !! i = Some (Z.lor (Z.land b 254) (bit_of c)).
Proof.
  intros Hb He bits. split; [apply text_to_binary_bind|].
  split; [now apply bitstream_length|].
  apply encode_Ok_inv in He as [_ ->].
  - intros i b c. cbn [frames]. apply embed_lookup_lt.
  - eapply Forall_impl; [|exact Hb]. intros c; cbn; lia.
Qed.

(** C2: the capacity check.  The secret "Ā" (one character, U+0100) has a
    required bit count of 48 by the formula [8 * (len secret + 5)], and the
    cover has exactly 48 bytes; whatever the parameters of the cover,
    [inject_payload] still raises, asking for 49 bits, because
    [format(256, '08b')] has 9 digits. *)
Theorem C2_capacity_check_wide_char (p : wav_params) :
  8 * (len [256] + 5) = len (replicate 48 0) /\
  encode p (replicate 48 0) [256]
  = (Raise (ValueError_MessageTooLarge 49 48), World (replicate 48 0) None).
Proof.
  split; [reflexivity|].
  rewrite encode_too_large by (vm_compute; reflexivity). reflexivity.
Qed.

(** C3: the frame condition.  For the payload "Ā" and a cover of 49 zero
    bytes (8-bit mono samples) the encoder returns, and the byte at index
    [48 = 8 * (1 + 5)] has changed from 0 to 1: the bitstream has 49 bits,
    not 48. *)
Theorem C3_frame_condition_wide_char :
  exists st w,
    encode (WavParams 1 1 44100) (replicate 49 0) [256] = (Ok st, w) /\
    8 * (len [256] + 5) <= 48 /\
    replicate 49 0 !! 48%nat = Some 0 /\
    frames w !! 48%nat = Some 1.
Proof.
  do 2 eexists. split; [vm_compute; reflexivity|].
  split; [vm_compute; discriminate|]. split; reflexivity.
Qed.

(** C4: the embedding transform.  [text_to_binary] expands the character
    "Ā" (U+0100) to the 9 digits 100000000, so the bitstream of the payload
    "Ā" has 49 bits where [8 * (len payload + 5)] is 48. *)
Theorem C4_bitstream_wide_char :
  format_08b (ord 256) = list_ascii_of_string "100000000" /\
  len (text_to_binary ([256] ++ DELIMITER)) = 49 /\
  8 * (len [256] + 5) = 48.
Proof. repeat split; vm_compute; reflexivity. Qed.

End InjectFacts.

(** ** The decoder *)

Module ExtractFacts.
Import Extract ExtractSpec.

Lemma int_base2_fold (g : list Z) (v : Z) :
  foldl (fun acc c =>
           match acc with
           | Ok v =>
             if Ascii.eqb c ascii0 then Ok (2 * v)
             else if Ascii.eqb c ascii1 then Ok (2 * v + 1)
             else Raise ValueError
           | Raise e => Raise e
           end) (Ok v) (lsb_char <$> g)
  = Ok (foldl (fun acc b => 2 * acc + Z.land b 1) v g).
Proof.
  revert v. induction g as [|b g IH]; intros v; [reflexivity|].
  cbn [fmap list_fmap foldl].
  destruct (lsb_char_cases b) as [[Ec E] | [Ec E]]; rewrite Ec, E.
  - change (Ascii.eqb ascii0 ascii0) with true. cbv iota.
    rewrite IH. do 2 f_equal. lia.
  - change (Ascii.eqb ascii1 ascii0) with false.
    change (Ascii.eqb ascii1 ascii1) with true. cbv iota.
    now rewrite IH.
Qed.

Lemma int_base2_lsbs (g : list Z) :
  g <> [] -> int_base2 (lsb_char <$> g) = Ok (group_value g).
Proof.
  intros Hg. destruct g as [|b g]; [congruence|].
  unfold int_base2, group_value.
  change (lsb_char <$> b :: g) with (lsb_char b :: (lsb_char <$> g)).
  cbv iota. change (lsb_char b :: (lsb_char <$> g)) with (lsb_char <$> b :: g).
  apply int_base2_fold.
Qed.

(** The inner loop reads the bytes of the group that exist, in order, and
    never raises. *)
Lemma read_chunk_run frames i : 0 <= i -> forall n j0 chunk reads,
  0 <= j0 ->
  read_chunk frames i (seqZ j0 (Z.of_nat n)) chunk reads
  = (Ok (chunk ++ (lsb_char <$> take n (drop (Z.to_nat (i + j0)) frames))),
     reads ++ seqZ (i + j0) (Z.min (Z.of_nat n) (len frames - (i + j0)))).
Proof.
  intros Hi. induction n as [|n IH]; intros j0 chunk reads Hj.
  - rewrite !seqZ_nil by lia. cbn [read_chunk take fmap list_fmap].
    unfold ret. now rewrite !app_nil_r.
  - rewrite seqZ_cons by lia.
    replace (Z.pred (Z.of_nat (S n))) with (Z.of_nat n) by lia.
    cbn [read_chunk].
    destruct (Z.ltb_spec (i + j0) (len frames)) as [Hlt | Hge].
    + destruct (lookup_lt_is_Some_2 frames (Z.to_nat (i + j0))) as [b Hb];
        [unfold len in Hlt; lia|].
      unfold bind at 1, frames_get at 1.
      rewrite (getitem_lookup frames (i + j0) b) by (auto; lia).
      rewrite IH by lia.
      rewrite (drop_S _ _ _ Hb).
      replace (Z.to_nat (i + Z.succ j0)) with (S (Z.to_nat (i + j0))) by lia.
      rewrite str_of_int_lsb.
      cbn [take fmap list_fmap]. rewrite <- !app_assoc. cbn [app].
      do 3 f_equal.
      rewrite (seqZ_cons (i + j0)) by lia.
      f_equal. f_equal; lia.
    + rewrite IH by lia.
      rewrite !drop_ge by (unfold len in Hge; lia).
      rewrite !take_nil. rewrite !seqZ_nil by lia. reflexivity.
Qed.

Lemma chr_printable c : printable c = true -> chr c = Ok c.
Proof.
  unfold printable, chr. intros H.
  replace ((0 <=? c) && (c <=? 1114111)) with true; [reflexivity|].
  symmetry. apply andb_true_iff. rewrite Z.leb_le, Z.leb_le.
  rewrite !orb_true_iff, andb_true_iff, !Z.leb_le, !Z.eqb_eq in H. lia.
Qed.

(** One iteration of the outer loop: it reads the bytes [i .. i+7] that
    exist and updates the variables by [scan_step]; it never raises. *)
Lemma scan_group_run frames i st reads :
  0 <= i ->
  scan_group frames 8 i st reads
  = (Ok (scan_step (chunk_value frames i) st),
     reads ++ seqZ i (Z.min 8 (len frames - i))).
Proof.
  intros Hi. unfold scan_group.
  change (range 0 8 1) with (seqZ 0 (Z.of_nat 8)).
  unfold bind at 1. rewrite (read_chunk_run frames i Hi) by lia.
  rewrite Z.add_0_r. cbn [app]. change (Z.of_nat 8) with 8.
  unfold chunk_value, scan_step. cbv zeta.
  set (g := take 8 (drop (Z.to_nat i) frames)).
  unfold len at 1. rewrite length_fmap.
  destruct (Nat.eqb_spec (length g) 8) as [E | E].
  - rewrite E. change (Z.of_nat 8 =? 8) with true. cbv iota.
    unfold bind at 1, lift at 1.
    rewrite int_base2_lsbs by (intros ->; discriminate).
    destruct (printable (group_value g)) eqn:Hp; [|reflexivity].
    unfold bind at 1, lift at 1. rewrite (chr_printable _ Hp).
    destruct (endswith _ _); reflexivity.
  - replace (Z.of_nat (length g) =? 8) with false; [reflexivity|].
    symmetry. apply Z.eqb_neq. lia.
Qed.

Lemma scan_loop_run frames : forall n a st reads,
  scan_loop frames 8 ((fun k => 0 + 8 * Z.of_nat k) <$> seq a n) st reads
  = let R := scan_values
               ((fun k => chunk_value frames (8 * Z.of_nat k)) <$> seq a n) st in
    (Ok (fst R),
     reads ++ seqZ (8 * Z.of_nat a)
                   (Z.min (8 * Z.of_nat (snd R)) (len frames - 8 * Z.of_nat a))).
Proof.
  induction n as [|n IH]; intros a st reads.
  - cbn. rewrite seqZ_nil by lia. now rewrite app_nil_r.
  - cbn [seq fmap list_fmap scan_loop scan_values]. unfold bind at 1.
    rewrite Z.add_0_l. rewrite scan_group_run by lia.
    destruct (scan_step (chunk_value frames (8 * Z.of_nat a)) st) as [[|] st'].
    + fold (@fmap list _ _ _ (fun k => 0 + 8 * Z.of_nat k) (seq (S a) n)).
      rewrite IH. cbv zeta.
      fold (@fmap list _ _ _ (fun k => chunk_value frames (8 * Z.of_nat k))
              (seq (S a) n)).
      destruct (scan_values _ st') as [r g]. cbn [fst snd].
      f_equal. rewrite <- app_assoc. f_equal.
      destruct (Z.le_gt_cases 8 (len frames - 8 * Z.of_nat a)) as [Hc | Hc].
      * rewrite (Z.min_l 8) by lia.
        replace (Z.min (8 * Z.of_nat (S g)) (len frames - 8 * Z.of_nat a))
          with (8 + Z.min (8 * Z.of_nat g) (len frames - 8 * Z.of_nat (S a)))
          by lia.
        rewrite seqZ_app by lia. do 2 f_equal. lia.
      * rewrite (seqZ_nil (8 * Z.of_nat (S a))) by lia.
        rewrite app_nil_r. f_equal. lia.
    + reflexivity.
Qed.

(** Group values outside the alphabet, and groups that are not complete,
    leave no trace in the result. *)
Lemma scan_values_text vs : forall st,
  fst (scan_values vs st)
  = scan_text (filter (fun c => printable c = true) (omap id vs)) st.
Proof.
  induction vs as [|[c|] vs IH]; intros st; [reflexivity| |].
  - cbn [omap list_omap scan_values scan_step id].
    destruct (printable c) eqn:Hp.
    + rewrite filter_cons_True by exact Hp. cbn [scan_text].
      destruct (endswith _ _); [reflexivity|].
      specialize (IH (Locals (extracted_text st ++ [c]) (delimiter_found st))).
      destruct (scan_values vs _); exact IH.
    + rewrite filter_cons_False by congruence.
      specialize (IH st). destruct (scan_values vs st); exact IH.
  - cbn [omap list_omap scan_values scan_step id].
    specialize (IH st). destruct (scan_values vs st); exact IH.
Qed.

(** The loop goes through at most all the groups, and through all of them
    when it is not left by [break]. *)
Lemma scan_values_count vs : forall st,
  (snd (scan_values vs st) <= length vs)%nat /\
  (delimiter_found st = false ->
   delimiter_found (fst (scan_values vs st)) = false ->
   snd (scan_values vs st) = length vs).
Proof.
  induction vs as [|v vs IH]; intros st; [cbn; auto|].
  cbn [scan_values length].
  assert (Hstep : (exists st', scan_step v st = (Next, st') /\
                               delimiter_found st' = delimiter_found st)
                  \/ (exists st', scan_step v st = (Break, st') /\
                                  delimiter_found st' = true)).
  { unfold scan_step. destruct v as [c|]; [|left; eauto].
    destruct (printable c); [|left; eauto].
    destruct (endswith _ _); [right; eauto | left; eauto]. }
  destruct Hstep as [(st' & -> & Hf) | (st' & -> & Hf)].
  - destruct (IH st') as [Hle Heq]. destruct (scan_values vs st') as [r n].
    cbn [fst snd] in *. split; [lia|]. intros H1 H2. rewrite Heq; congruence.
  - cbn [fst snd]. split; [lia|]. congruence.
Qed.

(** The accumulated text never holds the delimiter: the loop is left as
    soon as the text ends with it.  So the loop returns what stands before
    the FIRST occurrence of the delimiter among the kept characters. *)
Lemma scan_text_find cs : forall acc f,
  (forall k, ~ occurs_at DELIMITER acc k) ->
  scan_text cs (Locals acc f)
  = match find_sub DELIMITER (acc ++ cs) with
    | Some n => Locals (take n (acc ++ cs)) true
    | None => Locals (acc ++ cs) f
    end.
Proof.
  induction cs as [|c cs IH]; intros acc f Hacc.
  - rewrite app_nil_r. cbn [scan_text].
    now rewrite (proj2 (find_sub_None DELIMITER acc) Hacc).
  - cbn [scan_text extracted_text delimiter_found]. unfold endswith.
    case_bool_decide as Hs.
    + destruct Hs as [t' Ht'].
      assert (Hlen : (length acc = length t' + 4)%nat).
      { pose proof (f_equal length Ht') as Hl. rewrite !length_app in Hl.
        change (length DELIMITER) with 5%nat in Hl. cbn [length] in Hl. lia. }
      replace (acc ++ c :: cs) with ((t' ++ DELIMITER) ++ cs)
        by (rewrite <- Ht', <- app_assoc; reflexivity).
      assert (Hf : find_sub DELIMITER ((t' ++ DELIMITER) ++ cs) = Some (length t')).
      { apply find_sub_Some. split.
        - unfold occurs_at. rewrite <- app_assoc, drop_app_length.
          now rewrite take_app_length.
        - intros k Hk Hocc. apply (Hacc k).
          rewrite <- Ht', <- app_assoc in Hocc. cbn [app] in Hocc.
          apply occurs_at_app in Hocc; [exact Hocc|].
          change (length DELIMITER) with 5%nat. lia. }
      rewrite Hf. f_equal. rewrite Ht'. unfold drop_last.
      rewrite length_app. change (length DELIMITER) with 5%nat.
      replace (length t' + 5 - 5)%nat with (length t') by lia.
      now rewrite <- app_assoc, !take_app_length.
    + rewrite IH.
      * now rewrite <- app_assoc.
      * intros k Hocc.
        destruct (occurs_at_length _ _ _ Hocc) as [? | Hl]; [discriminate|].
        rewrite length_app in Hl. cbn [length] in Hl.
        destruct (decide (k + length DELIMITER <= length acc)%nat) as [Hin | Hout].
        -- apply (Hacc k). apply occurs_at_app in Hocc; assumption.
        -- apply Hs. apply (occurs_at_suffix _ _ k Hocc).
           rewrite length_app. cbn [length] in *. lia.
Qed.

(** [range(0, max_search, 8)]. *)
Lemma range_step8 m :
  range 0 m 8 = (fun k => 0 + 8 * Z.of_nat k) <$> seq 0 (Z.to_nat ((m + 7) / 8)).
Proof. unfold range. now replace (m - 0 + 8 - 1) with (m + 7) by lia. Qed.

Lemma groups8_cons g rest :
  length g = 8%nat -> groups8 (g ++ rest) = g :: groups8 rest.
Proof.
  intros H. do 8 (destruct g as [|? g]; [discriminate|]).
  destruct g; [reflexivity | discriminate].
Qed.

Lemma groups8_short l : (length l < 8)%nat -> groups8 l = [].
Proof.
  intros H. do 8 (destruct l as [|? l]; [reflexivity|]).
  cbn [length] in H. lia.
Qed.

Lemma groups8_take c : forall l,
  groups8 (take (8 * c) l) = take c (groups8 l).
Proof.
  induction c as [|c IH]; intros l.
  - rewrite Nat.mul_0_r. now rewrite !take_0.
  - destruct (decide (length l < 8)%nat) as [Hs | Hl].
    + rewrite (groups8_short l Hs), take_nil.
      apply groups8_short. rewrite length_take. lia.
    + rewrite <- (take_drop 8 l).
      assert (H8 : length (take 8 l) = 8%nat) by (rewrite length_take; lia).
      replace (8 * S c)%nat with (length (take 8 l) + 8 * c)%nat by lia.
      rewrite take_app_add, !groups8_cons by exact H8.
      cbn [take]. now rewrite IH.
Qed.

Lemma chunk_values_groups l : forall n a,
  omap id ((fun k => chunk_value l (8 * Z.of_nat k)) <$> seq a n)
  = group_value <$> take n (groups8 (drop (8 * a) l)).
Proof.
  induction n as [|n IH]; intros a; [reflexivity|].
  cbn [seq fmap list_fmap omap list_omap].
  fold (@fmap list _ _ _ (fun k => chunk_value l (8 * Z.of_nat k)) (seq (S a) n)).
  fold (@omap list _ _ _ (@id (option Z))
          ((fun k => chunk_value l (8 * Z.of_nat k)) <$> seq (S a) n)).
  rewrite IH. unfold chunk_value at 1. cbv zeta.
  replace (Z.to_nat (8 * Z.of_nat a)) with (8 * a)%nat by lia.
  replace (drop (8 * S a) l) with (drop 8 (drop (8 * a) l))
    by (rewrite drop_drop; f_equal; lia).
  set (d := drop (8 * a) l).
  destruct (Nat.eqb_spec (length (take 8 d)) 8) as [E | E]; cbn [id].
  - rewrite <- (take_drop 8 d) at 3. rewrite (groups8_cons _ _ E).
    reflexivity.
  - rewrite length_take in E.
    rewrite (groups8_short d) by lia.
    rewrite (groups8_short (drop 8 d)) by (rewrite length_drop; lia).
    now rewrite !take_nil.
Qed.

(** The groups the loop evaluates are the complete groups of the first
    [min(len, limit)] bytes, for a limit that is a multiple of 8. *)
Lemma values_of_range l limit q :
  limit = 8 * q -> 0 <= q ->
  omap id ((fun k => chunk_value l (8 * Z.of_nat k))
             <$> seq 0 (Z.to_nat ((Z.min (len l) limit + 7) / 8)))
  = group_value <$> groups8 (take (Z.to_nat (Z.min (len l) limit)) l).
Proof.
  intros -> Hq. rewrite chunk_values_groups, <- groups8_take.
  change (drop (8 * 0) l) with l. do 2 f_equal.
  unfold len. destruct (Z.le_gt_cases (Z.of_nat (length l)) (8 * q)) as [H | H].
  - rewrite Z.min_l by lia.
    pose proof (ceil8_bounds (Z.of_nat (length l))).
    rewrite !take_ge; [reflexivity|lia|lia].
  - rewrite Z.min_r by lia.
    pose proof (ceil8_bounds (8 * q)). f_equal. lia.
Qed.

(** [binary_to_text] on the least significant bits of a buffer: the values
    of its complete groups of 8, those outside the alphabet left out. *)
Lemma binary_to_text_loop_run l : forall n a text,
  binary_to_text_loop (lsb_char <$> l)
    ((fun k => 0 + 8 * Z.of_nat k) <$> seq a n) text
  = Ok (text ++ filter (fun c => printable c = true)
                  (omap id ((fun k => chunk_value l (8 * Z.of_nat k)) <$> seq a n))).
Proof.
  induction n as [|n IH]; intros a text.
  - cbn. now rewrite app_nil_r.
  - cbn [seq fmap list_fmap binary_to_text_loop omap list_omap].
    fold (@fmap list _ _ _ (fun k => 0 + 8 * Z.of_nat k) (seq (S a) n)).
    fold (@fmap list _ _ _ (fun k => chunk_value l (8 * Z.of_nat k)) (seq (S a) n)).
    fold (@omap list _ _ _ (@id (option Z))
            ((fun k => chunk_value l (8 * Z.of_nat k)) <$> seq (S a) n)).
    cbv zeta. unfold slice, chunk_value. cbv zeta.
    replace (Z.to_nat (0 + 8 * Z.of_nat a + 8 - (0 + 8 * Z.of_nat a))) with 8%nat
      by lia.
    rewrite Z.add_0_l, <- fmap_drop, <- fmap_take.
    set (g := take 8 (drop (Z.to_nat (8 * Z.of_nat a)) l)).
    unfold len. rewrite length_fmap.
    destruct (Nat.eqb_spec (length g) 8) as [E | E]; cbn [id].
    + rewrite E. change (Z.of_nat 8 =? 8) with true. cbv iota.
      rewrite int_base2_lsbs by (intros ->; discriminate).
      cbn [bind_result].
      destruct (printable (group_value g)) eqn:Hp.
      * rewrite (chr_printable _ Hp). cbn [bind_result].
        rewrite IH, filter_cons_True by exact Hp.
        now rewrite <- app_assoc.
      * rewrite IH, filter_cons_False by congruence. reflexivity.
    + replace (Z.of_nat (length g) =? 8) with false
        by (symmetry; apply Z.eqb_neq; lia).
      apply IH.
Qed.

Lemma binary_to_text_lsbs l :
  binary_to_text (lsb_char <$> l)
  = Ok (filter (fun c => printable c = true) (group_value <$> groups8 l)).
Proof.
  unfold binary_to_text. unfold len. rewrite length_fmap.
  rewrite range_step8, binary_to_text_loop_run, chunk_values_groups.
  cbn [app]. change (drop (8 * 0) l) with l.
  rewrite <- groups8_take, take_ge; [reflexivity|].
  pose proof (ceil8_bounds (Z.of_nat (length l))). lia.
Qed.

(** The reconstructed text is what [binary_to_text] makes of the least
    significant bits of the scan region. *)
Lemma reconstructed_text_binary frames :
  binary_to_text
    (lsb_char <$> take (Z.to_nat (Z.min (len frames) MAX_SEARCH_BYTES)) frames)
  = Ok (reconstructed_text frames).
Proof. apply binary_to_text_lsbs. Qed.

Lemma DELIMITER_nonempty : DELIMITER <> [].
Proof. discriminate. Qed.

Lemma MAX_SEARCH_BYTES_eq : MAX_SEARCH_BYTES = 8 * 1250000.
Proof. reflexivity. Qed.

(** What [extract_payload] computes: it never raises; the message is the
    reconstructed text up to the first delimiter; and the bytes it reads
    are the bytes [0 .. r-1], each once and in order, for some [r] within
    [min(len(frames), MAX_SEARCH_BYTES)]. *)
Lemma decode_spec stego :
  exists r,
    decode stego
    = (let (msg, found) := split_at_delimiter (reconstructed_text stego) in
       Ok (Stats (len msg) found msg), seqZ 0 r)
    /\ 0 <= r <= Z.min (len stego) MAX_SEARCH_BYTES
    /\ (snd (split_at_delimiter (reconstructed_text stego)) = false ->
        r = Z.min (len stego) MAX_SEARCH_BYTES).
Proof.
  unfold decode, extract_payload. cbv zeta. unfold bind.
  rewrite range_step8, scan_loop_run. cbv zeta.
  set (m := Z.min (len stego) MAX_SEARCH_BYTES).
  set (vs := (fun k => chunk_value stego (8 * Z.of_nat k)) <$> _).
  pose proof (scan_values_text vs (Locals [] false)) as Htext.
  pose proof (scan_values_count vs (Locals [] false)) as [Hle Hall].
  assert (Hvs : length vs = Z.to_nat ((m + 7) / 8))
    by (unfold vs; now rewrite length_fmap, length_seq).
  rewrite scan_text_find in Htext
    by (intros k Hk; apply occurs_at_length in Hk as [? | ?];
        [discriminate | cbn in *; lia]).
  cbn [app] in Htext.
  assert (HT : filter (fun c => printable c = true) (omap id vs)
               = reconstructed_text stego).
  { unfold vs, reconstructed_text. cbv zeta. fold m. unfold m.
    now rewrite (values_of_range stego _ 1250000 MAX_SEARCH_BYTES_eq) by lia. }
  rewrite HT in Htext.
  destruct (scan_values vs _) as [R g]. cbn [fst snd] in *.
  exists (Z.min (8 * Z.of_nat g) (len stego - 8 * Z.of_nat 0)).
  assert (Hm : m = len stego /\ len stego <= 8 * 1250000
               \/ m = 8 * 1250000 /\ 8 * 1250000 < len stego)
    by (unfold m; rewrite MAX_SEARCH_BYTES_eq; lia).
  pose proof (len_nonneg stego) as Hn.
  pose proof (ceil8_bounds m) as Hc.
  unfold split_at_delimiter. unfold ret. subst R.
  change (8 * Z.of_nat 0) with 0.
  destruct (find_sub DELIMITER (reconstructed_text stego)) as [n|];
    cbn [extracted_text delimiter_found snd] in *.
  - split; [reflexivity|]. split; [lia | discriminate].
  - split; [reflexivity|]. specialize (Hall eq_refl eq_refl). split; [lia|].
    intros _. lia.
Qed.

(** No prefix of a text ends with the delimiter exactly when the
    delimiter does not occur in it. *)
Lemma find_sub_None_prefixes d text :
  find_sub d text = None <-> forall n, ~ d `suffix_of` take n text.
Proof.
  rewrite find_sub_None. split.
  - intros H n Hs. apply suffix_occurs_at in Hs.
    apply (H (length (take n text) - length d)%nat).
    rewrite <- (take_drop n text) at 1.
    destruct (occurs_at_length _ _ _ Hs) as [-> | Hl].
    + unfold occurs_at. reflexivity.
    + apply occurs_at_app; [lia | exact Hs].
  - intros H k Hk. apply (H (k + length d)%nat).
    destruct (occurs_at_length _ _ _ Hk) as [-> | Hl].
    + apply suffix_nil.
    + exists (take k text). rewrite <- take_take_drop. f_equal. exact Hk.
Qed.

Lemma printable_alphabet c : printable c = true <-> in_alphabet c.
Proof.
  unfold printable, in_alphabet.
  rewrite !orb_true_iff, andb_true_iff, !Z.leb_le, !Z.eqb_eq. tauto.
Qed.

Lemma complete_group_value frames i :
  0 <= i -> i + 8 <= len frames ->
  chunk_value frames i
  = Some (group_value (take 8 (drop (Z.to_nat i) frames))).
Proof.
  intros Hi Hl. unfold chunk_value. cbv zeta.
  replace (length (take 8 (drop (Z.to_nat i) frames))) with 8%nat; [reflexivity|].
  rewrite length_take, length_drop. unfold len in Hl. lia.
Qed.

(** C6: alphabet filtering.  For a complete group of 8 bytes at [i], with
    [v] the value its least significant bits spell: the iteration reads the
    8 bytes and does not raise; if [v] lies in [32,126] or is 9, 10 or 13,
    [chr(v)] is appended to the text (and the delimiter test follows);
    otherwise the loop variables are left as they were and the loop goes
    on.  For the whole run: the result is that of the values in the
    alphabet alone. *)
Theorem C6_alphabet_filtering (frames : list Z) (i : Z) (st : locals)
    (reads : list Z) (Hi : 0 <= i) (Hgroup : i + 8 <= len frames) :
  let v := group_value (take 8 (drop (Z.to_nat i) frames)) in
  (in_alphabet v ->
   scan_group frames 8 i st reads
   = (Ok (let text := extracted_text st ++ [v] in
          if endswith text DELIMITER
          then (Break, Locals (drop_last 5 text) true)
          else (Next, Locals text (delimiter_found st))),
      reads ++ seqZ i 8)) /\
  (~ in_alphabet v ->
   scan_group frames 8 i st reads = (Ok (Next, st), reads ++ seqZ i 8)) /\
  fst (decode frames)
  = (let (msg, found) := split_at_delimiter (reconstructed_text frames) in
     Ok (Stats (len msg) found msg)) /\
  Forall in_alphabet (reconstructed_text frames).
Proof.
  intros v.
  pose proof (scan_group_run frames i st reads Hi) as Hrun.
  rewrite (complete_group_value frames i Hi Hgroup) in Hrun. fold v in Hrun.
  rewrite Z.min_l in Hrun by lia. unfold scan_step in Hrun.
  repeat split.
  - intros Hv. apply printable_alphabet in Hv. now rewrite Hv in Hrun.
  - intros Hv. rewrite <- printable_alphabet in Hv.
    destruct (printable v); [congruence | exact Hrun].
  - destruct (decode_spec frames) as (r & -> & _).
    now destruct (split_at_delimiter _).
  - unfold reconstructed_text. cbv zeta. apply list.Forall_forall. intros c Hc.
    apply list_elem_of_filter in Hc as [Hc _]. now apply printable_alphabet.
Qed.

Lemma C6_alphabet_filtering_witness :
  let frames := [0;0;0;0;0;0;0;0; 0;1;0;0;1;0;0;0] in
  scan_group frames 8 0 (Locals [] false) [] = (Ok (Next, Locals [] false), seqZ 0 8) /\
  scan_group frames 8 8 (Locals [] false) (seqZ 0 8)
  = (Ok (Next, Locals [72] false), seqZ 0 16) /\
  fst (decode frames) = Ok (Stats 1 false [72]).
Proof.
  intros frames.
  pose proof (C6_alphabet_filtering frames 0 (Locals [] false) []
                ltac:(lia) ltac:(vm_compute; discriminate)) as (_ & H0 & H & _).
  pose proof (C6_alphabet_filtering frames 8 (Locals [] false) (seqZ 0 8)
                ltac:(lia) ltac:(vm_compute; discriminate)) as (H8 & _).
  split; [apply H0; change (~ in_alphabet 0); unfold in_alphabet; lia|].
  split; [apply H8; change (in_alphabet 72); unfold in_alphabet; lia | exact H].
Defined.

Lemma decode_total stego : exists st reads, decode stego = (Ok st, reads).
Proof.
  destruct (decode_spec stego) as (r & Hdec & _).
  rewrite Hdec. destruct (split_at_delimiter _); eauto.
Qed.

Lemma decode_no_delimiter stego :
  find_sub DELIMITER (reconstructed_text stego) = None ->
  decode stego
  = (Ok (Stats (len (reconstructed_text stego)) false (reconstructed_text stego)),
     seqZ 0 (Z.min (len stego) MAX_SEARCH_BYTES)).
Proof.
  destruct (decode_spec stego) as (r & Hdec & Hr & Hall).
  unfold split_at_delimiter in *.
  intros Hnone. rewrite Hnone in *. cbn [snd] in Hall.
  rewrite Hdec. now rewrite (Hall eq_refl).
Qed.

(** C7: no delimiter is not an error.  [extract_payload] returns normally
    on every buffer.  When the delimiter does not occur in the reconstructed
    text (no prefix of it ends with "#####", see [find_sub_None_prefixes]),
    the run goes through the whole scan region and returns that text as the
    message, with [delimiter_found = False]. *)
Theorem C7_delimiter_absent (stego : list Z) :
  (exists st reads, decode stego = (Ok st, reads)) /\
  (find_sub DELIMITER (reconstructed_text stego) = None ->
   decode stego
   = (Ok (Stats (len (reconstructed_text stego)) false (reconstructed_text stego)),
      seqZ 0 (Z.min (len stego) MAX_SEARCH_BYTES))).
Proof.
  split; [apply decode_total | apply decode_no_delimiter].
Qed.

Lemma C7_delimiter_absent_witness :
  let stego := [0;1;0;0;1;0;0;0; 0;0;0;0;0;0;0;0; 0;1;0;0;1;0;0;1; 0;1;1] in
  decode stego = (Ok (Stats 2 false [72; 73]), seqZ 0 27).
Proof.
  intros stego.
  exact (proj2 (C7_delimiter_absent stego) eq_refl).
Defined.

Lemma groups8_replicate q (b : Z) :
  groups8 (replicate (8 * q) b) = replicate q (replicate 8 b).
Proof.
  induction q as [|q IH]; [reflexivity|].
  replace (8 * S q)%nat with (8 + 8 * q)%nat by lia.
  rewrite replicate_add, groups8_cons by apply length_replicate.
  now rewrite IH.
Qed.

Lemma filter_replicate_not {A} (P : A -> Prop) `{!forall x, Decision (P x)}
    (n : nat) (x : A) :
  ~ P x -> filter P (replicate n x) = [].
Proof.
  intros Hx. induction n as [|n IH]; [reflexivity|].
  cbn [replicate]. now rewrite filter_cons_False.
Qed.

(** A buffer that starts with [MAX_SEARCH_BYTES] even bytes has an empty
    reconstructed text, whatever follows. *)
Lemma reconstructed_text_zeros tail :
  reconstructed_text (replicate (Z.to_nat MAX_SEARCH_BYTES) 0 ++ tail) = [].
Proof.
  unfold reconstructed_text. cbv zeta.
  rewrite len_app. unfold len at 1. rewrite length_replicate.
  pose proof (len_nonneg tail) as Ht. pose proof MAX_SEARCH_BYTES_eq as HM.
  rewrite Z.min_r by lia.
  rewrite take_app_length' by (now rewrite length_replicate).
  replace (Z.to_nat MAX_SEARCH_BYTES) with (8 * Z.to_nat 1250000)%nat by lia.
  generalize (Z.to_nat 1250000). intros q.
  rewrite groups8_replicate, fmap_replicate.
  apply filter_replicate_not. discriminate.
Qed.

(** C8: the scan bound.  On every buffer [extract_payload] returns (the
    decoder is a total function), and the bytes it has read are the bytes
    [0 .. r-1], each once and in order, with [r] at most
    [min(len(stego), 10,000,000)].  Its result is that of the complete
    groups of 8 bytes among the first [min(len(stego), 10,000,000)] bytes:
    a last group of fewer than 8 bytes does not count.  And a buffer of
    10,000,000 bytes with even values followed by anything (1000 more
    bytes, say, even ones that spell the delimiter) has exactly its first
    10,000,000 bytes read, and no delimiter found. *)
Theorem C8_scan_bound :
  MAX_SEARCH_BYTES = 10000000 /\
  (forall stego : list Z,
     exists st r,
       decode stego = (Ok st, seqZ 0 r) /\
       0 <= r <= Z.min (len stego) MAX_SEARCH_BYTES /\
       Forall (fun k => 0 <= k < Z.min (len stego) MAX_SEARCH_BYTES) (seqZ 0 r) /\
       (message st, stats_delimiter_found st)
       = split_at_delimiter
           (filter (fun c => printable c = true)
              (group_value <$>
                 groups8 (take (Z.to_nat (Z.min (len stego) MAX_SEARCH_BYTES))
                               stego)))) /\
  (forall tail : list Z,
     decode (replicate (Z.to_nat MAX_SEARCH_BYTES) 0 ++ tail)
     = (Ok (Stats 0 false []), seqZ 0 MAX_SEARCH_BYTES)).
Proof.
  split; [reflexivity|]. split.
  - intros stego. destruct (decode_spec stego) as (r & Hdec & Hr & _).
    fold (reconstructed_text stego).
    destruct (split_at_delimiter (reconstructed_text stego)) as [msg found].
    exists (Stats (len msg) found msg), r.
    split; [exact Hdec|]. split; [exact Hr|]. split; [|reflexivity].
    apply list.Forall_forall. intros k Hk. apply elem_of_seqZ in Hk. lia.
  - intros tail.
    pose proof (decode_no_delimiter
                  (replicate (Z.to_nat MAX_SEARCH_BYTES) 0 ++ tail)) as H.
    rewrite reconstructed_text_zeros in H. rewrite (H eq_refl).
    replace (Z.min (len (replicate (Z.to_nat MAX_SEARCH_BYTES) 0 ++ tail))
                   MAX_SEARCH_BYTES) with MAX_SEARCH_BYTES; [reflexivity|].
    rewrite len_app. unfold len at 1. rewrite length_replicate.
    pose proof (len_nonneg tail). pose proof MAX_SEARCH_BYTES_eq. lia.
Qed.

(** C10: the returned message never holds the run "#####", and all its
    characters lie in [32,126] or are 9, 10 or 13. *)
Theorem C10_message_invariant (stego : list Z) :
  exists st reads,
    decode stego = (Ok st, reads) /\
    (forall l1 l2, message st <> l1 ++ DELIMITER ++ l2) /\
    Forall in_alphabet (message st).
Proof.
  destruct (decode_spec stego) as (r & Hdec & _).
  assert (Halpha : Forall in_alphabet (reconstructed_text stego)).
  { unfold reconstructed_text. cbv zeta. apply list.Forall_forall. intros c Hc.
    apply list_elem_of_filter in Hc as [Hc _]. now apply printable_alphabet. }
  unfold split_at_delimiter in Hdec.
  destruct (find_sub DELIMITER (reconstructed_text stego)) as [n|] eqn:Hf;
    do 2 eexists; (split; [exact Hdec|]); cbn [message]; split.
  - intros l1 l2 Heq. apply find_sub_Some in Hf as [_ Hmin].
    assert (Hlen : (length l1 + 5 <= n)%nat).
    { apply (f_equal length) in Heq. rewrite length_take, !length_app in Heq.
      change (length DELIMITER) with 5%nat in Heq. lia. }
    apply (Hmin (length l1)); [lia|].
    rewrite <- (take_drop n (reconstructed_text stego)), Heq.
    apply occurs_at_app.
    + rewrite !length_app. lia.
    + unfold occurs_at. rewrite drop_app_length. now rewrite take_app_length.
  - now apply Forall_take.
  - intros l1 l2 Heq. apply (proj1 (find_sub_None _ _) Hf (length l1)).
    rewrite Heq. unfold occurs_at. rewrite drop_app_length.
    now rewrite take_app_length.
  - exact Halpha.
Qed.

End ExtractFacts.

(** ** Encoding followed by decoding *)

Module RoundTrip.
Import InjectSpec ExtractSpec InjectFacts ExtractFacts.

Lemma alphabet_byte text :
  Forall in_alphabet text -> Forall (fun c => 0 <= c < 256) text.
Proof. apply Forall_impl. unfold in_alphabet. intros c. lia. Qed.

Lemma filter_all {A} (P : A -> Prop) `{!forall x, Decision (P x)} (l : list A) :
  Forall P l -> filter P l = l.
Proof.
  induction 1 as [|x l Hx _ IH]; [reflexivity|].
  now rewrite filter_cons_True, IH.
Qed.

(** The least significant bits of bytes rewritten by the encoder spell
    the digits that were written. *)
Lemma group_value_zip digits : forall bs acc,
  (length digits <= length bs)%nat ->
  foldl (fun acc b => 2 * acc + Z.land b 1) acc
        (zip_with (fun c b => set_lsb b c) digits bs)
  = foldl (fun acc c => 2 * acc + bit_of c) acc digits.
Proof.
  induction digits as [|d digits IH]; intros bs acc Hl; [reflexivity|].
  destruct bs as [|b bs]; [cbn in Hl; lia|].
  cbn [zip_with foldl]. rewrite set_lsb_land_1. apply IH. cbn in Hl. lia.
Qed.

Lemma format_08b_value c :
  0 <= c < 256 ->
  foldl (fun acc c => 2 * acc + bit_of c) 0 (format_08b c) = c.
Proof.
  intros Hc.
  apply (forall_below_256
           (fun c => foldl (fun acc c => 2 * acc + bit_of c) 0 (format_08b c)
                     =? c)) in Hc.
  - now apply Z.eqb_eq.
  - vm_compute. reflexivity.
Qed.

(** Decoding the groups the encoder wrote gives back the text. *)
Lemma groups_of_embedded text : forall cover rest,
  Forall (fun c => 0 <= c < 256) text ->
  (8 * length text <= length cover)%nat ->
  group_value <$> groups8 (zip_with (fun c b => set_lsb b c)
                                    (Inject.text_to_binary text) cover ++ rest)
  = text ++ (group_value <$> groups8 rest).
Proof.
  induction text as [|c text IH]; intros cover rest Hb Hl; [reflexivity|].
  inversion Hb as [|? ? Hc Hb']; subst. cbn [length] in Hl.
  rewrite text_to_binary_cons, zip_with_app_l.
  rewrite (format_08b_length c Hc), <- app_assoc.
  rewrite groups8_cons
    by (rewrite length_zip_with, (format_08b_length c Hc), length_take; lia).
  cbn [fmap list_fmap].
  fold (@fmap list _ _ _ group_value
          (groups8 (zip_with (fun c b => set_lsb b c)
                      (Inject.text_to_binary text) (drop 8 cover) ++ rest))).
  rewrite IH by (auto; rewrite length_drop; lia).
  cbn [app]. f_equal. unfold group_value.
  rewrite group_value_zip
    by (rewrite (format_08b_length c Hc), length_take; lia).
  now apply format_08b_value.
Qed.

Lemma len_embed bits cover :
  (length bits <= length cover)%nat -> length (embed bits cover) = length cover.
Proof.
  intros H. unfold embed.
  rewrite length_app, length_zip_with, length_drop. lia.
Qed.

(** The text reconstructed from an encoded buffer starts with the payload
    and the delimiter, when the scan limit does not cut the bitstream. *)
Lemma reconstructed_text_embed cover payload :
  Forall in_alphabet payload ->
  8 * (len payload + 5) <= len cover ->
  8 * (len payload + 5) <= Extract.MAX_SEARCH_BYTES ->
  exists more,
    reconstructed_text
      (embed (Inject.text_to_binary (payload ++ Inject.DELIMITER)) cover)
    = payload ++ Extract.DELIMITER ++ more.
Proof.
  intros Ha Hcover Hmax.
  assert (Hbytes : Forall (fun c => 0 <= c < 256) (payload ++ Inject.DELIMITER)).
  { apply Forall_app. split; [now apply alphabet_byte | apply DELIMITER_byte]. }
  pose proof (text_to_binary_length _ Hbytes) as Hbits.
  rewrite len_app in Hbits. change (len Inject.DELIMITER) with 5 in Hbits.
  set (bits := Inject.text_to_binary (payload ++ Inject.DELIMITER)) in *.
  unfold reconstructed_text. cbv zeta.
  unfold len in *. rewrite len_embed by lia.
  set (m := Z.min (Z.of_nat (length cover)) Extract.MAX_SEARCH_BYTES).
  assert (Hm : (length bits <= Z.to_nat m)%nat) by (unfold m; lia).
  unfold embed. rewrite take_app_ge by (rewrite length_zip_with; lia).
  unfold bits at 1. rewrite groups_of_embedded
    by (auto; rewrite length_app; change (length Inject.DELIMITER) with 5%nat; lia).
  rewrite <- app_assoc, !list.filter_app.
  rewrite (filter_all _ payload)
    by (eapply Forall_impl; [intros c; apply printable_alphabet | exact Ha]).
  eexists. reflexivity.
Qed.

Lemma text_to_binary_take text : forall q,
  Forall (fun c => 0 <= c < 256) text ->
  take (8 * q) (Inject.text_to_binary text) = Inject.text_to_binary (take q text).
Proof.
  induction text as [|c text IH]; intros q Hb.
  - change (Inject.text_to_binary []) with (@nil ascii). now rewrite !take_nil.
  - inversion Hb as [|? ? Hc Hb']; subst.
    destruct q as [|q]; [now rewrite Nat.mul_0_r|].
    cbn [take]. rewrite !text_to_binary_cons.
    replace (8 * S q)%nat with (length (format_08b c) + 8 * q)%nat
      by (rewrite (format_08b_length c Hc); lia).
    now rewrite take_app_add, IH.
Qed.

(** A bitstream that does not fit within the scan limit is cut: the
    decoder then misses the delimiter or returns a shorter message. *)
Lemma round_trip_beyond_scan_limit cover payload :
  Forall in_alphabet payload ->
  8 * (len payload + 5) <= len cover ->
  Extract.MAX_SEARCH_BYTES < 8 * (len payload + 5) ->
  exists st',
    fst (Extract.decode
           (embed (Inject.text_to_binary (payload ++ Inject.DELIMITER)) cover))
    = Ok st' /\
    ~ (Extract.message st' = payload /\ Extract.stats_delimiter_found st' = true).
Proof.
  intros Ha Hcover Hmax.
  assert (Hbytes : Forall (fun c => 0 <= c < 256) (payload ++ Inject.DELIMITER)).
  { apply Forall_app. split; [now apply alphabet_byte | apply DELIMITER_byte]. }
  pose proof (text_to_binary_length _ Hbytes) as Hbits.
  rewrite len_app in Hbits. change (len Inject.DELIMITER) with 5 in Hbits.
  set (bits := Inject.text_to_binary (payload ++ Inject.DELIMITER)) in *.
  destruct (decode_spec (embed bits cover)) as (r & Hdec & _).
  assert (Htext : reconstructed_text (embed bits cover)
                  = take (Z.to_nat 1250000) (payload ++ Inject.DELIMITER)).
  { unfold reconstructed_text. cbv zeta. pose proof MAX_SEARCH_BYTES_eq as HM.
    unfold len in *. rewrite len_embed by lia. rewrite Z.min_r by lia.
    replace (Z.to_nat Extract.MAX_SEARCH_BYTES) with (8 * Z.to_nat 1250000)%nat
      by lia.
    assert (Hq : (8 * Z.to_nat 1250000 < length bits)%nat) by lia.
    revert Hq. generalize (Z.to_nat 1250000). intros q Hq.
    unfold embed. rewrite take_app_le by (rewrite length_zip_with; lia).
    rewrite zip_with_take. unfold bits.
    rewrite text_to_binary_take by exact Hbytes.
    rewrite <- (app_nil_r (zip_with _ _ _)).
    rewrite groups_of_embedded.
    - cbn [groups8 fmap list_fmap]. rewrite app_nil_r.
      apply filter_all. apply Forall_take.
      eapply Forall_impl; [intros c; apply printable_alphabet|].
      apply Forall_app. split; [exact Ha|]. repeat constructor; unfold in_alphabet; lia.
    - now apply Forall_take.
    - rewrite !length_take, length_app. change (length Inject.DELIMITER) with 5%nat. lia. }
  rewrite Hdec, Htext. unfold split_at_delimiter.
  assert (Hlen : (length (take (Z.to_nat 1250000) (payload ++ Inject.DELIMITER))
                  < length payload + 5)%nat).
  { rewrite length_take, length_app. change (length Inject.DELIMITER) with 5%nat.
    pose proof MAX_SEARCH_BYTES_eq. unfold len in *. lia. }
  destruct (find_sub _ _) as [n|] eqn:Hf; eexists; (split; [reflexivity|]);
    cbn [Extract.message Extract.stats_delimiter_found]; intros [Hm Hfound];
    [|discriminate].
  apply find_sub_Some in Hf as [Hocc _].
  apply occurs_at_length in Hocc as [? | Hocc]; [discriminate|].
  change (length Extract.DELIMITER) with 5%nat in Hocc.
  apply (f_equal length) in Hm. rewrite length_take in Hm. lia.
Qed.

(** The buffer the loop of the encoder leaves decodes to the payload. *)
Lemma embed_decodes cover payload :
  Forall in_alphabet payload ->
  find_sub Extract.DELIMITER (payload ++ Inject.DELIMITER)
  = Some (length payload) ->
  8 * (len payload + 5) <= len cover ->
  8 * (len payload + 5) <= Extract.MAX_SEARCH_BYTES ->
  exists r,
    Extract.decode
      (embed (Inject.text_to_binary (payload ++ Inject.DELIMITER)) cover)
    = (Ok (Extract.Stats (len payload) true payload), seqZ 0 r).
Proof.
  intros Halpha Hdelim Hcover Hlimit.
  destruct (reconstructed_text_embed cover payload Halpha Hcover Hlimit)
    as [more Htext].
  set (out := embed _ cover) in *.
  destruct (decode_spec out) as (r & Hdec & _).
  unfold split_at_delimiter in Hdec. rewrite Htext in Hdec.
  rewrite app_assoc in Hdec.
  change Inject.DELIMITER with Extract.DELIMITER in Hdelim.
  rewrite (find_sub_app _ _ more _ DELIMITER_nonempty Hdelim) in Hdec.
  rewrite <- app_assoc, take_app_length in Hdec.
  exists r. exact Hdec.
Qed.

(** C1 (as amended): round trip.  For a payload over the alphabet whose
    only occurrence of the delimiter, once the delimiter is appended, is the
    appended one (the payload neither holds "#####" nor ends with "#"), a
    cover of at least [8 * (len payload + 5)] bytes, and a bitstream that
    lies within the decoder's scan limit of 10,000,000 bytes, decoding the
    buffer the encoder leaves gives back the payload, with the delimiter
    found; and when the writer of the output file accepts the parameters
    and the length of the cover, the call returns, that buffer is the
    sample data of the output file, and it decodes to the payload. *)
Theorem C1_round_trip (p : Inject.wav_params) (cover payload : list Z)
  (Halpha : Forall in_alphabet payload)
  (Hdelim : find_sub Extract.DELIMITER (payload ++ Inject.DELIMITER)
            = Some (length payload))
  (Hcover : 8 * (len payload + 5) <= len cover)
  (Hlimit : 8 * (len payload + 5) <= Extract.MAX_SEARCH_BYTES) :
  (exists st' reads,
     Extract.decode (stego_of p cover payload) = (Ok st', reads) /\
     Extract.message st' = payload /\
     Extract.stats_delimiter_found st' = true) /\
  (writable p (len cover) = true ->
   exists st w st' reads,
     Inject.encode p cover payload = (Ok st, w) /\
     Inject.output_file w = Some (Inject.frames w) /\
     Extract.decode (Inject.frames w) = (Ok st', reads) /\
     Extract.message st' = payload /\
     Extract.stats_delimiter_found st' = true).
Proof.
  pose proof (alphabet_byte _ Halpha) as Hbyte.
  pose proof (bitstream_length _ Hbyte) as Hbits.
  assert (Hs : Forall (fun c => 0 <= c) payload).
  { eapply Forall_impl; [|exact Hbyte]. intros c; cbn; lia. }
  destruct (embed_decodes cover payload Halpha Hdelim Hcover Hlimit)
    as (r & Hdec).
  split.
  - unfold stego_of. rewrite encode_frames by (auto; lia).
    exists (Extract.Stats (len payload) true payload), (seqZ 0 r).
    repeat split; assumption.
  - intros Hw.
    destruct (encode_fits p cover payload Hs ltac:(lia) Hw) as (st & Henc & _).
    cbv zeta in Henc.
    set (out := embed _ cover) in *.
    exists st, (Inject.World out (Some out)),
      (Extract.Stats (len payload) true payload), (seqZ 0 r).
    repeat split; assumption.
Qed.

Lemma C1_round_trip_witness :
  (exists st' reads,
     Extract.decode
       (stego_of (Inject.WavParams 1 2 44100) (replicate 60 0) [72; 73])
     = (Ok st', reads) /\
     Extract.message st' = [72; 73] /\
     Extract.stats_delimiter_found st' = true) /\
  (exists st w st' reads,
     Inject.encode (Inject.WavParams 1 2 44100) (replicate 60 0) [72; 73]
     = (Ok st, w) /\
     Inject.output_file w = Some (Inject.frames w) /\
     Extract.decode (Inject.frames w) = (Ok st', reads) /\
     Extract.message st' = [72; 73] /\
     Extract.stats_delimiter_found st' = true).
Proof.
  destruct (C1_round_trip (Inject.WavParams 1 2 44100) (replicate 60 0) [72; 73])
    as [Hmem Hfile].
  - repeat constructor; unfold in_alphabet; lia.
  - reflexivity.
  - vm_compute. discriminate.
  - vm_compute. discriminate.
  - split; [exact Hmem | apply Hfile; reflexivity].
Defined.

(** C1, as stated, fails: the payload "#" lies in the alphabet and the
    cover (16-bit mono at 44100 Hz) has the 48 bytes asked for, but the
    decoder sees the run "#####" one character early and returns the empty
    message. *)
Lemma C1_round_trip_counterexample :
  Forall in_alphabet [35] /\
  8 * (len [35] + 5) <= len (replicate 48 0) /\
  (exists st,
     fst (Inject.encode (Inject.WavParams 1 2 44100) (replicate 48 0) [35])
     = Ok st) /\
  fst (Extract.decode
         (stego_of (Inject.WavParams 1 2 44100) (replicate 48 0) [35]))
  = Ok (Extract.Stats 0 true []) /\
  Extract.message (Extract.Stats 0 true []) <> [35].
Proof.
  split; [repeat constructor; unfold in_alphabet; lia|].
  split; [vm_compute; discriminate|].
  split; [eexists; vm_compute; reflexivity|].
  split; [vm_compute; reflexivity | discriminate].
Qed.




End RoundTrip.

(** ** The tone generator *)

Module GenerateToneFacts.
Import GenerateTone Wave WaveSpec WaveFacts ExtraSpec.

Lemma range1_seqZ a b : range a b 1 = seqZ a (b - a).
Proof.
  unfold range, seqZ.
  replace ((b - a + 1 - 1) / 1) with (b - a) by (rewrite Z.div_1_r; lia).
  apply list_fmap_ext. intros _ k _. lia.
Qed.

Lemma range1_split a b c :
  a <= b <= c -> range a c 1 = range a b 1 ++ range b c 1.
Proof.
  intros H. rewrite !range1_seqZ.
  replace (c - a) with ((b - a) + (c - b)) by lia.
  rewrite seqZ_app by lia. now replace (a + (b - a)) with b by lia.
Qed.

Lemma range1_empty a b : b <= a -> range a b 1 = [].
Proof.
  intros H. rewrite range1_seqZ. unfold seqZ.
  now replace (Z.to_nat (b - a)) with 0%nat by lia.
Qed.

Lemma range1_length a b : len (range a b 1) = Z.max 0 (b - a).
Proof. rewrite range1_seqZ. unfold len. rewrite length_seqZ. lia. Qed.

(** [struct.pack('<h', value)] gives two bytes. *)
Lemma pack_h_bytes v p :
  pack_h v = Ok p -> length p = 2%nat /\ Forall is_byte p.
Proof.
  unfold pack_h. destruct (_ && _); [|discriminate]. cbv zeta. intros [= <-].
  split; [reflexivity|].
  pose proof (Z.mod_pos_bound v 65536 ltac:(lia)) as Hu.
  apply Forall_cons; [|apply Forall_cons; [|apply Forall_nil]]; unfold is_byte.
  - apply Z.mod_pos_bound. lia.
  - split; [apply Z.div_pos; lia | apply Z.div_lt_upper_bound; lia].
Qed.

Section Generator.
Variable libm_sin : spec_float -> spec_float.





Section Samples.
Variables (amplitude : Z) (frequency : spec_float) (sample_rate : Z).

(** The bytes already gathered are kept in front. *)
Lemma chunk_frames_acc idxs : forall acc,
  chunk_frames libm_sin amplitude frequency sample_rate idxs acc
  = match chunk_frames libm_sin amplitude frequency sample_rate idxs [] with
    | Ok bs => Ok (acc ++ bs)
    | Raise e => Raise e
    end.
Proof.
  induction idxs as [|i idxs IH]; intros acc; cbn [chunk_frames].
  - now rewrite app_nil_r.
  - destruct (sample_value _ _ _ _ _) as [v | e]; [|reflexivity].
    cbn [bind_result]. destruct (pack_h v) as [p | e]; [|reflexivity].
    cbn [bind_result]. rewrite (IH (acc ++ p)), (IH ([] ++ p)).
    destruct (chunk_frames _ _ _ _ idxs []); [|reflexivity].
    cbn [app]. now rewrite app_assoc.
Qed.

Lemma chunk_frames_app i1 i2 :
  chunk_frames libm_sin amplitude frequency sample_rate (i1 ++ i2) []
  = match chunk_frames libm_sin amplitude frequency sample_rate i1 [] with
    | Ok b1 => match chunk_frames libm_sin amplitude frequency sample_rate i2 [] with
               | Ok b2 => Ok (b1 ++ b2)
               | Raise e => Raise e
               end
    | Raise e => Raise e
    end.
Proof.
  assert (H : forall acc,
    chunk_frames libm_sin amplitude frequency sample_rate (i1 ++ i2) acc
    = match chunk_frames libm_sin amplitude frequency sample_rate i1 acc with
      | Ok b1 => chunk_frames libm_sin amplitude frequency sample_rate i2 b1
      | Raise e => Raise e
      end).
  { induction i1 as [|i i1 IH]; intros acc; cbn [app chunk_frames];
      [reflexivity|].
    destruct (sample_value _ _ _ _ _) as [v | e]; [|reflexivity].
    cbn [bind_result]. destruct (pack_h v) as [p | e]; [|reflexivity].
    cbn [bind_result]. apply IH. }
  rewrite H. destruct (chunk_frames libm_sin amplitude frequency sample_rate i1 []) as [b1 | e]; [|reflexivity].
  apply chunk_frames_acc.
Qed.

(** Two bytes per index. *)
Lemma chunk_frames_bytes idxs : forall acc bs,
  chunk_frames libm_sin amplitude frequency sample_rate idxs acc = Ok bs ->
  (length bs = length acc + 2 * length idxs)%nat /\
  (Forall is_byte acc -> Forall is_byte bs).
Proof.
  induction idxs as [|i idxs IH]; intros acc bs; cbn [chunk_frames].
  - intros [= <-]. cbn [length]. split; [lia | auto].
  - destruct (sample_value _ _ _ _ _) as [v | e]; [|discriminate].
    cbn [bind_result]. destruct (pack_h v) as [p | e] eqn:Hp; [|discriminate].
    cbn [bind_result]. intros H. apply IH in H as [Hlen Hb].
    apply pack_h_bytes in Hp as [Hp2 Hpb].
    rewrite length_app, Hp2 in Hlen. cbn [length]. split; [lia|].
    intros Hacc. apply Hb, Forall_app. now split.
Qed.

(** A pass over the indexes [a .. b-1] gives two bytes for each. *)
Lemma chunk_frames_length a b bs :
  chunk_frames libm_sin amplitude frequency sample_rate (range a b 1) [] = Ok bs ->
  len bs = 2 * Z.max 0 (b - a) /\ Forall is_byte bs.
Proof.
  intros H. apply chunk_frames_bytes in H as [Hlen Hb].
  pose proof (range1_length a b) as Hr. unfold len in *. cbn [length] in Hlen.
  split; [lia | apply Hb; constructor].
Qed.

(** [Z.to_nat (num_samples - samples_written)] iterations are enough: every
    iteration moves [samples_written] up. *)
Lemma write_chunks_fuel num_samples chunk_size :
  0 < chunk_size ->
  forall fuel samples_written w,
    num_samples - samples_written <= Z.of_nat fuel ->
    fst (write_chunks libm_sin fuel amplitude frequency sample_rate num_samples
           chunk_size samples_written w) <> Ok false.
Proof.
  intros Hc. induction fuel as [|fuel IH]; intros sw w Hf; cbn [write_chunks].
  - destruct (Z.ltb_spec sw num_samples); [lia | discriminate].
  - destruct (Z.ltb_spec sw num_samples) as [Hlt | Hge]; [|discriminate].
    unfold bind at 1, lift at 1.
    destruct (chunk_frames _ _ _ _ _ _) as [frames | e]; [|discriminate].
    unfold bind at 1.
    destruct (writeframes frames w) as [[[] | e] w']; [|discriminate].
    apply IH. lia.
Qed.

(** One iteration of the loop. *)
Lemma write_chunks_step fuel num_samples chunk_size samples_written w :
  samples_written < num_samples ->
  write_chunks libm_sin (S fuel) amplitude frequency sample_rate num_samples
    chunk_size samples_written w
  = let chunk_end := Z.min (samples_written + chunk_size) num_samples in
    match chunk_frames libm_sin amplitude frequency sample_rate
            (range samples_written chunk_end 1) [] with
    | Ok frames =>
      match writeframes frames w with
      | (Ok _, w') =>
        write_chunks libm_sin fuel amplitude frequency sample_rate num_samples
          chunk_size chunk_end w'
      | (Raise e, w') => (Raise e, w')
      end
    | Raise e => (Raise e, w)
    end.
Proof.
  intros Hlt. cbn [write_chunks].
  replace (samples_written <? num_samples) with true
    by (symmetry; apply Z.ltb_lt; lia).
  cbv zeta. unfold bind, lift.
  destruct (chunk_frames _ _ _ _ _ _); reflexivity.
Qed.

(** The loop on a clean writer: it writes what one pass over all the
    sample indexes gives, whatever the chunk size; it raises what that pass
    raises, or [struct.error] once the data no longer fits the 32-bit
    length fields of the header. *)
Lemma write_chunks_run num_samples chunk_size :
  0 < chunk_size ->
  params_ok 1 2 sample_rate = true -> header_ok 1 2 sample_rate 0 = true ->
  forall fuel samples_written d w,
    num_samples - samples_written <= Z.of_nat fuel ->
    clean 1 2 sample_rate d w ->
    match chunk_frames libm_sin amplitude frequency sample_rate
            (range samples_written num_samples 1) [] with
    | Ok bs =>
      if 36 + len (d ++ bs) <? 4294967296
      then exists w',
        write_chunks libm_sin fuel amplitude frequency sample_rate num_samples
          chunk_size samples_written w = (Ok true, w') /\
        clean 1 2 sample_rate (d ++ bs) w'
      else exists w',
        write_chunks libm_sin fuel amplitude frequency sample_rate num_samples
          chunk_size samples_written w = (Raise StructError, w') /\
        params_set 1 2 sample_rate w'
    | Raise e =>
      exists e' w',
        write_chunks libm_sin fuel amplitude frequency sample_rate num_samples
          chunk_size samples_written w = (Raise e', w') /\
        params_set 1 2 sample_rate w' /\
        (36 + len d + 2 * Z.max 0 (num_samples - samples_written) < 4294967296 ->
         e' = e /\ exists d', clean 1 2 sample_rate d' w')
    end.
Proof.
  intros Hc Hp Hh0.
  assert (Hclean_fit : forall d w, clean 1 2 sample_rate d w ->
                                   36 + len d < 4294967296).
  { intros d w [[-> _] | (nf & _ & H)];
      [unfold len; cbn [length]; lia | exact H]. }
  assert (Hdone : forall fuel sw d w,
    num_samples <= sw -> clean 1 2 sample_rate d w ->
    match chunk_frames libm_sin amplitude frequency sample_rate
            (range sw num_samples 1) [] with
    | Ok bs =>
      if 36 + len (d ++ bs) <? 4294967296
      then exists w',
        write_chunks libm_sin fuel amplitude frequency sample_rate num_samples
          chunk_size sw w = (Ok true, w') /\
        clean 1 2 sample_rate (d ++ bs) w'
      else exists w',
        write_chunks libm_sin fuel amplitude frequency sample_rate num_samples
          chunk_size sw w = (Raise StructError, w') /\
        params_set 1 2 sample_rate w'
    | Raise e =>
      exists e' w',
        write_chunks libm_sin fuel amplitude frequency sample_rate num_samples
          chunk_size sw w = (Raise e', w') /\
        params_set 1 2 sample_rate w' /\
        (36 + len d + 2 * Z.max 0 (num_samples - sw) < 4294967296 ->
         e' = e /\ exists d', clean 1 2 sample_rate d' w')
    end).
  { intros fuel sw d w Hge Hcl. rewrite range1_empty by lia.
    cbn [chunk_frames]. rewrite app_nil_r.
    pose proof (Hclean_fit d w Hcl).
    replace (36 + len d <? 4294967296) with true
      by (symmetry; apply Z.ltb_lt; lia).
    exists w. split; [|exact Hcl].
    destruct fuel; cbn [write_chunks];
      replace (sw <? num_samples) with false by (symmetry; apply Z.ltb_ge; lia);
      reflexivity. }
  induction fuel as [|fuel IH]; intros sw d w Hf Hcl.
  - apply Hdone; [lia | exact Hcl].
  - destruct (Z_lt_le_dec sw num_samples) as [Hlt | Hge];
      [|now apply Hdone].
    rewrite write_chunks_step by exact Hlt.
    cbv zeta. set (chunk_end := Z.min (sw + chunk_size) num_samples).
    assert (Hce : sw < chunk_end <= num_samples) by (unfold chunk_end; lia).
    rewrite (range1_split sw chunk_end num_samples) by lia.
    rewrite chunk_frames_app.
    destruct (chunk_frames libm_sin amplitude frequency sample_rate
                (range sw chunk_end 1) []) as [b1 | e] eqn:Hb1.
    2:{ exists e, w. split; [reflexivity|].
        split; [eapply clean_params_set; eauto|]. eauto. }
    apply chunk_frames_length in Hb1 as [Hl1 _].
    pose proof (Hclean_fit d w Hcl) as Hd. pose proof (len_nonneg d) as Hd0.
    destruct (writeframes_clean 1 2 sample_rate d w b1 Hp Hh0 Hcl)
      as [Hok Hbad].
    destruct (Z_lt_le_dec (36 + len (d ++ b1)) 4294967296) as [Hfit | Hbig].
    + destruct (Hok Hfit) as (w1 & -> & Hcl1).
      specialize (IH chunk_end (d ++ b1) w1 ltac:(lia) Hcl1).
      destruct (chunk_frames libm_sin amplitude frequency sample_rate
                  (range chunk_end num_samples 1) []) as [b2 | e].
      * rewrite <- app_assoc in IH. exact IH.
      * destruct IH as (e' & w' & Hrun & Hps & Himp).
        exists e', w'. split; [exact Hrun|]. split; [exact Hps|].
        intros Hall. apply Himp. rewrite len_app. lia.
    + destruct (Hbad Hbig ltac:(lia)) as (w1 & -> & Hps).
      rewrite len_app in Hbig.
      destruct (chunk_frames libm_sin amplitude frequency sample_rate
                  (range chunk_end num_samples 1) []) as [b2 | e].
      * pose proof (len_nonneg b2).
        replace (36 + len (d ++ b1 ++ b2) <? 4294967296) with false
          by (symmetry; apply Z.ltb_ge; rewrite !len_app; lia).
        eauto.
      * exists StructError, w1. split; [reflexivity|]. split; [exact Hps|].
        intros Hall. lia.
Qed.

End Samples.

(** The float of a positive integer and the writer: what [generate_wav]
    does once the number of samples is known. *)
Lemma generate_wav_unfold duration frequency sample_rate amplitude n :
  num_samples_of sample_rate duration = Ok n ->
  generate_wav libm_sin duration frequency sample_rate amplitude
  = match
      with_open
        (setnchannels 1 ;;; setsampwidth 2 ;;; setframerate sample_rate ;;;
         write_chunks libm_sin (Z.to_nat n) amplitude frequency sample_rate
           n 1000 0)
    with
    | (Raise e, w) => (Raise e, w)
    | (Ok true, w) => (Ok (Some (Stats n (n * 2 + 44) (n * 2) (n * 2 / 8))), w)
    | (Ok false, w) => (Ok None, w)
    end.
Proof. intros Hn. unfold generate_wav. rewrite Hn. reflexivity. Qed.

Lemma params_ok_rate r : 0 < r -> params_ok 1 2 r = true.
Proof.
  intros H. unfold params_ok. rewrite !andb_true_iff, !Z.leb_le. lia.
Qed.

Lemma header_ok_rate r n :
  0 < r -> header_ok 1 2 r n = (r <? 2147483648) && (36 + n <? 4294967296).
Proof.
  intros H. unfold header_ok. apply eq_true_iff_eq.
  rewrite !andb_true_iff, !Z.ltb_lt. lia.
Qed.

(** [generate_wav] with a sample rate that fits the header: one pass. *)
Lemma generate_wav_run duration frequency sample_rate amplitude n :
  0 < sample_rate < 2147483648 ->
  num_samples_of sample_rate duration = Ok n ->
  match chunk_frames libm_sin amplitude frequency sample_rate (range 0 n 1) [] with
  | Ok bs =>
    if 36 + len bs <? 4294967296
    then exists nf,
      generate_wav libm_sin duration frequency sample_rate amplitude
      = (Ok (Some (Stats n (n * 2 + 44) (n * 2) (n * 2 / 8))),
         written 1 2 sample_rate nf bs)
    else exists w,
      generate_wav libm_sin duration frequency sample_rate amplitude
      = (Raise StructError, w)
  | Raise e =>
    exists e' w,
      generate_wav libm_sin duration frequency sample_rate amplitude
      = (Raise e', w) /\
      (36 + 2 * Z.max 0 n < 4294967296 -> e' = e)
  end.
Proof.
  intros Hr Hn. rewrite (generate_wav_unfold _ _ _ _ _ Hn).
  pose proof (params_ok_rate sample_rate ltac:(lia)) as Hp.
  assert (Hh0 : header_ok 1 2 sample_rate 0 = true).
  { rewrite header_ok_rate by lia. settle. reflexivity. }
  unfold with_open. rewrite setters_run by exact Hp.
  pose proof (write_chunks_run amplitude frequency sample_rate n 1000
                ltac:(lia) Hp Hh0 (Z.to_nat n) 0 [] (params 1 2 sample_rate)
                ltac:(lia) ltac:(left; split; reflexivity)) as Hrun.
  destruct (chunk_frames libm_sin amplitude frequency sample_rate
              (range 0 n 1) []) as [bs | e].
  - cbn [app] in Hrun.
    destruct (36 + len bs <? 4294967296).
    + destruct Hrun as (w' & -> & Hcl).
      destruct (close_clean 1 2 sample_rate bs w' Hp Hh0 Hcl) as (nf & ->).
      exists nf. reflexivity.
    + destruct Hrun as (w' & -> & Hc & Hs & Hrt).
      destruct (close_outcome w') as [w'' [-> | ->]]; try lia; eauto.
  - destruct Hrun as (e' & w' & -> & (Hc & Hs & Hrt) & Himp).
    assert (Himp' : 36 + 2 * Z.max 0 n < 4294967296 ->
                    e' = e /\ exists d', clean 1 2 sample_rate d' w').
    { intros Hall. apply Himp. unfold len. cbn [length].
      rewrite Z.sub_0_r. lia. }
    clear Himp.
    destruct (close_outcome w') as [w'' [Hcl | Hcl]]; try lia.
    + rewrite Hcl. exists e', w''. split; [reflexivity|].
      intros Hall. now apply Himp'.
    + destruct (Z_lt_le_dec (36 + 2 * Z.max 0 n) 4294967296) as [Hall | Hbig].
      * destruct (Himp' Hall) as [-> (d' & Hcl')].
        destruct (close_clean 1 2 sample_rate d' w' Hp Hh0 Hcl') as (nf & Hcl'').
        rewrite Hcl'' in Hcl. discriminate.
      * rewrite Hcl. exists StructError, w''. split; [reflexivity | lia].
Qed.

(** A sample rate of [2**31] or more does not fit the byte rate field of
    the header: once the number of samples is known, [generate_wav] raises
    [struct.error], whatever the other arguments. *)
Lemma generate_wav_big_rate_struct duration frequency sample_rate amplitude n :
  2147483648 <= sample_rate ->
  num_samples_of sample_rate duration = Ok n ->
  exists w,
    generate_wav libm_sin duration frequency sample_rate amplitude
    = (Raise StructError, w).
Proof.
  intros Hr Hn. rewrite (generate_wav_unfold _ _ _ _ _ Hn).
  pose proof (params_ok_rate sample_rate ltac:(lia)) as Hp.
  assert (Hh : forall m, header_ok 1 2 sample_rate m = false).
  { intros m. rewrite header_ok_rate by lia. settle. reflexivity. }
  unfold with_open. rewrite setters_run by exact Hp.
  assert (Hclose : exists w,
            close (params 1 2 sample_rate) = (Raise StructError, w)).
  { rewrite close_params by exact Hp. rewrite Hh. eauto. }
  destruct Hclose as (wc & Hclose).
  destruct (Z.to_nat n) as [|fuel]; cbn [write_chunks];
    destruct (0 <? n).
  - unfold ret. rewrite Hclose. eauto.
  - unfold ret. rewrite Hclose. eauto.
  - cbv zeta. unfold bind at 1, lift at 1.
    destruct (chunk_frames _ _ _ _ _ _) as [b1 | e].
    + unfold bind at 1.
      destruct (writeframes_fresh_raises 1 2 sample_rate b1 Hp (Hh _))
        as (w' & -> & Hc & Hs & Hrt).
      destruct (close_outcome w') as [w'' [-> | ->]]; try lia; eauto.
    + rewrite Hclose. eauto.
  - unfold ret. rewrite Hclose. eauto.
Qed.

Lemma generate_wav_big_rate duration frequency sample_rate amplitude :
  2147483648 <= sample_rate ->
  exists e w,
    generate_wav libm_sin duration frequency sample_rate amplitude = (Raise e, w).
Proof.
  intros Hr. destruct (num_samples_of sample_rate duration) as [n | e] eqn:Hn.
  - destruct (generate_wav_big_rate_struct duration frequency sample_rate
                amplitude n Hr Hn) as (w & ->). eauto.
  - unfold generate_wav. rewrite Hn. eauto.
Qed.


(** With a sample rate of zero or less the call raises: in the count of
    samples, or else when the writer is given the frame rate. *)
Lemma generate_wav_bad_rate duration frequency sample_rate amplitude :
  sample_rate <= 0 ->
  exists e w,
    generate_wav libm_sin duration frequency sample_rate amplitude = (Raise e, w).
Proof.
  intros Hr. destruct (num_samples_of sample_rate duration) as [n | e] eqn:Hn.
  2:{ unfold generate_wav. rewrite Hn. eauto. }
  rewrite (generate_wav_unfold _ _ _ _ _ Hn).
  destruct (setters_rejected 1 2 sample_rate
              (write_chunks libm_sin (Z.to_nat n) amplitude frequency
                 sample_rate n 1000 0)) as (w' & -> & _); [|eauto].
  unfold params_ok. settle. reflexivity.
Qed.


(** The fuel given by [generate_wav] is enough: the answer is never
    [None]. *)
Lemma generate_wav_fuel duration frequency sample_rate amplitude :
  fst (generate_wav libm_sin duration frequency sample_rate amplitude) <> Ok None.
Proof.
  destruct (num_samples_of sample_rate duration) as [n | e] eqn:Hn.
  2:{ unfold generate_wav. rewrite Hn. discriminate. }
  rewrite (generate_wav_unfold _ _ _ _ _ Hn).
  unfold with_open.
  destruct (params_ok 1 2 sample_rate) eqn:Hp.
  - rewrite setters_run by exact Hp.
    pose proof (write_chunks_fuel amplitude frequency sample_rate n 1000
                  ltac:(lia) (Z.to_nat n) 0 (params 1 2 sample_rate)
                  ltac:(lia)) as Hfuel.
    destruct (write_chunks _ _ _ _ _ _ _ _ _) as [[[|] | e] w];
      cbn [fst] in *; [| congruence |];
      destruct (close w) as [[[] | e'] w']; discriminate.
  - destruct (setters_rejected 1 2 sample_rate
                (write_chunks libm_sin (Z.to_nat n) amplitude frequency
                   sample_rate n 1000 0) Hp) as (w' & Hw & _).
    unfold with_open in Hw. rewrite Hw. discriminate.
Qed.

End Generator.




End GenerateToneFacts.

(** * Further properties *)

(** ** The encoder *)

Module InjectExtra.
Import Inject InjectSpec ExtraSpec InjectFacts.

(** The statistics of a run that returns. *)
Lemma encode_fits_exact p cover secret :
  Forall (fun c => 0 <= c) secret ->
  len (text_to_binary (secret ++ DELIMITER)) <= len cover ->
  writable p (len cover) = true ->
  let bits := text_to_binary (secret ++ DELIMITER) in
  let out := embed bits cover in
  encode p cover secret
  = (Ok (Stats (len secret) (len bits) (len cover)
           (foldr Z.add 0
              (zip_with (fun a b => popcount (Z.lxor a b))
                 (take (Z.to_nat (len bits)) cover)
                 (take (Z.to_nat (len bits)) out)))
           (len (take (Z.to_nat (len bits)) cover) * 8)),
     World out (Some out)).
Proof.
  intros Hs H Hw. cbv zeta. rewrite (encode_run p cover secret Hs H). cbv zeta.
  unfold writable in Hw. apply andb_true_iff in Hw as [Hp Hh].
  rewrite WaveFacts.write_file_accepted;
    [|exact Hp | unfold len in *; rewrite length_embed by lia; exact Hh].
  rewrite WaveFacts.data_written. reflexivity.
Qed.

Lemma byte_cases (P : Z -> bool) :
  forallb P (seqZ 0 256) = true -> forall b, is_byte b -> P b = true.
Proof. intros H b Hb. now apply forall_below_256. Qed.

Lemma set_lsb_cases b c :
  set_lsb b c = Z.lor (Z.land b 254) 0 /\ bit_of c = 0 \/
  set_lsb b c = Z.lor (Z.land b 254) 1 /\ bit_of c = 1.
Proof. unfold set_lsb. destruct (bit_of_cases c) as [-> | ->]; auto. Qed.

Lemma set_lsb_shiftr b c : is_byte b -> Z.shiftr (set_lsb b c) 1 = Z.shiftr b 1.
Proof.
  intros Hb. destruct (set_lsb_cases b c) as [[-> _] | [-> _]].
  - apply Z.eqb_eq.
    apply (byte_cases
             (fun b => Z.shiftr (Z.lor (Z.land b 254) 0) 1 =? Z.shiftr b 1));
      [vm_compute; reflexivity | exact Hb].
  - apply Z.eqb_eq.
    apply (byte_cases
             (fun b => Z.shiftr (Z.lor (Z.land b 254) 1) 1 =? Z.shiftr b 1));
      [vm_compute; reflexivity | exact Hb].
Qed.

Lemma popcount_set_lsb b c :
  is_byte b ->
  popcount (Z.lxor b (set_lsb b c)) = if Z.land b 1 =? bit_of c then 0 else 1.
Proof.
  intros Hb. destruct (set_lsb_cases b c) as [[-> ->] | [-> ->]].
  - apply Z.eqb_eq.
    apply (byte_cases
             (fun b => popcount (Z.lxor b (Z.lor (Z.land b 254) 0))
                       =? (if Z.land b 1 =? 0 then 0 else 1)));
      [vm_compute; reflexivity | exact Hb].
  - apply Z.eqb_eq.
    apply (byte_cases
             (fun b => popcount (Z.lxor b (Z.lor (Z.land b 254) 1))
                       =? (if Z.land b 1 =? 1 then 0 else 1)));
      [vm_compute; reflexivity | exact Hb].
Qed.

Lemma set_lsb_idem b c : set_lsb (set_lsb b c) c = set_lsb b c.
Proof.
  unfold set_lsb at 1 3. f_equal.
  unfold set_lsb. rewrite Z.land_lor_distr_l, <- Z.land_assoc.
  change (Z.land 254 254) with 254.
  destruct (bit_of_cases c) as [-> | ->]; cbn [Z.land]; apply Z.lor_0_r.
Qed.

Lemma embed_nil_r bits : embed bits [] = [].
Proof. unfold embed. now rewrite zip_with_nil_r, drop_nil. Qed.

Lemma embed_cons c bits b cover :
  embed (c :: bits) (b :: cover) = set_lsb b c :: embed bits cover.
Proof. reflexivity. Qed.

Lemma embed_idem bits : forall cover,
  embed bits (embed bits cover) = embed bits cover.
Proof.
  induction bits as [|c bits IH]; intros cover; [reflexivity|].
  destruct cover as [|b cover]; [now rewrite !embed_nil_r|].
  now rewrite !embed_cons, set_lsb_idem, IH.
Qed.

Lemma take_embed bits cover :
  (length bits <= length cover)%nat ->
  take (length bits) (embed bits cover)
  = zip_with (fun c b => set_lsb b c) bits cover.
Proof.
  intros H. unfold embed. apply take_app_length'.
  rewrite length_zip_with. lia.
Qed.

Lemma embed_bytes bits cover :
  Forall is_byte cover -> Forall is_byte (embed bits cover).
Proof.
  intros Hc. unfold embed. apply Forall_app. split.
  - apply list.Forall_forall. intros x Hx.
    apply list_elem_of_lookup in Hx as [i Hi].
    apply lookup_zip_with_Some in Hi as (c & b & -> & _ & _).
    apply set_lsb_byte.
  - now apply Forall_drop.
Qed.

Lemma changed_bits_mismatches bits : forall cover,
  Forall is_byte cover ->
  foldr Z.add 0
    (zip_with (fun a b => popcount (Z.lxor a b))
       (take (length bits) cover)
       (zip_with (fun c b => set_lsb b c) bits cover))
  = lsb_mismatches bits cover.
Proof.
  unfold lsb_mismatches.
  induction bits as [|c bits IH]; intros cover Hc; [reflexivity|].
  destruct cover as [|b cover]; [reflexivity|].
  inversion Hc as [|? ? Hb Hc']; subst.
  cbn [length take zip_with foldr]. now rewrite popcount_set_lsb, IH.
Qed.

Lemma lsb_mismatches_bounds bits : forall cover,
  0 <= lsb_mismatches bits cover <= len bits.
Proof.
  unfold lsb_mismatches, len.
  induction bits as [|c bits IH]; intros cover; [cbn; lia|].
  destruct cover as [|b cover]; [cbn; lia|].
  cbn [zip_with foldr length]. specialize (IH cover).
  destruct (Z.land b 1 =? bit_of c); lia.
Qed.

Lemma changed_bits_same l :
  foldr Z.add 0 (zip_with (fun a b => popcount (Z.lxor a b)) l l) = 0.
Proof.
  induction l as [|a l IH]; [reflexivity|].
  cbn [zip_with foldr]. now rewrite Z.lxor_nilpotent, IH.
Qed.

Lemma bin_digits_length p : length (bin_digits p) = Pos.size_nat p.
Proof.
  induction p as [p IH|p IH|]; cbn [bin_digits Pos.size_nat];
    rewrite ?length_app, ?IH; cbn [length]; lia.
Qed.

Lemma size_nat_bounds p :
  2 ^ Z.of_nat (Pos.size_nat p) <= 2 * Z.pos p < 2 * 2 ^ Z.of_nat (Pos.size_nat p).
Proof.
  induction p as [p IH|p IH|]; cbn [Pos.size_nat];
    rewrite ?Nat2Z.inj_succ, ?Z.pow_succ_r by lia; [lia | lia |].
  cbn. lia.
Qed.

(** [format(c, '08b')] has at least 8 digits, and exactly 8 for the code
    points below 256 only. *)
Lemma format_08b_length_min c :
  0 <= c ->
  (8 <= length (format_08b c))%nat /\ (length (format_08b c) = 8%nat <-> c < 256).
Proof.
  intros Hc. destruct c as [|p|p]; [|clear Hc|lia].
  - split; [cbn; lia|]. split; [lia | reflexivity].
  - cbn [format_08b]. unfold zfill.
    rewrite length_app, length_replicate, bin_digits_length.
    pose proof (size_nat_bounds p) as Hp.
    split; [lia|]. split; intros H.
    + assert (Hn : (Pos.size_nat p <= 8)%nat) by lia.
      assert (2 ^ Z.of_nat (Pos.size_nat p) <= 2 ^ 8)
        by (apply Z.pow_le_mono_r; lia).
      change (2 ^ 8) with 256 in *. lia.
    + assert (Hn : Z.of_nat (Pos.size_nat p) < 9).
      { apply (Z.pow_lt_mono_r_iff 2); [lia | lia |].
        change (2 ^ 9) with 512. lia. }
      lia.
Qed.

Lemma text_to_binary_length_min text :
  Forall (fun c => 0 <= c) text ->
  8 * len text <= len (text_to_binary text) /\
  (len (text_to_binary text) = 8 * len text <-> Forall (fun c => c < 256) text).
Proof.
  induction 1 as [|c t Hc _ [IH1 IH2]].
  - split; [reflexivity|]. split; [constructor | reflexivity].
  - rewrite text_to_binary_cons, len_app.
    destruct (format_08b_length_min c Hc) as [H8 Heq].
    unfold len in *. cbn [length]. split; [lia|]. split.
    + intros H. constructor.
      * apply Heq. lia.
      * apply IH2. lia.
    + intros H. inversion H as [|? ? Hlt Ht]; subst.
      apply Heq in Hlt. apply IH2 in Ht. lia.
Qed.

(** X1: the outcome of [inject_payload].  The bitstream has at least the
    40 bits of the delimiter.  When it is longer than the cover, the call
    raises the "Message too large" [ValueError] with the two sizes, the
    buffer is untouched and the output file is not opened.  When it is not,
    the loop replaces the first [len(bitstream)] least significant bits of
    the buffer, and the outcome is that of the writer of the output file.
    If the writer accepts the parameters and the length of the cover, the
    call returns and the sample data of the file is the buffer left in
    memory.  If it does not, the call raises after the buffer has been
    modified: [wave.Error] when a setter refuses a parameter (a channel
    count below 1, a sample width outside 1..4, a frame rate of zero or
    less), and [struct.error] when a header field does not fit.  No other
    exception (subscript, [int()], byte range, division by zero) can
    occur. *)
Theorem X1_encode_outcome (p : wav_params) (cover secret : list Z)
    (Hs : Forall (fun c => 0 <= c) secret) :
  let bits := text_to_binary (secret ++ DELIMITER) in
  40 <= len bits /\
  (len cover < len bits ->
   encode p cover secret
   = (Raise (ValueError_MessageTooLarge (len bits) (len cover)),
      World cover None)) /\
  (len bits <= len cover ->
   if writable p (len cover)
   then exists st,
     encode p cover secret
     = (Ok st, World (embed bits cover) (Some (embed bits cover))) /\
     message_length st = len secret /\
     bits_injected st = len bits /\
     audio_capacity st = len cover
   else exists data,
     encode p cover secret
     = (Raise (if WaveSpec.params_ok (n_channels p) (sample_width p)
                    (frame_rate p)
               then StructError else WaveError),
        World (embed bits cover) (Some data))).
Proof.
  intros bits. split; [apply message_bits_min|]. split; intros H.
  - now apply encode_too_large.
  - destruct (writable p (len cover)) eqn:Hw.
    + pose proof (encode_fits_exact p cover secret Hs H Hw) as He.
      cbv zeta in He. eexists. split; [exact He|]. cbn. auto.
    + now apply encode_rejected.
Qed.

Lemma X1_encode_outcome_witness :
  encode (WavParams 1 1 44100) (replicate 48 0) [256]
  = (Raise (ValueError_MessageTooLarge 49 48), World (replicate 48 0) None) /\
  (exists st,
     encode (WavParams 1 1 44100) (replicate 49 0) [256]
     = (Ok st, World (embed (text_to_binary ([256] ++ DELIMITER)) (replicate 49 0))
                 (Some (embed (text_to_binary ([256] ++ DELIMITER)) (replicate 49 0)))) /\
     message_length st = 1 /\ bits_injected st = 49 /\ audio_capacity st = 49) /\
  (exists data,
     encode (WavParams 1 8 44100) (replicate 56 0) [256]
     = (Raise WaveError,
        World (embed (text_to_binary ([256] ++ DELIMITER)) (replicate 56 0))
          (Some data))) /\
  (exists data,
     encode (WavParams 1 2 2147483648) (replicate 50 0) [256]
     = (Raise StructError,
        World (embed (text_to_binary ([256] ++ DELIMITER)) (replicate 50 0))
          (Some data))).
Proof.
  assert (Hs : Forall (fun c => 0 <= c) [256]) by (repeat constructor; lia).
  split; [|split; [|split]].
  - destruct (X1_encode_outcome (WavParams 1 1 44100) (replicate 48 0) [256] Hs)
      as (_ & H & _).
    apply H. vm_compute. reflexivity.
  - destruct (X1_encode_outcome (WavParams 1 1 44100) (replicate 49 0) [256] Hs)
      as (_ & _ & H).
    apply H. vm_compute. discriminate.
  - destruct (X1_encode_outcome (WavParams 1 8 44100) (replicate 56 0) [256] Hs)
      as (_ & _ & H).
    apply H. vm_compute. discriminate.
  - destruct (X1_encode_outcome (WavParams 1 2 2147483648) (replicate 50 0)
                [256] Hs) as (_ & _ & H).
    apply H. vm_compute. discriminate.
Defined.

(** X2: the encoder changes least significant bits only.  For a cover of
    bytes and any secret, a run that returns leaves a buffer of the same
    length, made of bytes, in which every byte agrees with the cover byte
    at its index on the seven upper bits. *)
Theorem X2_only_lsb_changes (p : wav_params) (cover secret : list Z)
    (st : stats) (w : world)
    (Hcover : Forall is_byte cover)
    (Hs : Forall (fun c => 0 <= c) secret)
    (He : encode p cover secret = (Ok st, w)) :
  length (frames w) = length cover /\
  Forall is_byte (frames w) /\
  output_file w = Some (frames w) /\
  forall (i : nat) b b',
    cover !! i = Some b -> frames w !! i = Some b' ->
    Z.shiftr b' 1 = Z.shiftr b 1.
Proof.
  apply encode_Ok_inv in He as [Hle ->]; [|exact Hs]. cbv zeta. cbn [frames output_file].
  set (bits := text_to_binary (secret ++ DELIMITER)) in *.
  split.
  { unfold embed. rewrite length_app, length_zip_with, length_drop.
    unfold len in Hle. lia. }
  split; [now apply embed_bytes|]. split; [reflexivity|].
  intros i b b' Hb Hb'.
  destruct (decide (i < length bits)%nat) as [Hlt | Hge].
  - destruct (lookup_lt_is_Some_2 bits i Hlt) as [c Hc].
    rewrite (embed_lookup_lt bits cover i b c Hb Hc) in Hb'.
    injection Hb' as <-. fold (set_lsb b c). apply set_lsb_shiftr.
    eapply Forall_lookup_1; eauto.
  - rewrite embed_lookup_ge in Hb' by (unfold len in Hle; lia). congruence.
Qed.

Lemma X2_only_lsb_changes_witness :
  let out := [255;254;255;254;254;254;255;255; 254;254;255;254;254;254;255;255;
              254;254;255;254;254;254;255;255; 254;254;255;254;254;254;255;255;
              254;254;255;254;254;254;255;255; 254;254;255;254;254;254;255;255;
              255;255] in
  length out = length (replicate 50 255) /\
  Forall is_byte out /\
  Some out = Some out /\
  forall (i : nat) b b',
    replicate 50 255 !! i = Some b -> out !! i = Some b' ->
    Z.shiftr b' 1 = Z.shiftr b 1.
Proof.
  intros out.
  apply (X2_only_lsb_changes (WavParams 1 2 44100) (replicate 50 255) [163]
           (Stats 1 48 50 29 384) (World out (Some out))).
  - apply Forall_replicate. unfold is_byte. lia.
  - repeat constructor; lia.
  - vm_compute. reflexivity.
Defined.

(** X3: the distortion statistic.  For a cover of bytes, a run that
    returns reports as [bits_changed] the number of bitstream positions
    whose cover byte had the other least significant bit; so
    [0 <= bits_changed <= bits_injected], and since [total_bits] is
    [8 * bits_injected] the distortion percentage never exceeds 12.5. *)
Theorem X3_distortion_bound (p : wav_params) (cover secret : list Z)
    (st : stats) (w : world)
    (Hcover : Forall is_byte cover)
    (Hs : Forall (fun c => 0 <= c) secret)
    (He : encode p cover secret = (Ok st, w)) :
  bits_changed st = lsb_mismatches (text_to_binary (secret ++ DELIMITER)) cover /\
  0 <= bits_changed st <= bits_injected st /\
  total_bits st = 8 * bits_injected st /\
  8 * bits_changed st <= total_bits st.
Proof.
  pose proof He as He'.
  apply encode_Ok_inv in He' as [Hle _]; [|exact Hs].
  pose proof (encode_fits_exact p cover secret Hs Hle
                (encode_Ok_writable p cover secret st w Hs He)) as Hex.
  cbv zeta in Hex.
  rewrite He in Hex. injection Hex as -> _.
  set (bits := text_to_binary (secret ++ DELIMITER)) in *.
  cbn [bits_changed bits_injected total_bits].
  assert (Hn : Z.to_nat (len bits) = length bits) by (unfold len; lia).
  rewrite !Hn.
  rewrite take_embed by (unfold len in Hle; lia).
  rewrite changed_bits_mismatches by exact Hcover.
  pose proof (lsb_mismatches_bounds bits cover) as Hb.
  assert (Ht : len (take (length bits) cover) = len bits).
  { unfold len in *. rewrite length_take. lia. }
  rewrite Ht. repeat split; lia.
Qed.

Lemma X3_distortion_bound_witness :
  20 = lsb_mismatches (text_to_binary ([72; 73] ++ DELIMITER)) (replicate 60 0) /\
  0 <= 20 <= 56 /\ 448 = 8 * 56 /\ 8 * 20 <= 448.
Proof.
  apply (X3_distortion_bound (WavParams 1 2 44100) (replicate 60 0) [72; 73]
           (Stats 2 56 60 20 448)
           (snd (encode (WavParams 1 2 44100) (replicate 60 0) [72; 73]))).
  - apply Forall_replicate. unfold is_byte. lia.
  - repeat constructor; lia.
  - vm_compute. reflexivity.
Defined.

(** X4: encoding is idempotent.  Encoding the same secret into the buffer
    a first run has left gives that very buffer again, and reports that no
    bit was changed. *)
Theorem X4_encode_idempotent (p : wav_params) (cover secret : list Z)
    (st : stats) (w : world)
    (Hs : Forall (fun c => 0 <= c) secret)
    (He : encode p cover secret = (Ok st, w)) :
  exists st',
    encode p (frames w) secret = (Ok st', w) /\
    bits_changed st' = 0 /\
    bits_injected st' = bits_injected st.
Proof.
  pose proof (encode_Ok_writable p cover secret st w Hs He) as Hw.
  pose proof He as He'.
  apply encode_Ok_inv in He' as [Hle ->]; [|exact Hs].
  pose proof (encode_fits_exact p cover secret Hs Hle Hw) as Hex.
  cbv zeta in Hex.
  rewrite He in Hex. injection Hex as ->.
  cbv zeta. cbn [frames].
  set (bits := text_to_binary (secret ++ DELIMITER)) in *.
  assert (Hlen : len (embed bits cover) = len cover).
  { unfold len in *. unfold embed.
    rewrite length_app, length_zip_with, length_drop. lia. }
  pose proof (encode_fits_exact p (embed bits cover) secret Hs) as Hex.
  cbv zeta in Hex. fold bits in Hex. rewrite embed_idem in Hex.
  rewrite Hex by (rewrite Hlen; first [lia | exact Hw]).
  eexists. split; [reflexivity|]. cbn [bits_changed bits_injected].
  split; [apply changed_bits_same | reflexivity].
Qed.

Lemma X4_encode_idempotent_witness :
  exists st',
    encode (WavParams 1 2 44100)
      (frames (snd (encode (WavParams 1 2 44100) (replicate 60 0) [72; 73])))
      [72; 73]
    = (Ok st', snd (encode (WavParams 1 2 44100) (replicate 60 0) [72; 73])) /\
    bits_changed st' = 0 /\
    bits_injected st' = 56.
Proof.
  apply (X4_encode_idempotent (WavParams 1 2 44100) (replicate 60 0) [72; 73]
           (Stats 2 56 60 20 448)
           (snd (encode (WavParams 1 2 44100) (replicate 60 0) [72; 73]))).
  - repeat constructor; lia.
  - vm_compute. reflexivity.
Defined.

(** X5: the length of the bitstream.  For a text (code points are never
    negative), [text_to_binary] returns a string of the digits 0 and 1 of
    at least 8 digits per character, and of exactly 8 per character if and
    only if every code point is below 256. *)
Theorem X5_text_to_binary_length (text : list Z)
    (Hs : Forall (fun c => 0 <= c) text) :
  Forall is_bit (text_to_binary text) /\
  8 * len text <= len (text_to_binary text) /\
  (len (text_to_binary text) = 8 * len text <-> Forall (fun c => c < 256) text).
Proof.
  split; [now apply text_to_binary_bits | now apply text_to_binary_length_min].
Qed.

Lemma X5_text_to_binary_length_witness :
  Forall is_bit (text_to_binary [72; 8364]) /\
  8 * len [72; 8364] <= len (text_to_binary [72; 8364]) /\
  (len (text_to_binary [72; 8364]) = 8 * len [72; 8364]
   <-> Forall (fun c => c < 256) [72; 8364]).
Proof.
  apply (X5_text_to_binary_length [72; 8364]). repeat constructor; lia.
Defined.

End InjectExtra.

(** ** The decoder *)

Module ExtractExtra.
Import Extract InjectSpec ExtractSpec ExtraSpec InjectFacts ExtractFacts.

(** A run of [extract_payload], in terms of the values of the groups. *)
Lemma decode_run stego :
  decode stego
  = (let (R, g) := scan_values (scanned_groups stego) (Locals [] false) in
     (Ok (Stats (len (extracted_text R)) (delimiter_found R) (extracted_text R)),
      seqZ 0 (Z.min (8 * Z.of_nat g) (len stego)))).
Proof.
  unfold decode, extract_payload, scanned_groups. cbv zeta. unfold bind.
  rewrite range_step8, scan_loop_run. cbv zeta.
  destruct (scan_values _ _) as [R g]. cbn [fst snd]. unfold ret.
  change (8 * Z.of_nat 0) with 0. now rewrite Z.sub_0_r.
Qed.

Lemma scan_step_cases v st :
  (exists st', scan_step v st = (Next, st') /\
               delimiter_found st' = delimiter_found st /\
               (length (extracted_text st') <= length (extracted_text st) + 1)%nat)
  \/ (exists c st', v = Some c /\ scan_step v st = (Break, st') /\
                    delimiter_found st' = true /\
                    (length (extracted_text st') + 5
                     = length (extracted_text st) + 1)%nat).
Proof.
  unfold scan_step. destruct v as [c|]; [|left; eexists; split; [reflexivity|]; split; [reflexivity | lia]].
  destruct (printable c); [|left; eexists; split; [reflexivity|]; split; [reflexivity | lia]].
  unfold endswith. case_bool_decide as Hs.
  - right. exists c. eexists. split; [reflexivity|]. split; [reflexivity|].
    split; [reflexivity|]. cbn [extracted_text]. unfold drop_last.
    apply suffix_length in Hs. rewrite length_app in Hs.
    change (length DELIMITER) with 5%nat in *. cbn [length] in Hs.
    rewrite length_take, length_app. cbn [length]. lia.
  - left. eexists. split; [reflexivity|]. split; [reflexivity|].
    cbn [extracted_text]. rewrite length_app. cbn [length]. lia.
Qed.

(** A run that finds the delimiter has gone through [g >= 1] groups, the
    last of them complete; it counts at least one group per character of
    the text and of the delimiter; and it is the same on every list of
    groups that starts with the same [g] values. *)
Lemma scan_values_found vs : forall st r g,
  scan_values vs st = (r, g) ->
  delimiter_found st = false ->
  delimiter_found r = true ->
  (exists c, vs !! (g - 1)%nat = Some (Some c)) /\
  (1 <= g <= length vs)%nat /\
  (length (extracted_text r) + 5 <= length (extracted_text st) + g)%nat /\
  forall vs', take g vs' = take g vs -> scan_values vs' st = (r, g).
Proof.
  induction vs as [|v vs IH]; intros st r g Hrun Hst Hr.
  - cbn in Hrun. injection Hrun as <- <-. congruence.
  - cbn [scan_values] in Hrun.
    destruct (scan_step_cases v st) as [(st' & Hstep & Hf & Hl)
                                       | (c & st' & -> & Hstep & Hf & Hl)];
      rewrite Hstep in Hrun.
    + destruct (scan_values vs st') as [r' n] eqn:Hrest.
      injection Hrun as <- <-.
      destruct (IH st' r' n Hrest ltac:(congruence) Hr)
        as ((c & Hc) & Hn & Hlen & Hsame).
      split.
      { exists c. replace (S n - 1)%nat with (S (n - 1)) by lia. exact Hc. }
      split; [cbn [length]; lia|]. split; [lia|].
      intros vs' Htake. destruct vs' as [|v' vs']; [discriminate|].
      cbn [take] in Htake. injection Htake as -> Htake.
      cbn [scan_values]. rewrite Hstep, (Hsame vs' Htake). reflexivity.
    + injection Hrun as <- <-. split; [exists c; reflexivity|].
      split; [cbn [length]; lia|]. split; [lia|].
      intros vs' Htake. destruct vs' as [|v' vs']; [discriminate|].
      cbn [take] in Htake. injection Htake as ->.
      cbn [scan_values]. now rewrite Hstep.
Qed.

Lemma chunk_value_Some_bound l i c :
  0 <= i -> chunk_value l i = Some c -> i + 8 <= len l.
Proof.
  unfold chunk_value. cbv zeta. intros Hi.
  destruct (Nat.eqb_spec (length (take 8 (drop (Z.to_nat i) l))) 8) as [E | E];
    [|discriminate].
  intros _. rewrite length_take, length_drop in E. unfold len. lia.
Qed.

Lemma chunk_value_app pre tail i :
  0 <= i -> i + 8 <= len pre ->
  chunk_value (pre ++ tail) i = chunk_value pre i.
Proof.
  intros Hi Hl. unfold chunk_value. cbv zeta. unfold len in Hl.
  rewrite drop_app_le by lia.
  rewrite take_app_le by (rewrite length_drop; lia). reflexivity.
Qed.

Lemma scanned_groups_length stego :
  length (scanned_groups stego)
  = Z.to_nat ((Z.min (len stego) MAX_SEARCH_BYTES + 7) / 8).
Proof. unfold scanned_groups. now rewrite length_fmap, length_seq. Qed.

Lemma scanned_groups_lookup stego (k : nat) v :
  scanned_groups stego !! k = Some v -> v = chunk_value stego (8 * Z.of_nat k).
Proof.
  unfold scanned_groups. rewrite list_lookup_fmap.
  destruct (seq 0 _ !! k) as [j|] eqn:Hj; [|discriminate].
  apply lookup_seq in Hj as [-> _]. cbn. congruence.
Qed.

Lemma scanned_groups_take stego (g : nat) :
  (g <= length (scanned_groups stego))%nat ->
  take g (scanned_groups stego)
  = (fun k => chunk_value stego (8 * Z.of_nat k)) <$> seq 0 g.
Proof.
  rewrite scanned_groups_length. intros Hg. unfold scanned_groups.
  rewrite <- fmap_take, take_seq. do 2 f_equal. lia.
Qed.

(** Early exit: once a run on [pre] has found the delimiter, the same run
    happens on [pre ++ tail]. *)
Lemma decode_early_exit pre tail st reads :
  decode pre = (Ok st, reads) ->
  stats_delimiter_found st = true ->
  decode (pre ++ tail) = (Ok st, reads).
Proof.
  rewrite !decode_run.
  destruct (scan_values (scanned_groups pre) _) as [R g] eqn:Hrun.
  intros [= <- <-] Hfound. cbn [stats_delimiter_found] in Hfound.
  destruct (scan_values_found _ _ _ _ Hrun eq_refl Hfound)
    as ((c & Hc) & Hg & _ & Hsame).
  apply scanned_groups_lookup in Hc. symmetry in Hc.
  apply chunk_value_Some_bound in Hc; [|lia].
  assert (Hlen : (length (scanned_groups pre)
                  <= length (scanned_groups (pre ++ tail)))%nat).
  { rewrite !scanned_groups_length, len_app.
    pose proof (len_nonneg tail).
    apply Z2Nat.inj_le; try (apply Z.div_pos; pose proof (len_nonneg pre);
      pose proof MAX_SEARCH_BYTES_eq; lia).
    apply Z.div_le_mono; lia. }
  rewrite (Hsame (scanned_groups (pre ++ tail))).
  - rewrite len_app. pose proof (len_nonneg tail).
    do 2 f_equal. lia.
  - rewrite !scanned_groups_take by lia.
    apply list_fmap_ext. intros i k Hk.
    apply lookup_seq in Hk as [-> Hk]. apply chunk_value_app; lia.
Qed.

(** A run that finds the delimiter has read a whole number of groups. *)
Lemma decode_found_reads stego st reads :
  decode stego = (Ok st, reads) ->
  stats_delimiter_found st = true ->
  exists g : nat,
    reads = seqZ 0 (8 * Z.of_nat g) /\
    message_length st + 5 <= Z.of_nat g /\
    8 * Z.of_nat g <= Z.min (len stego) MAX_SEARCH_BYTES.
Proof.
  rewrite decode_run.
  destruct (scan_values (scanned_groups stego) _) as [R g] eqn:Hrun.
  intros [= <- <-] Hfound. cbn [stats_delimiter_found message_length] in *.
  destruct (scan_values_found _ _ _ _ Hrun eq_refl Hfound)
    as ((c & Hc) & Hg & Hlen & _).
  apply scanned_groups_lookup in Hc. symmetry in Hc.
  apply chunk_value_Some_bound in Hc; [|lia].
  rewrite scanned_groups_length in Hg.
  pose proof (ceil8_bounds (Z.min (len stego) MAX_SEARCH_BYTES)) as Hceil.
  pose proof MAX_SEARCH_BYTES_eq as HM. pose proof (len_nonneg stego).
  exists g. cbn [extracted_text length] in Hlen. unfold len at 2.
  split; [f_equal; lia|]. split; lia.
Qed.

Lemma lsb_char_bit_of c : is_bit c -> lsb_char (bit_of c) = c.
Proof. intros [-> | ->]; reflexivity. Qed.

Lemma bits_as_lsbs s : Forall is_bit s -> lsb_char <$> (bit_of <$> s) = s.
Proof.
  induction 1 as [|c s Hc _ IH]; [reflexivity|].
  cbn [fmap list_fmap] in *. now rewrite lsb_char_bit_of, IH.
Qed.

(** [binary_to_text] on a string of the digits 0 and 1. *)
Lemma binary_to_text_bits s :
  Forall is_bit s ->
  binary_to_text s
  = Ok (filter (fun c => printable c = true)
          (group_value <$> groups8 (bit_of <$> s))).
Proof.
  intros Hs. rewrite <- (bits_as_lsbs s Hs) at 1. apply binary_to_text_lsbs.
Qed.

Lemma groups8_app k : forall l1 l2,
  length l1 = (8 * k)%nat -> groups8 (l1 ++ l2) = groups8 l1 ++ groups8 l2.
Proof.
  induction k as [|k IH]; intros l1 l2 Hl.
  - destruct l1; [reflexivity | discriminate].
  - rewrite <- (take_drop 8 l1), <- app_assoc.
    assert (H8 : length (take 8 l1) = 8%nat) by (rewrite length_take; lia).
    rewrite (groups8_cons _ (drop 8 l1 ++ l2)) by exact H8.
    rewrite (groups8_cons _ (drop 8 l1)) by exact H8.
    rewrite IH by (rewrite length_drop; lia). reflexivity.
Qed.

Lemma groups8_length n : forall l,
  (length l <= n)%nat -> (8 * length (groups8 l) <= length l)%nat.
Proof.
  induction n as [|n IH]; intros l Hl.
  - destruct l; [cbn; lia | cbn in Hl; lia].
  - destruct (decide (length l < 8)%nat) as [Hs | Hge].
    + rewrite groups8_short by exact Hs. cbn. lia.
    + rewrite <- (take_drop 8 l).
      assert (H8 : length (take 8 l) = 8%nat) by (rewrite length_take; lia).
      rewrite groups8_cons by exact H8.
      specialize (IH (drop 8 l)). rewrite length_drop in IH.
      rewrite length_app, H8, length_drop. cbn [length]. lia.
Qed.

Lemma reconstructed_text_alphabet stego :
  Forall in_alphabet (reconstructed_text stego).
Proof.
  unfold reconstructed_text. cbv zeta. apply list.Forall_forall. intros c Hc.
  apply list_elem_of_filter in Hc as [Hc _]. now apply printable_alphabet.
Qed.

Lemma reconstructed_text_length stego :
  8 * len (reconstructed_text stego) <= Z.min (len stego) MAX_SEARCH_BYTES.
Proof.
  unfold reconstructed_text. cbv zeta.
  set (m := Z.min (len stego) MAX_SEARCH_BYTES).
  pose proof (length_filter (fun c => printable c = true)
                (group_value <$> groups8 (take (Z.to_nat m) stego))) as Hf.
  rewrite length_fmap in Hf.
  pose proof (groups8_length _ (take (Z.to_nat m) stego) (le_n _)) as Hg.
  rewrite length_take in Hg.
  pose proof MAX_SEARCH_BYTES_eq. subst m. unfold len in *. lia.
Qed.

Lemma find_sub_exists d s n :
  occurs_at d s n -> exists k, (k <= n)%nat /\ find_sub d s = Some k.
Proof.
  intros Hocc. destruct (find_sub d s) as [k|] eqn:Hf.
  - exists k. split; [|reflexivity].
    apply find_sub_Some in Hf as [_ Hmin].
    destruct (decide (k <= n)%nat) as [|Hgt]; [assumption|].
    exfalso. apply (Hmin n); [lia | exact Hocc].
  - exfalso. exact (proj1 (find_sub_None d s) Hf n Hocc).
Qed.

(** X6: [binary_to_text] on digit strings.  On a string of the digits 0
    and 1 it never raises; every character it returns lies in [32,126] or
    is 9, 10 or 13; and it returns at most one character per 8 digits. *)
Theorem X6_binary_to_text_total (binary : list ascii)
    (Hbits : Forall is_bit binary) :
  exists text,
    binary_to_text binary = Ok text /\
    Forall in_alphabet text /\
    8 * len text <= len binary.
Proof.
  rewrite (binary_to_text_bits binary Hbits). eexists. split; [reflexivity|].
  split.
  - apply list.Forall_forall. intros c Hc.
    apply list_elem_of_filter in Hc as [Hc _]. now apply printable_alphabet.
  - pose proof (length_filter (fun c => printable c = true)
                  (group_value <$> groups8 (bit_of <$> binary))) as Hf.
    rewrite length_fmap in Hf.
    pose proof (groups8_length _ (bit_of <$> binary) (le_n _)) as Hg.
    rewrite length_fmap in Hg. unfold len. lia.
Qed.

Lemma X6_binary_to_text_total_witness :
  exists text,
    binary_to_text (list_ascii_of_string "010010000000000101001001011") = Ok text /\
    Forall in_alphabet text /\
    8 * len text <= len (list_ascii_of_string "010010000000000101001001011").
Proof.
  apply X6_binary_to_text_total.
  repeat (apply Forall_cons; [(now left) || (now right)|]); apply Forall_nil.
Defined.

(** X7: [binary_to_text] and concatenation.  For digit strings, when the
    first has a multiple of 8 digits the text of the concatenation is the
    concatenation of the texts; a last group of fewer than 8 digits gives
    no character. *)
Theorem X7_binary_to_text_app (b1 b2 : list ascii)
    (H1 : Forall is_bit b1) (H2 : Forall is_bit b2)
    (Hlen : len b1 mod 8 = 0) :
  exists t1 t2,
    binary_to_text b1 = Ok t1 /\
    binary_to_text b2 = Ok t2 /\
    binary_to_text (b1 ++ b2) = Ok (t1 ++ t2) /\
    (len b2 < 8 -> t2 = []).
Proof.
  rewrite !binary_to_text_bits by (try apply Forall_app; auto).
  do 2 eexists. split; [reflexivity|]. split; [reflexivity|]. split.
  - rewrite fmap_app.
    rewrite (groups8_app (Z.to_nat (len b1 / 8))).
    + now rewrite fmap_app, list.filter_app.
    + rewrite length_fmap. unfold len in *.
      pose proof (Z.div_mod (Z.of_nat (length b1)) 8). lia.
  - intros Hs. rewrite groups8_short; [reflexivity|].
    rewrite length_fmap. unfold len in Hs. lia.
Qed.

Lemma X7_binary_to_text_app_witness :
  exists t1 t2,
    binary_to_text (list_ascii_of_string "01001000") = Ok t1 /\
    binary_to_text (list_ascii_of_string "0100100") = Ok t2 /\
    binary_to_text (list_ascii_of_string "01001000" ++ list_ascii_of_string "0100100")
    = Ok (t1 ++ t2) /\
    (len (list_ascii_of_string "0100100") < 8 -> t2 = []).
Proof.
  apply X7_binary_to_text_app.
  - repeat (apply Forall_cons; [(now left) || (now right)|]); apply Forall_nil.
  - repeat (apply Forall_cons; [(now left) || (now right)|]); apply Forall_nil.
  - reflexivity.
Defined.

(** X8: [extract_payload] and [binary_to_text].  The message is what
    [binary_to_text] returns on the least significant bits of the first
    [min(len(frames), MAX_SEARCH_BYTES)] bytes, cut before the first
    "#####" if there is one; [delimiter_found] tells whether there is. *)
Theorem X8_extract_is_binary_to_text (stego : list Z) :
  exists text,
    binary_to_text
      (lsb_char <$> take (Z.to_nat (Z.min (len stego) MAX_SEARCH_BYTES)) stego)
    = Ok text /\
    fst (decode stego)
    = Ok (match find_sub DELIMITER text with
          | Some n => Stats (len (take n text)) true (take n text)
          | None => Stats (len text) false text
          end).
Proof.
  exists (reconstructed_text stego). split; [apply reconstructed_text_binary|].
  destruct (decode_spec stego) as (r & -> & _). unfold split_at_delimiter.
  now destruct (find_sub _ _).
Qed.

(** X9: the size of the message.  The message has at most one character
    per 8 bytes of the scan region, and 5 fewer when the delimiter was
    found: a buffer of fewer than 40 bytes never yields a delimiter. *)
Theorem X9_message_length_bound (stego : list Z) :
  exists st reads,
    decode stego = (Ok st, reads) /\
    message_length st = len (message st) /\
    8 * (message_length st + (if stats_delimiter_found st then 5 else 0))
    <= Z.min (len stego) MAX_SEARCH_BYTES.
Proof.
  destruct (decode_spec stego) as (r & Hdec & _).
  pose proof (reconstructed_text_length stego) as HT.
  unfold split_at_delimiter in Hdec.
  destruct (find_sub DELIMITER (reconstructed_text stego)) as [n|] eqn:Hf;
    do 2 eexists; (split; [exact Hdec|]);
    cbn [message_length message stats_delimiter_found]; (split; [reflexivity|]).
  - apply find_sub_Some in Hf as [Hocc _].
    apply occurs_at_length in Hocc as [? | Hocc]; [discriminate|].
    change (length DELIMITER) with 5%nat in Hocc.
    unfold len in *. rewrite length_take. lia.
  - lia.
Qed.

Lemma group_value_lsbs g1 : forall g2 acc,
  lsbs g1 = lsbs g2 ->
  foldl (fun acc b => 2 * acc + Z.land b 1) acc g1
  = foldl (fun acc b => 2 * acc + Z.land b 1) acc g2.
Proof.
  induction g1 as [|b1 g1 IH]; intros [|b2 g2] acc H; try discriminate;
    [reflexivity|].
  unfold lsbs in H. cbn [fmap list_fmap] in H. injection H as Hb Hg.
  cbn [foldl]. rewrite Hb. now apply IH.
Qed.

Lemma chunk_value_lsbs s1 s2 i :
  lsbs s1 = lsbs s2 -> chunk_value s1 i = chunk_value s2 i.
Proof.
  intros H. unfold chunk_value. cbv zeta.
  assert (Hg : lsbs (take 8 (drop (Z.to_nat i) s1))
               = lsbs (take 8 (drop (Z.to_nat i) s2))).
  { unfold lsbs in *. now rewrite !fmap_take, !fmap_drop, H. }
  pose proof (f_equal length Hg) as Hl. unfold lsbs in Hl.
  rewrite !length_fmap in Hl. rewrite Hl.
  unfold group_value. now rewrite (group_value_lsbs _ _ 0 Hg).
Qed.

(** X10: only the least significant bits matter.  Two buffers whose bytes
    agree on their least significant bit give the same result and the same
    reads: [extract_payload] looks at nothing else in a byte. *)
Theorem X10_decode_lsb_only (s1 s2 : list Z) (Hlsb : lsbs s1 = lsbs s2) :
  decode s1 = decode s2.
Proof.
  rewrite !decode_run.
  assert (Hlen : len s1 = len s2).
  { pose proof (f_equal length Hlsb) as Hl. unfold lsbs in Hl.
    rewrite !length_fmap in Hl. unfold len. now rewrite Hl. }
  assert (Hgroups : scanned_groups s1 = scanned_groups s2).
  { unfold scanned_groups. rewrite Hlen. apply list_fmap_ext.
    intros _ k _. now apply chunk_value_lsbs. }
  now rewrite Hgroups, Hlen.
Qed.

Lemma X10_decode_lsb_only_witness :
  decode (concat (replicate 5 [0; 0; 1; 0; 0; 0; 1; 1]))
  = decode (concat (replicate 5 [254; 16; 255; 2; 4; 8; 33; 129])).
Proof. apply X10_decode_lsb_only. reflexivity. Defined.

(** X11: early exit.  Once a buffer yields a delimiter, the loop has
    stopped at the end of the group that completed it: the reads are the
    bytes of the first [g] groups, with [g] at least the message length
    plus 5, and whatever bytes follow the buffer change neither the result
    nor the reads. *)
Theorem X11_early_exit (pre tail : list Z) (st : stats) (reads : list Z)
    (Hdec : decode pre = (Ok st, reads))
    (Hfound : stats_delimiter_found st = true) :
  decode (pre ++ tail) = (Ok st, reads) /\
  exists g : nat,
    reads = seqZ 0 (8 * Z.of_nat g) /\
    message_length st + 5 <= Z.of_nat g /\
    8 * Z.of_nat g <= Z.min (len pre) MAX_SEARCH_BYTES.
Proof.
  split.
  - now apply decode_early_exit.
  - now apply decode_found_reads.
Qed.

Lemma X11_early_exit_witness :
  decode (concat (replicate 5 [0; 0; 1; 0; 0; 0; 1; 1]) ++ [1; 1; 0; 1])
  = (Ok (Stats 0 true []), seqZ 0 40) /\
  exists g : nat,
    seqZ 0 40 = seqZ 0 (8 * Z.of_nat g) /\
    message_length (Stats 0 true []) + 5 <= Z.of_nat g /\
    8 * Z.of_nat g
    <= Z.min (len (concat (replicate 5 [0; 0; 1; 0; 0; 0; 1; 1])))
             MAX_SEARCH_BYTES.
Proof.
  apply (X11_early_exit (concat (replicate 5 [0; 0; 1; 0; 0; 0; 1; 1]))
           [1; 1; 0; 1] (Stats 0 true []) (seqZ 0 40)).
  - vm_compute. reflexivity.
  - reflexivity.
Defined.

End ExtractExtra.

Module RoundTripExtra.
Import InjectSpec ExtractSpec ExtraSpec InjectFacts ExtractFacts RoundTrip.
Import ExtractExtra.

Lemma zip_set_lsb_zero bits :
  zip_with (fun c b => set_lsb b c) bits (replicate (length bits) 0)
  = bit_of <$> bits.
Proof.
  induction bits as [|c bits IH]; [reflexivity|].
  cbn [length replicate zip_with fmap list_fmap]. rewrite IH. f_equal.
Qed.

(** The groups of the digits of a text spell the text. *)
Lemma groups_of_text_to_binary text :
  Forall (fun c => 0 <= c < 256) text ->
  group_value <$> groups8 (bit_of <$> Inject.text_to_binary text) = text.
Proof.
  intros Hb. pose proof (text_to_binary_length text Hb) as Hlen.
  rewrite <- zip_set_lsb_zero, <- (app_nil_r (zip_with _ _ _)).
  rewrite groups_of_embedded.
  - cbn [groups8 fmap list_fmap]. apply app_nil_r.
  - exact Hb.
  - rewrite length_replicate. unfold len in Hlen. lia.
Qed.

Lemma embed_split bits cover :
  (length bits <= length cover)%nat ->
  embed bits cover
  = embed bits (take (length bits) cover) ++ drop (length bits) cover.
Proof.
  intros H. unfold embed.
  rewrite (drop_ge (take _ _)) by (rewrite length_take; lia).
  rewrite app_nil_r. f_equal.
  rewrite <- (take_drop (length bits) cover) at 1.
  rewrite zip_with_app_r.
  rewrite (take_ge bits), (drop_ge bits) by (rewrite ?length_take; lia).
  apply app_nil_r.
Qed.

Lemma stego_of_fits p cover payload :
  Forall (fun c => 0 <= c) payload ->
  len (Inject.text_to_binary (payload ++ Inject.DELIMITER)) <= len cover ->
  stego_of p cover payload
  = embed (Inject.text_to_binary (payload ++ Inject.DELIMITER)) cover.
Proof. intros Hs Hfit. unfold stego_of. now apply encode_frames. Qed.

Lemma byte_nonneg text :
  Forall (fun c => 0 <= c < 256) text -> Forall (fun c => 0 <= c) text.
Proof. apply Forall_impl. intros c. lia. Qed.

(** The text reconstructed from an encoded buffer, for a payload of bytes:
    the payload's characters of the alphabet, then the delimiter. *)
Lemma reconstructed_text_embed_bytes cover payload :
  Forall (fun c => 0 <= c < 256) payload ->
  8 * (len payload + 5) <= len cover ->
  8 * (len payload + 5) <= Extract.MAX_SEARCH_BYTES ->
  exists more,
    reconstructed_text
      (embed (Inject.text_to_binary (payload ++ Inject.DELIMITER)) cover)
    = filter (fun c => Extract.printable c = true) payload
      ++ Extract.DELIMITER ++ more.
Proof.
  intros Hb Hcover Hmax.
  assert (Hbytes : Forall (fun c => 0 <= c < 256) (payload ++ Inject.DELIMITER)).
  { apply Forall_app. split; [exact Hb | apply DELIMITER_byte]. }
  pose proof (text_to_binary_length _ Hbytes) as Hbits.
  rewrite len_app in Hbits. change (len Inject.DELIMITER) with 5 in Hbits.
  set (bits := Inject.text_to_binary (payload ++ Inject.DELIMITER)) in *.
  unfold reconstructed_text. cbv zeta.
  unfold len in *. rewrite len_embed by lia.
  set (m := Z.min (Z.of_nat (length cover)) Extract.MAX_SEARCH_BYTES).
  assert (Hm : (length bits <= Z.to_nat m)%nat) by (unfold m; lia).
  unfold embed. rewrite take_app_ge by (rewrite length_zip_with; lia).
  unfold bits at 1. rewrite groups_of_embedded
    by (auto; rewrite length_app; change (length Inject.DELIMITER) with 5%nat; lia).
  rewrite <- app_assoc, !list.filter_app.
  eexists. reflexivity.
Qed.

(** X12: [text_to_binary] then [binary_to_text].  For a text of code points
    below 256 the decoder's conversion gives back the characters of the
    alphabet and silently drops the others; a text over the alphabet comes
    back unchanged. *)
Theorem X12_text_binary_round_trip (text : list Z)
    (Hbyte : Forall is_byte text) :
  Extract.binary_to_text (Inject.text_to_binary text)
  = Ok (filter (fun c => Extract.printable c = true) text) /\
  (Forall in_alphabet text ->
   Extract.binary_to_text (Inject.text_to_binary text) = Ok text).
Proof.
  assert (Hrt : Extract.binary_to_text (Inject.text_to_binary text)
                = Ok (filter (fun c => Extract.printable c = true) text)).
  { rewrite binary_to_text_bits
      by (apply text_to_binary_bits, byte_nonneg; exact Hbyte).
    now rewrite groups_of_text_to_binary. }
  split; [exact Hrt|].
  intros Ha. rewrite Hrt. f_equal. apply filter_all.
  eapply Forall_impl; [intros c; apply printable_alphabet | exact Ha].
Qed.

Lemma X12_text_binary_round_trip_witness :
  Extract.binary_to_text (Inject.text_to_binary [72; 7; 105; 200])
  = Ok (filter (fun c => Extract.printable c = true) [72; 7; 105; 200]) /\
  (Forall in_alphabet [72; 7; 105; 200] ->
   Extract.binary_to_text (Inject.text_to_binary [72; 7; 105; 200])
   = Ok [72; 7; 105; 200]).
Proof.
  apply X12_text_binary_round_trip.
  repeat (apply Forall_cons; [unfold is_byte; lia|]); apply Forall_nil.
Defined.

(** X13: what the decoder reads of an encoded buffer.  Under the
    preconditions of the round trip, the decoder returns the payload and
    reads exactly the [8 * (len payload + 5)] bytes the encoder wrote to:
    no byte of the cover behind the bitstream is looked at. *)
Theorem X13_round_trip_reads (p : Inject.wav_params) (cover payload : list Z)
    (Halpha : Forall in_alphabet payload)
    (Hdelim : find_sub Extract.DELIMITER (payload ++ Inject.DELIMITER)
              = Some (length payload))
    (Hcover : 8 * (len payload + 5) <= len cover)
    (Hlimit : 8 * (len payload + 5) <= Extract.MAX_SEARCH_BYTES) :
  Extract.decode (stego_of p cover payload)
  = (Ok (Extract.Stats (len payload) true payload),
     seqZ 0 (8 * (len payload + 5))).
Proof.
  pose proof (alphabet_byte _ Halpha) as Hbyte.
  pose proof (bitstream_length _ Hbyte) as Hbits.
  rewrite stego_of_fits by (try apply byte_nonneg; auto; lia).
  set (bits := Inject.text_to_binary (payload ++ Inject.DELIMITER)) in *.
  assert (HN : (length bits <= length cover)%nat) by (unfold len in *; lia).
  rewrite (embed_split bits cover HN).
  set (pre := embed bits (take (length bits) cover)).
  assert (Hpre : len pre = 8 * (len payload + 5)).
  { unfold pre, len in *. rewrite len_embed; rewrite length_take; lia. }
  destruct (reconstructed_text_embed (take (length bits) cover) payload)
    as [more Htext]; auto.
  { unfold len in *. rewrite length_take. lia. }
  fold bits in Htext. fold pre in Htext.
  destruct (decode_spec pre) as (r & Hdec & _).
  unfold split_at_delimiter in Hdec. rewrite Htext, app_assoc in Hdec.
  change Inject.DELIMITER with Extract.DELIMITER in Hdelim.
  rewrite (find_sub_app _ _ more _ DELIMITER_nonempty Hdelim) in Hdec.
  rewrite <- app_assoc, take_app_length in Hdec.
  destruct (decode_found_reads _ _ _ Hdec eq_refl) as (g & Hr & Hg1 & Hg2).
  cbn [Extract.message_length] in Hg1.
  assert (Hg : Z.of_nat g = len payload + 5) by lia.
  rewrite Hr, Hg in Hdec.
  now apply decode_early_exit.
Qed.

Lemma X13_round_trip_reads_witness :
  Extract.decode
    (stego_of (Inject.WavParams 1 2 44100) (replicate 60 255) [72; 73])
  = (Ok (Extract.Stats (len [72; 73]) true [72; 73]),
     seqZ 0 (8 * (len [72; 73] + 5))).
Proof.
  apply X13_round_trip_reads.
  - repeat (apply Forall_cons; [unfold in_alphabet; lia|]); apply Forall_nil.
  - reflexivity.
  - vm_compute. discriminate.
  - vm_compute. discriminate.
Defined.

(** X14: round trip for any payload of bytes.  When the bitstream fits in
    the cover and within the scan limit, the decoder always finds a
    delimiter, and its message is a prefix of the payload's characters of
    the alphabet: the part before the first "#####" of these characters
    followed by the delimiter.  Characters outside the alphabet are lost. *)
Theorem X14_byte_payload_round_trip (p : Inject.wav_params)
    (cover payload : list Z)
    (Hbyte : Forall is_byte payload)
    (Hcover : 8 * (len payload + 5) <= len cover)
    (Hlimit : 8 * (len payload + 5) <= Extract.MAX_SEARCH_BYTES) :
  let kept := filter (fun c => Extract.printable c = true) payload in
  exists (k : nat) reads,
    find_sub Extract.DELIMITER (kept ++ Extract.DELIMITER) = Some k /\
    (k <= length kept)%nat /\
    Extract.decode (stego_of p cover payload)
    = (Ok (Extract.Stats (len (take k kept)) true (take k kept)), reads).
Proof.
  intros kept.
  pose proof (bitstream_length _ Hbyte) as Hbits.
  rewrite stego_of_fits by (try apply byte_nonneg; auto; lia).
  destruct (reconstructed_text_embed_bytes cover payload Hbyte Hcover Hlimit)
    as [more Htext]. fold kept in Htext.
  destruct (find_sub_exists Extract.DELIMITER (kept ++ Extract.DELIMITER)
              (length kept)) as (k & Hk & Hfind).
  { unfold occurs_at. now rewrite drop_app_length, take_ge by lia. }
  set (out := embed _ cover) in *.
  destruct (decode_spec out) as (r & Hdec & _).
  unfold split_at_delimiter in Hdec. rewrite Htext, app_assoc in Hdec.
  rewrite (find_sub_app _ _ more _ DELIMITER_nonempty Hfind) in Hdec.
  rewrite <- app_assoc, take_app_le in Hdec by exact Hk.
  exists k, (seqZ 0 r). auto.
Qed.

Lemma X14_byte_payload_round_trip_witness :
  let kept := filter (fun c => Extract.printable c = true) [72; 7; 35; 200] in
  exists (k : nat) reads,
    find_sub Extract.DELIMITER (kept ++ Extract.DELIMITER) = Some k /\
    (k <= length kept)%nat /\
    Extract.decode
      (stego_of (Inject.WavParams 1 2 44100) (replicate 80 128)
         [72; 7; 35; 200])
    = (Ok (Extract.Stats (len (take k kept)) true (take k kept)), reads).
Proof.
  apply X14_byte_payload_round_trip.
  - repeat (apply Forall_cons; [unfold is_byte; lia|]); apply Forall_nil.
  - vm_compute. discriminate.
  - vm_compute. discriminate.
Defined.

End RoundTripExtra.

Module GenerateToneExtra.
Import GenerateTone Wave WaveSpec WaveFacts InjectSpec ExtraSpec GenerateToneFacts.

(** A call of [generate_wav] that returns: the sample rate fits the header,
    the pass over the sample indexes raised nothing, and the file holds the
    header and what the pass gave. *)
Lemma generate_wav_Ok_inv libm_sin duration frequency sample_rate amplitude st w :
  generate_wav libm_sin duration frequency sample_rate amplitude
  = (Ok (Some st), w) ->
  exists n bs nf,
    0 < sample_rate < 2147483648 /\
    num_samples_of sample_rate duration = Ok n /\
    chunk_frames libm_sin amplitude frequency sample_rate (range 0 n 1) []
    = Ok bs /\
    36 + len bs < 4294967296 /\
    st = Stats n (n * 2 + 44) (n * 2) (n * 2 / 8) /\
    w = written 1 2 sample_rate nf bs.
Proof.
  intros Hgen.
  destruct (Z_lt_le_dec 0 sample_rate) as [Hpos | Hneg].
  2:{ destruct (generate_wav_bad_rate libm_sin duration frequency sample_rate
                  amplitude Hneg) as (e & w' & He). congruence. }
  destruct (Z_lt_le_dec sample_rate 2147483648) as [Hlt | Hbig].
  2:{ destruct (generate_wav_big_rate libm_sin duration frequency sample_rate
                  amplitude Hbig) as (e & w' & He). congruence. }
  destruct (num_samples_of sample_rate duration) as [n | e] eqn:Hn.
  2:{ unfold generate_wav in Hgen. rewrite Hn in Hgen. discriminate. }
  pose proof (generate_wav_run libm_sin duration frequency sample_rate
                amplitude n (conj Hpos Hlt) Hn) as Hrun.
  destruct (chunk_frames _ _ _ _ _ _) as [bs | e] eqn:Hpass.
  - destruct (Z.ltb_spec (36 + len bs) 4294967296) as [Hfit | Hbig].
    + destruct Hrun as (nf & Hrun). rewrite Hrun in Hgen.
      injection Hgen as <- <-. exists n, bs, nf. auto 10.
    + destruct Hrun as (w' & Hrun). congruence.
  - destruct Hrun as (e' & w' & Hrun & _). congruence.
Qed.

Lemma file_written c s r nf d :
  file (written c s r nf d) = riff_header c s r (len d) ++ d.
Proof. reflexivity. Qed.

(** X15: chunking is invisible.  With a positive sample rate and a sample
    count [n], one pass over the indexes [0 .. n-1] packs two bytes per
    sample, and [generate_wav] does what that pass does, whatever the chunk
    size of 1000 does to the loop.  When the pass raises nothing, the call
    returns exactly when the sample rate is below [2**31] and the data
    with its header fits 32-bit length fields: the file is then the 44
    bytes of the header followed by the bytes of the pass, and for [n >= 0]
    the reported [file_size] is the size of the file; otherwise the call
    raises [struct.error].  When the pass raises, the call raises, and what
    it raises is what the pass raised when rate and size fit. *)
Theorem X15_chunking_invisible (libm_sin : spec_float -> spec_float)
    (duration frequency : spec_float) (sample_rate amplitude n : Z)
    (Hrate : 0 < sample_rate)
    (Hn : num_samples_of sample_rate duration = Ok n) :
  match chunk_frames libm_sin amplitude frequency sample_rate (range 0 n 1) [] with
  | Ok bytes =>
    len bytes = 2 * Z.max 0 n /\
    Forall is_byte bytes /\
    if (sample_rate <? 2147483648) && (36 + len bytes <? 4294967296)
    then exists w,
      generate_wav libm_sin duration frequency sample_rate amplitude
      = (Ok (Some (Stats n (n * 2 + 44) (n * 2) (n * 2 / 8))), w) /\
      file w = riff_header 1 2 sample_rate (len bytes) ++ bytes /\
      data w = bytes /\
      (0 <= n -> n * 2 + 44 = len (file w))
    else exists w,
      generate_wav libm_sin duration frequency sample_rate amplitude
      = (Raise StructError, w)
  | Raise e =>
    exists e' w,
      generate_wav libm_sin duration frequency sample_rate amplitude
      = (Raise e', w) /\
      (sample_rate < 2147483648 -> 36 + 2 * Z.max 0 n < 4294967296 -> e' = e)
  end.
Proof.
  destruct (Z_lt_le_dec sample_rate 2147483648) as [Hlt | Hbig].
  - pose proof (generate_wav_run libm_sin duration frequency sample_rate
                  amplitude n (conj Hrate Hlt) Hn) as Hrun.
    destruct (chunk_frames _ _ _ _ _ _) as [bytes | e] eqn:Hpass.
    + destruct (chunk_frames_length libm_sin _ _ _ _ _ _ Hpass) as [Hlen Hb].
      rewrite Z.sub_0_r in Hlen. split; [exact Hlen|]. split; [exact Hb|].
      replace (sample_rate <? 2147483648) with true
        by (symmetry; apply Z.ltb_lt; lia).
      cbn [andb]. destruct (36 + len bytes <? 4294967296); [|exact Hrun].
      destruct Hrun as (nf & ->). eexists. split; [reflexivity|].
      rewrite data_written, file_written. split; [reflexivity|].
      split; [reflexivity|]. intros Hn0.
      rewrite len_app. unfold riff_header. rewrite header_with_length. lia.
    + destruct Hrun as (e' & w & Hrun & Himp). exists e', w. auto.
  - destruct (generate_wav_big_rate_struct libm_sin duration frequency
                sample_rate amplitude n Hbig Hn) as (w & Hrun).
    destruct (chunk_frames _ _ _ _ _ _) as [bytes | e] eqn:Hpass.
    + destruct (chunk_frames_length libm_sin _ _ _ _ _ _ Hpass) as [Hlen Hb].
      rewrite Z.sub_0_r in Hlen. split; [exact Hlen|]. split; [exact Hb|].
      replace (sample_rate <? 2147483648) with false
        by (symmetry; apply Z.ltb_ge; lia).
      cbn [andb]. eauto.
    + exists StructError, w. split; [exact Hrun | lia].
Qed.

Lemma X15_chunking_invisible_witness :
  len [0; 0; 0; 0; 0; 0] = 2 * Z.max 0 3 /\
  Forall is_byte [0; 0; 0; 0; 0; 0] /\
  exists w,
    generate_wav (fun _ => S754_zero false)
      (binary_normalize prec emax 1 0 false)
      (binary_normalize prec emax 440 0 false) 3 16000
    = (Ok (Some (Stats 3 (3 * 2 + 44) (3 * 2) (3 * 2 / 8))), w) /\
    file w = riff_header 1 2 3 (len [0; 0; 0; 0; 0; 0]) ++ [0; 0; 0; 0; 0; 0] /\
    data w = [0; 0; 0; 0; 0; 0] /\
    (0 <= 3 -> 3 * 2 + 44 = len (file w)).
Proof.
  exact (X15_chunking_invisible (fun _ => S754_zero false)
           (binary_normalize prec emax 1 0 false)
           (binary_normalize prec emax 440 0 false) 3 16000 3
           ltac:(lia) eq_refl).
Defined.

(** X16: the capacity [generate_wav] reports against the check of
    [inject_payload].  The data written has [stego_capacity_bits] bytes;
    on the file written (16-bit mono at the sample rate given) the encoder
    accepts a secret of code points below 256 exactly when its length plus
    5, for the delimiter, is at most [stego_capacity_chars]; so a secret of
    the reported number of characters is always refused as too large. *)
Theorem X16_reported_capacity (libm_sin : spec_float -> spec_float)
    (duration frequency : spec_float) (sample_rate amplitude : Z)
    (st : stats) (w : wave_write) (secret : list Z)
    (Hgen : generate_wav libm_sin duration frequency sample_rate amplitude
            = (Ok (Some st), w))
    (Hsecret : Forall is_byte secret) :
  len (data w) = Z.max 0 (stego_capacity_bits st) /\
  ((exists st' w',
      Inject.encode (Inject.WavParams 1 2 sample_rate) (data w) secret
      = (Ok st', w'))
   <-> len secret + 5 <= stego_capacity_chars st) /\
  (len secret = stego_capacity_chars st ->
   Inject.encode (Inject.WavParams 1 2 sample_rate) (data w) secret
   = (Raise (ValueError_MessageTooLarge (8 * (len secret + 5)) (len (data w))),
      Inject.World (data w) None)).
Proof.
  destruct (generate_wav_Ok_inv _ _ _ _ _ _ _ Hgen)
    as (n & bytes & nf & Hrate & Hn & Hpass & Hfit & -> & ->).
  destruct (chunk_frames_length libm_sin _ _ _ _ _ _ Hpass) as [Hlen _].
  rewrite Z.sub_0_r in Hlen. rewrite data_written.
  cbn [stego_capacity_bits stego_capacity_chars].
  assert (Hdata : len bytes = Z.max 0 (n * 2)) by lia.
  pose proof (InjectFacts.bitstream_length secret Hsecret) as Hbits.
  pose proof (len_nonneg secret) as Hnn.
  assert (Hs : Forall (fun c => 0 <= c) secret).
  { eapply Forall_impl; [|exact Hsecret]. unfold is_byte. intros c. lia. }
  assert (Hiff : 8 * (len secret + 5) <= len bytes
                 <-> len secret + 5 <= n * 2 / 8).
  { rewrite Hdata. pose proof (Z.div_mod (n * 2) 8 ltac:(lia)).
    pose proof (Z.mod_pos_bound (n * 2) 8 ltac:(lia)). lia. }
  assert (Hw : writable (Inject.WavParams 1 2 sample_rate) (len bytes) = true).
  { unfold writable. cbn [Inject.n_channels Inject.sample_width Inject.frame_rate].
    rewrite params_ok_rate, header_ok_rate by lia. settle. reflexivity. }
  split; [exact Hdata|]. split; [split|].
  - intros (st' & w' & Henc).
    apply (InjectFacts.encode_Ok_inv _ _ _ _ _ Hs) in Henc as [Hle _].
    apply Hiff. lia.
  - intros Hle.
    destruct (InjectFacts.encode_fits (Inject.WavParams 1 2 sample_rate)
                bytes secret Hs) as (st' & Henc & _);
      [apply Hiff in Hle; lia | exact Hw | eauto].
  - intros Heq. rewrite <- Hbits. apply InjectFacts.encode_too_large.
    assert (~ len secret + 5 <= n * 2 / 8) by lia.
    rewrite Hbits. destruct (Z_lt_le_dec (len bytes) (8 * (len secret + 5)));
      [assumption | exfalso; tauto].
Qed.

Lemma X16_reported_capacity_witness :
  len (replicate 48 0) = Z.max 0 48 /\
  ((exists st' w',
      Inject.encode (Inject.WavParams 1 2 24) (replicate 48 0) [72]
      = (Ok st', w'))
   <-> len [72] + 5 <= 6) /\
  (len [72] = 6 ->
   Inject.encode (Inject.WavParams 1 2 24) (replicate 48 0) [72]
   = (Raise (ValueError_MessageTooLarge (8 * (len [72] + 5))
               (len (replicate 48 0))),
      Inject.World (replicate 48 0) None)).
Proof.
  apply (X16_reported_capacity (fun _ => S754_zero false)
           (binary_normalize prec emax 1 0 false)
           (binary_normalize prec emax 440 0 false) 24 16000
           (Stats 24 92 48 6)
           (written 1 2 24 24 (replicate 48 0)) [72]).
  - vm_compute. reflexivity.
  - apply Forall_singleton. unfold is_byte. lia.
Defined.

End GenerateToneExtra.
